(** * Mython: the indentation-sensitive lexer and the AST evaluator

    A shallow embedding of [lexer.h]/[lexer.cpp] (namespace [parse]) and of
    [runtime.cpp], [statement.h]/[statement.cpp] (namespaces [runtime] and
    [ast]), followed by the properties of the specification that can be
    stated over it. *)

From stdpp Require Import gmap strings list fin_maps pretty.
From Stdlib Require Import ZArith Ascii String HexString.

Open Scope string_scope.
Open Scope list_scope.

(** ** Tokens ([lexer.h], namespace [parse::token_type]) *)

Module token_type.

(** The alternatives of [TokenBase], in the order of the [std::variant]. *)
Inductive Token : Type :=
| Number (value : Z)
| Id (value : string)
| Char (value : ascii)
| String (value : string)
| Class
| Return
| If
| Else
| Def
| Newline
| Print
| Indent
| Dedent
| And
| Or
| Not
| Eq
| NotEq
| LessOrEq
| GreaterOrEq
| None
| True
| False
| Eof.

End token_type.

(** ** The lexer ([lexer.cpp], namespace [parse]) *)

Module parse.

Abbreviation Token := token_type.Token.

(** *** The part of [std::istream] the lexer uses

    A stream is the characters not yet extracted and one flag, set when
    [failbit] is set.  After [peek] has hit the end only [eofbit] is set;
    that state behaves, for every operation used below, like the unflagged
    state with no characters left, so it needs no flag of its own.  No call
    ever resets a failed stream. *)
Record istream : Type := { chars : list ascii; failed : bool }.

Definition good (cs : list ascii) : istream := {| chars := cs; failed := false |}.
Definition set_fail (s : istream) : istream := {| chars := chars s; failed := true |}.

(** What a loop [while (input >> c)] can still read. *)
Definition readable (s : istream) : list ascii :=
  if failed s then [] else chars s.

(** [input >> c] under [noskipws] (and [input.get()]): on success [c] is the
    next character, on failure [c] keeps its old value and the stream fails. *)
Definition get_char (s : istream) (c : ascii) : bool * ascii * istream :=
  match readable s with
  | [] => (false, c, set_fail s)
  | x :: rest => (true, x, good rest)
  end.

(** [input.peek()]: the next character, or nothing ([EOF]). *)
Definition peek (s : istream) : option ascii := head (readable s).

(** [input.putback(c)]: refused by a failed stream. *)
Definition putback (c : ascii) (s : istream) : istream :=
  if failed s then s else good (c :: chars s).

(** The double quote, and [char c = -1]. *)
Definition dquote : ascii := ascii_of_nat 34.
Definition c_init : ascii := ascii_of_nat 255.

(** [str.push_back(c)]. *)
Definition push_back (s : string) (c : ascii) : string := s +:+ String.String c "".

(** *** The tables of [class Lexer] *)

Definition keywords_ : list (string * Token) :=
  [ ("class", token_type.Class); ("return", token_type.Return);
    ("if", token_type.If); ("else", token_type.Else);
    ("def", token_type.Def); ("print", token_type.Print);
    ("or", token_type.Or); ("None", token_type.None);
    ("and", token_type.And); ("not", token_type.Not);
    ("True", token_type.True); ("False", token_type.False) ].

Definition operations_char_ : list (ascii * Token) :=
  [ ("+"%char, token_type.Char "+"); ("-"%char, token_type.Char "-");
    ("*"%char, token_type.Char "*"); ("/"%char, token_type.Char "/");
    ("="%char, token_type.Char "="); (">"%char, token_type.Char ">");
    ("<"%char, token_type.Char "<"); ("!"%char, token_type.None) ].

Definition operations_ : list (string * Token) :=
  [ ("!=", token_type.NotEq); ("==", token_type.Eq);
    ("<=", token_type.LessOrEq); (">=", token_type.GreaterOrEq) ].

Definition chars_ : list (ascii * Token) :=
  [ ("("%char, token_type.Char "("); (")"%char, token_type.Char ")");
    (":"%char, token_type.Char ":"); (","%char, token_type.Char ",");
    ("."%char, token_type.Char ".") ].

Definition numbers_ : list ascii :=
  [ "0"; "1"; "2"; "3"; "4"; "5"; "6"; "7"; "8"; "9" ]%char.

(** [table.at(k)] as an option, and [table.count(k) != 0]. *)
Definition at_ {K V} `{EqDecision K} (table : list (K * V)) (k : K) : option V :=
  snd <$> find (λ kv, bool_decide (fst kv = k)) table.

Definition count {K V} `{EqDecision K} (table : list (K * V)) (k : K) : bool :=
  bool_decide (is_Some (at_ table k)).

Definition is_number (c : ascii) : bool := bool_decide (c ∈ numbers_).

(** *** What the constructor can throw: [std::stoi] in [ReadNumber], and
    [at] on a missing key; each exception with its [what()] *)
Inductive exception : Type :=
| invalid_argument (what : string)
| out_of_range (what : string).

Inductive result (A : Type) : Type :=
| Done (a : A)
| Throw (e : exception)
| NoFuel.
Arguments Done {A} a.
Arguments Throw {A} e.
Arguments NoFuel {A}.

Definition digit_value (c : ascii) : Z := Z.of_nat (nat_of_ascii c) - 48.

Fixpoint decimal (acc : Z) (s : string) : Z :=
  match s with
  | EmptyString => acc
  | String.String c s' => decimal (10 * acc + digit_value c) s'
  end.

(** [std::stoi] on the text [ReadNumber] hands it, which holds decimal
    digits only: no digit is [invalid_argument], a value above [INT_MAX]
    is [out_of_range]. *)
Definition stoi (number : string) : result Z :=
  match number with
  | EmptyString => Throw (invalid_argument "stoi")
  | _ => let v := decimal 0 number in
         if (v <=? 2147483647)%Z then Done v else Throw (out_of_range "stoi")
  end.

(** *** [Lexer::ReadNumber] *)

Fixpoint ReadNumber_loop (cs : list ascii) (number : string) : string * istream :=
  match cs with
  | [] => (number, set_fail (good []))
  | c :: rest =>
      if is_number c then ReadNumber_loop rest (push_back number c)
      else (number, putback c (good rest))
  end.

Definition ReadNumber (input : istream) (tokens_ : list Token)
  : result (istream * list Token) :=
  let '(_, c, input) := get_char input c_init in
  let is_minus := bool_decide (c = "-"%char) in
  let input := if is_minus then input else putback c input in
  let '(number, input) := ReadNumber_loop (readable input) "" in
  let tokens_ := if is_minus then tokens_ ++ [token_type.Char "-"] else tokens_ in
  match stoi number with
  | Done v => Done (input, tokens_ ++ [token_type.Number v])
  | Throw e => Throw e
  | NoFuel => NoFuel
  end.

(** *** [Lexer::ReadString] *)

Fixpoint ReadString_loop (cs : list ascii) (quote : ascii) (result : string)
  : string * istream :=
  match cs with
  | [] => (result, set_fail (good []))
  | c :: rest =>
      if bool_decide (c = "\"%char) then
        match rest with
        | [] =>
            (* the inner [input >> c] fails and [c] is still the backslash *)
            (push_back result c, set_fail (good []))
        | e :: rest' =>
            if bool_decide (e = "t"%char) then
              ReadString_loop rest' quote (push_back result (ascii_of_nat 9))
            else if bool_decide (e = "n"%char) then
              ReadString_loop rest' quote (push_back result (ascii_of_nat 10))
            else ReadString_loop rest' quote (push_back result e)
        end
      else if bool_decide (c = quote) then (result, good rest)
      else ReadString_loop rest quote (push_back result c)
  end.

Definition ReadString (input : istream) (tokens_ : list Token)
  : istream * list Token :=
  let '(_, c, input) := get_char input c_init in
  let quote := if bool_decide (c = "'"%char) then "'"%char else dquote in
  let '(result, input) := ReadString_loop (readable input) quote "" in
  (input, tokens_ ++ [token_type.String result]).

(** *** [Lexer::ReadId] *)

(** The loop of [ReadId]; the flag tells that it was left through the
    [return] of the [#] branch. *)
Fixpoint ReadId_loop (cs : list ascii) (id : string) : bool * string * istream :=
  match cs with
  | [] => (false, id, set_fail (good []))
  | c :: rest =>
      if bool_decide (c = "#"%char) then (true, id, set_fail (good rest))
      else if bool_decide (c = " "%char) || count chars_ c || count operations_char_ c
      then (false, id, putback c (good rest))
      else ReadId_loop rest (push_back id c)
  end.

Definition ReadId (input : istream) (tokens_ : list Token) : istream * list Token :=
  let '(hash, id, input) := ReadId_loop (readable input) "" in
  if hash then
    (input, if bool_decide (id = "") then tokens_ else tokens_ ++ [token_type.Id id])
  else
    match at_ keywords_ id with
    | Some t => (input, tokens_ ++ [t])
    | None => (input, tokens_ ++ [token_type.Id id])
    end.

(** *** [Lexer::ReadIndents] *)

(** How the [while (true)] loop is left: through [return] (a space that is
    not followed by a space) or through [break]. *)
Inductive indent_scan : Type :=
| Returned (input : istream)
| Broke (input : istream) (indent : nat).

Fixpoint ReadIndents_loop (cs : list ascii) (c : ascii) (indent : nat) : indent_scan :=
  match cs with
  | [] =>
      (* [input >> c] fails, [c] keeps the last character read *)
      if bool_decide (c = " "%char) then Returned (set_fail (good []))
      else Broke (set_fail (good [])) indent
  | c1 :: rest =>
      if bool_decide (c1 = " "%char) then
        match rest with
        | c2 :: rest' =>
            if bool_decide (c2 = " "%char) then ReadIndents_loop rest' c1 (S indent)
            else Returned (good rest)
        | [] => Returned (good rest)
        end
      else Broke (putback c1 (good rest)) indent
  end.

Definition ReadIndents (input : istream) (old_indent : nat) (tokens_ : list Token)
  : istream * nat * list Token :=
  match ReadIndents_loop (readable input) c_init 0 with
  | Returned input => (input, old_indent, tokens_)
  | Broke input indent =>
      if bool_decide (old_indent < indent) then
        (input, indent, tokens_ ++ replicate (indent - old_indent) token_type.Indent)
      else if bool_decide (indent < old_indent) then
        (input, indent, tokens_ ++ replicate (old_indent - indent) token_type.Dedent)
      else (input, old_indent, tokens_)
  end.

(** *** [Lexer::ReadChar] and [Lexer::ReadOperation] *)

Definition ReadChar (input : istream) (tokens_ : list Token)
  : result (istream * list Token) :=
  let '(_, c, input) := get_char input c_init in
  match at_ chars_ c with
  | Some t => Done (input, tokens_ ++ [t])
  | None => Throw (out_of_range "map::at")
  end.

Definition ReadOperation (input : istream) (tokens_ : list Token)
  : result (istream * list Token) :=
  let '(_, c, input) := get_char input c_init in
  let operation := push_back "" c in
  let '(operation, input) :=
    if bool_decide (c = "="%char) || bool_decide (c = "<"%char)
       || bool_decide (c = ">"%char) || bool_decide (c = "!"%char)
    then
      if bool_decide (peek input = Some "="%char) then
        let '(_, c, input) := get_char input c in (push_back operation c, input)
      else (operation, input)
    else (operation, input) in
  let found :=
    if bool_decide (String.length operation = 1)
    then at_ operations_char_ c else at_ operations_ operation in
  match found with
  | Some t => Done (input, tokens_ ++ [t])
  | None => Throw (out_of_range "map::at")
  end.

(** *** [Lexer::Lexer] *)

(** The loop [while (line >> c)] over one line.  Every round extracts at
    least one character, so [fuel] above the length of the line is never
    used up (see [tokenize_fuel]). *)
Fixpoint tokenize (fuel : nat) (line : istream) (tokens_ : list Token)
  : result (list Token) :=
  match fuel with
  | O => NoFuel
  | S fuel =>
      match get_char line c_init with
      | (false, _, _) => Done tokens_
      | (true, c, line) =>
          if bool_decide (c = " "%char) then tokenize fuel line tokens_
          else
            let step :=
              if bool_decide (c = "'"%char) || bool_decide (c = dquote)
              then Done (ReadString (putback c line) tokens_)
              else if count operations_char_ c
              then ReadOperation (putback c line) tokens_
              else if count chars_ c
              then ReadChar (putback c line) tokens_
              else if is_number c
              then ReadNumber (putback c line) tokens_
              else Done (ReadId (putback c line) tokens_) in
            match step with
            | Done (line, tokens_) => tokenize fuel line tokens_
            | Throw e => Throw e
            | NoFuel => NoFuel
            end
      end
  end.

(** The lines the successive calls of [std::getline] return until
    [input.eof()] holds: the pieces between the newline characters, with a
    last, possibly empty, piece after the last newline. *)
Fixpoint getlines (input : list ascii) : list (list ascii) :=
  match input with
  | [] => [[]]
  | c :: rest =>
      if bool_decide (c = ascii_of_nat 10) then [] :: getlines rest
      else match getlines rest with
           | l :: ls => (c :: l) :: ls
           | [] => [[c]]
           end
  end.

(** One round of the [while (!input.eof())] loop. *)
Definition Lexer_line (temp_string : list ascii) (tokens_ : list Token)
  (indent_count : nat) : result (list Token * nat) :=
  match temp_string with
  | [] => Done (tokens_, indent_count)
  | c0 :: _ =>
      if bool_decide (c0 = "#"%char) then Done (tokens_, indent_count)
      else
        let '(line, indent_count, tokens_) :=
          ReadIndents (good temp_string) indent_count tokens_ in
        match tokenize (S (List.length temp_string)) line tokens_ with
        | Done tokens_ =>
            Done (match tokens_ with
                  | [] => tokens_
                  | _ => tokens_ ++ [token_type.Newline]
                  end, indent_count)
        | Throw e => Throw e
        | NoFuel => NoFuel
        end
  end.

Fixpoint Lexer_lines (lines : list (list ascii)) (tokens_ : list Token)
  (indent_count : nat) : result (list Token * nat) :=
  match lines with
  | [] => Done (tokens_, indent_count)
  | l :: rest =>
      match Lexer_line l tokens_ indent_count with
      | Done (tokens_, indent_count) => Lexer_lines rest tokens_ indent_count
      | Throw e => Throw e
      | NoFuel => NoFuel
      end
  end.

(** The constructor: the token vector it leaves in [tokens_]. *)
Definition Lexer (input : string) : result (list Token) :=
  match Lexer_lines (getlines (list_ascii_of_string input)) [] 0 with
  | Done (tokens_, indent_count) =>
      Done (tokens_ ++ replicate indent_count token_type.Dedent ++ [token_type.Eof])
  | Throw e => Throw e
  | NoFuel => NoFuel
  end.

(** *** Notions used to state facts about the token vector *)

(** Counting the tokens of one kind in a token vector. *)
Definition is_Indent (t : Token) : bool :=
  match t with token_type.Indent => true | _ => false end.
Definition is_Dedent (t : Token) : bool :=
  match t with token_type.Dedent => true | _ => false end.
Definition is_Eof (t : Token) : bool :=
  match t with token_type.Eof => true | _ => false end.

Definition tally (p : Token → bool) (l : list Token) : nat :=
  List.length (List.filter p l).

(** A token that is neither [Indent], [Dedent] nor [Eof]. *)
Definition plain (t : Token) : bool :=
  negb (is_Indent t || is_Dedent t || is_Eof t).

(** What one reader appends to the token vector. *)
Definition appends_plain (before after : list Token) : Prop :=
  ∃ added, after = before ++ added ∧ Forall (λ t, plain t = true) added.

(** The indentation counter accounts for the [Indent] and [Dedent] tokens
    pushed so far, and no [Eof] has been pushed. *)
Definition balanced (tokens_ : list Token) (indent_count : nat) : Prop :=
  tally is_Indent tokens_ = tally is_Dedent tokens_ + indent_count
  ∧ tally is_Eof tokens_ = 0.

End parse.

(** ** The runtime object model and the AST ([runtime.cpp], [statement.h])

    [runtime.h], which declares [ObjectHolder], [Object] and its classes,
    [Closure], [Context], [Method], [Class] and [ClassInstance], is not
    among the sources.  The members of these classes are those that
    [runtime.cpp] and [statement.cpp] use; what only the header decides is
    taken from the specification and marked as such. *)

Module runtime.

(** The address of an object. *)
Definition addr : Type := N.
Bind Scope N_scope with addr.

(** The comparators of [runtime.cpp] a [Comparison] node can hold. *)
Inductive Comparator : Type :=
| cmp_Equal
| cmp_Less
| cmp_NotEqual
| cmp_Greater
| cmp_LessOrEqual
| cmp_GreaterOrEqual.

(** The classes of [statement.h] that derive from [Statement], together
    with [runtime::Class] and [runtime::Method], which hold statements and
    are held by them.  A node that stores a runtime object by value
    ([ValueStatement::value_], [NewInstance::instance]) is given the address
    [p] of that member; a [ClassDefinition] holds the address and the value
    of the class its holder owns.  A [Comparison] holds one of the six
    comparators of [runtime.cpp].

    Modelled from the spec: a [Method] has a name, an ordered list of
    formal parameter names and a body; a [Class] has a name, methods and an
    optional parent.  [methods_] keeps the methods in the order of the
    constructor's vector. *)
#[local] Unset Elimination Schemes.
Inductive Statement : Type :=
| NumericConst (p : addr) (value_ : Z)
| StringConst (p : addr) (value_ : string)
| BoolConst (p : addr) (value_ : bool)
| None_
| VariableValue (var_names_ : list string)
| Assignment (var_name_ : string) (var_value_ : Statement)
| FieldAssignment (object_ : list string) (field_name_ : string)
    (field_value_ : Statement)
| Print (args_ : list Statement) (name_ : string)
| MethodCall (object_ : Statement) (method_ : string) (args_ : list Statement)
| NewInstance (instance : addr) (args_ : list Statement)
| Stringify (argument_ : Statement)
| Add (lhs_ rhs_ : Statement)
| Sub (lhs_ rhs_ : Statement)
| Mult (lhs_ rhs_ : Statement)
| Div (lhs_ rhs_ : Statement)
| Or (lhs_ rhs_ : Statement)
| And (lhs_ rhs_ : Statement)
| Not (argument_ : Statement)
| Compound (instructions_ : list Statement)
| MethodBody (body_ : Statement)
| Return (statement_ : Statement)
| ClassDefinition (p : addr) (cls_ : Class)
| IfElse (condition_ if_body_ : Statement) (else_body_ : option Statement)
| Comparison (cmp_ : Comparator) (lhs_ rhs_ : Statement)
with Class : Type :=
| MkClass (name_ : string) (methods_ : list Method) (parent_ : option Class)
with Method : Type :=
| MkMethod (name : string) (formal_params : list string) (body : Statement).
#[local] Set Elimination Schemes.

Definition Method_name (m : Method) : string :=
  match m with MkMethod name _ _ => name end.
Definition Method_formal_params (m : Method) : list string :=
  match m with MkMethod _ formal_params _ => formal_params end.
Definition Method_body (m : Method) : Statement :=
  match m with MkMethod _ _ body => body end.

(** [Class::GetName]. *)
Definition GetName (c : Class) : string :=
  match c with MkClass name_ _ _ => name_ end.

(** [Class::GetMethod].  The constructor fills [methods_] with [insert],
    which keeps the first method of a name, so [methods_.at(name)] is the
    first method of that name in the vector. *)
Fixpoint GetMethod (c : Class) (name : string) : option Method :=
  match c with
  | MkClass _ methods_ parent_ =>
      match find (λ m, bool_decide (Method_name m = name)) methods_ with
      | Some m => Some m
      | None =>
          match parent_ with
          | Some parent => GetMethod parent name
          | None => None
          end
      end
  end.

(** Modelled from the spec: an [ObjectHolder] is a shared handle that
    refers to a [Number], a [String], a [Bool], a [Class] or a
    [ClassInstance], or is empty.  The constructor gives the pointer
    [data_.get()] and what it points to, so that [TryAs<T>] is a match on
    the constructor.  The objects of the classes [Number], [String], [Bool]
    and [Class] never change once built, so their holder carries the
    content next to the address; a [ClassInstance] changes through its
    holders, so its holder carries the address only and the content is in
    the heap of the state.

    Ownership is not part of a holder here.  In the code a holder made by
    [ObjectHolder::Own] owns its object, which is destroyed with its last
    owner, and a holder made by [ObjectHolder::Share] owns nothing: it
    dangles once the owners are gone.  Three kinds of objects are there
    for the whole run: the value of a literal (a member of its node), a
    class (owned by its [ClassDefinition] node) and a class instance (a
    member of its [NewInstance] node).  A [Number], [String] or [Bool] made
    by [Own] at run time is there as long as a holder that owns it: the
    local variable or temporary that received it, a closure entry or field
    it was assigned to.  A read through a holder that [VariableValue]
    returned is a read of a live object only if an owner is still there;
    this is not followed here, such a read gives the content the holder
    carries.  [Stringify::Execute], which lets go of the only owner before
    it reads, is the one place where the loss is decided by the node alone
    and is modelled ([owns_new_object]).  A fact below that reads the
    value of a [Number], [String] or [Bool] through a holder takes the
    object to be there; a fact about a statement says for which operands
    that is so. *)
Inductive ObjectHolder : Type :=
| HNone
| HNumber (p : addr) (value : Z)
| HString (p : addr) (value : string)
| HBool (p : addr) (value : bool)
| HClass (p : addr) (cls : Class)
| HInstance (p : addr).

(** [ObjectHolder::Get]. *)
Definition Get (object : ObjectHolder) : option addr :=
  match object with
  | HNone => None
  | HNumber p _ | HString p _ | HBool p _ | HClass p _ | HInstance p => Some p
  end.

(** [ObjectHolder::operator bool]. *)
Definition to_bool (object : ObjectHolder) : bool :=
  match object with HNone => false | _ => true end.

(** Modelled from the spec: a [Closure] is a mapping from identifier text
    to value handles. *)
Abbreviation Closure := (gmap string ObjectHolder).

(** [ClassInstance]: the class it refers to and its field store. *)
Record ClassInstance : Type := { class_ : Class; fields_ : Closure }.

(** [ClassInstance::ClassInstance], for the instance built at address
    [this]: [fields_["self"] = ObjectHolder().Share( *this)]. *)
Definition ClassInstance_new (cls : Class) (this : addr) : ClassInstance :=
  {| class_ := cls; fields_ := {[ "self" := HInstance this ]} |}.

(** The closure a statement runs against is passed by reference: it is
    either a map of its own (the closure of the driver, the local
    [Closure closure] of [ClassInstance::Call]) or the field store of the
    instance at [p] ([ClassInstance::Print] passes [fields_]). *)
Inductive ClosureRef : Type :=
| Local (closure : Closure)
| FieldsOf (p : addr).

(** The state a statement runs in: the closure it was handed, the
    instances (each lives in the [NewInstance] node that owns it), the text
    written to [context.GetOutputStream()] (of [Context] only this output
    stream is used) and the next free address for [ObjectHolder::Own]. *)
Record State : Type := {
  closure : ClosureRef;
  heap : gmap addr ClassInstance;
  output : string;
  brk : addr
}.

Definition set_closure (c : ClosureRef) (s : State) : State :=
  {| closure := c; heap := heap s; output := output s; brk := brk s |}.
Definition set_heap (h : gmap addr ClassInstance) (s : State) : State :=
  {| closure := closure s; heap := h; output := output s; brk := brk s |}.
Definition set_output (o : string) (s : State) : State :=
  {| closure := closure s; heap := heap s; output := o; brk := brk s |}.
Definition set_brk (b : addr) (s : State) : State :=
  {| closure := closure s; heap := heap s; output := output s; brk := b |}.

(** How a call ends: with a value, with a thrown [std::exception] whose
    [what()] is given, in undefined behaviour (a null or dangling pointer
    is dereferenced), or not within the fuel. *)
Inductive Result (A : Type) : Type :=
| Returns (a : A) (s : State)
| Throws (what : string) (s : State)
| Undefined
| Timeout.
Arguments Returns {A} a s.
Arguments Throws {A} what s.
Arguments Undefined {A}.
Arguments Timeout {A}.

Definition M (A : Type) : Type := State → Result A.

#[export] Instance M_ret : MRet M := λ A a s, Returns a s.
#[export] Instance M_bind : MBind M := λ A B f m s,
  match m s with
  | Returns a s' => f a s'
  | Throws what s' => Throws what s'
  | Undefined => Undefined
  | Timeout => Timeout
  end.

(** [throw std::runtime_error(what)]. *)
Definition throw {A} (what : string) : M A := λ s, Throws what s.
Definition undefined {A} : M A := λ _, Undefined.
Definition timeout {A} : M A := λ _, Timeout.

(** [try { m } catch (const std::exception& ex) { handler(ex.what()) }]. *)
Definition try_catch {A} (m : M A) (handler : string → M A) : M A := λ s,
  match m s with
  | Throws what s' => handler what s'
  | r => r
  end.

(** Running [m] against another closure; the caller's reference is the
    same afterwards. *)
Definition with_closure {A} (c : ClosureRef) (m : M A) : M A := λ s,
  match m (set_closure c s) with
  | Returns a s' => Returns a (set_closure (closure s) s')
  | Throws what s' => Throws what (set_closure (closure s) s')
  | Undefined => Undefined
  | Timeout => Timeout
  end.

(** [what()] of the [std::out_of_range] that [at] throws on a missing key.
    The text is the standard library's: libstdc++ 12 gives this one for
    [std::unordered_map], older releases gave [_Map_base::at].  No fact
    below depends on the text. *)
Definition out_of_range_what : string := "unordered_map::at".

(** The instance a pointer refers to. *)
Definition instance_at (p : addr) : M ClassInstance := λ s,
  match heap s !! p with
  | Some inst => Returns inst s
  | None => Undefined
  end.

(** The map the closure reference stands for. *)
Definition closure_map : M Closure := λ s,
  match closure s with
  | Local c => Returns c s
  | FieldsOf p =>
      match heap s !! p with
      | Some inst => Returns (fields_ inst) s
      | None => Undefined
      end
  end.

(** [p->Fields()[name] = value]. *)
Definition Fields_set (p : addr) (name : string) (value : ObjectHolder) : M unit :=
  λ s,
  match heap s !! p with
  | Some inst =>
      Returns () (set_heap (<[p := {| class_ := class_ inst;
                                       fields_ := <[name := value]> (fields_ inst) |}]>
                              (heap s)) s)
  | None => Undefined
  end.

(** [p->Fields().at(name)]. *)
Definition Fields_at (p : addr) (name : string) : M ObjectHolder :=
  inst ← instance_at p;
  match fields_ inst !! name with
  | Some v => mret v
  | None => throw out_of_range_what
  end.

(** [closure.at(name)]. *)
Definition closure_at (name : string) : M ObjectHolder :=
  c ← closure_map;
  match c !! name with
  | Some v => mret v
  | None => throw out_of_range_what
  end.

(** [closure[name] = value]. *)
Definition closure_set (name : string) (value : ObjectHolder) : M unit := λ s,
  match closure s with
  | Local c => Returns () (set_closure (Local (<[name := value]> c)) s)
  | FieldsOf p => Fields_set p name value s
  end.

(** [context.GetOutputStream() << text]. *)
Definition write (text : string) : M unit := λ s,
  Returns () (set_output (output s +:+ text) s).

(** [std::endl]. *)
Definition endl : string := String.String (ascii_of_nat 10) "".

(** Modelled from the spec: [ObjectHolder::Own<T>(value)] builds a new
    object of class [T] and returns the holder that owns it; the object is
    put at the next free address. *)
Definition Own_Number (value : Z) : M ObjectHolder := λ s,
  Returns (HNumber (brk s) value) (set_brk (brk s + 1)%N s).
Definition Own_String (value : string) : M ObjectHolder := λ s,
  Returns (HString (brk s) value) (set_brk (brk s + 1)%N s).
Definition Own_Bool (value : bool) : M ObjectHolder := λ s,
  Returns (HBool (brk s) value) (set_brk (brk s + 1)%N s).

(** Arithmetic of [int]: the result of an operation, reduced to 32 bits in
    two's complement (what the usual targets do on overflow, which the
    language leaves undefined). *)
Definition int_wrap (z : Z) : Z := ((z + 2 ^ 31) `mod` 2 ^ 32 - 2 ^ 31)%Z.

(** [os << ptr] for a non-null [Object*]: the address as [0x] and
    hexadecimal digits. *)
Definition show_pointer (p : addr) : string := HexString.of_N p.

(** Modelled from the spec: [Number::Print] and [String::Print] print
    their raw value; a number is written in decimal. *)
Definition Number_Print (value : Z) : string := pretty value.
Definition String_Print (value : string) : string := value.

(** [IsTrue]. *)
Definition IsTrue (object : ObjectHolder) : bool :=
  match object with
  | HBool _ b => b
  | HString _ s => negb (bool_decide (String.length s = 0))
  | HNumber _ n => negb (bool_decide (n = 0%Z))
  | _ => false
  end.

(** [ClassInstance::HasMethod]. *)
Definition HasMethod (p : addr) (method : string) (argument_count : nat) : M bool :=
  inst ← instance_at p;
  match GetMethod (class_ inst) method with
  | Some m => mret (bool_decide (List.length (Method_formal_params m) = argument_count))
  | None => mret false
  end.

(** [closure[formal_params[i]] = actual_args[i]] for [i] below
    [actual_args.size()]. *)
Fixpoint bind_params (closure : Closure) (formal_params : list string)
  (actual_args : list ObjectHolder) : Closure :=
  match formal_params, actual_args with
  | name :: formal_params, value :: actual_args =>
      bind_params (<[name := value]> closure) formal_params actual_args
  | _, _ => closure
  end.

Fixpoint foldM {A B} (f : B → A → M B) (b : B) (l : list A) : M B :=
  match l with
  | [] => mret b
  | a :: l => b' ← f b a; foldM f b' l
  end.

(** *** One level of the evaluator

    [Execute_] and [Print_] stand for [Statement::Execute] and
    [Object::Print] at the calls the code below makes; [Execute] and
    [Object_Print] further down close the recursion. *)
Section Level.

Variable Execute_ : Statement → M ObjectHolder.
Variable Print_ : ObjectHolder → M string.

(** [ClassInstance::Call], on the instance at [this]. *)
Definition Call (this : addr) (method : string) (actual_args : list ObjectHolder)
  : M ObjectHolder :=
  inst ← instance_at this;
  match GetMethod (class_ inst) method with
  | Some method_ptr =>
      if bool_decide (List.length actual_args
                      = List.length (Method_formal_params method_ptr))
      then
        with_closure
          (Local (bind_params {[ "self" := HInstance this ]}
                    (Method_formal_params method_ptr) actual_args))
          (Execute_ (Method_body method_ptr))
      else throw "Not implemented"
  | None => throw "Not implemented"
  end.

(** [ClassInstance::Print], on the instance at [this]: the text it sends
    to [os]. *)
Definition ClassInstance_Print (this : addr) : M string :=
  inst ← instance_at this;
  match GetMethod (class_ inst) "__str__" with
  | Some ptr =>
      result ← with_closure (FieldsOf this) (Execute_ (Method_body ptr));
      match result with
      | HNone => undefined
      | _ => Print_ result
      end
  | None => mret ""
  end.

(** The virtual call [object->Print(os, context)]: the text sent to [os];
    [Bool::Print] and [Class::Print] are in place. *)
Definition Print_object (object : ObjectHolder) : M string :=
  match object with
  | HNone => undefined
  | HNumber _ value => mret (Number_Print value)
  | HString _ value => mret (String_Print value)
  | HBool _ value => mret (if value then "True" else "False")
  | HClass _ cls => mret ("Class " +:+ GetName cls)
  | HInstance p => ClassInstance_Print p
  end.

(** [runtime::Equal]. *)
Definition Equal (lhs rhs : ObjectHolder) : M bool :=
  match lhs, rhs with
  | HNumber _ l, HNumber _ r => mret (bool_decide (l = r))
  | HString _ l, HString _ r => mret (bool_decide (l = r))
  | HBool _ l, HBool _ r => mret (bool_decide (l = r))
  | _, _ =>
      if negb (to_bool lhs) && negb (to_bool rhs) then mret true
      else
        match lhs with
        | HInstance p => result ← Call p "__eq__" [rhs]; mret (IsTrue result)
        | _ =>
            if bool_decide (Get lhs = Get rhs) then mret true
            else throw "Cannot compare objects for equality"
        end
  end.

(** [runtime::Less]. *)
Definition Less (lhs rhs : ObjectHolder) : M bool :=
  match lhs, rhs with
  | HNumber _ l, HNumber _ r => mret (bool_decide (l < r)%Z)
  | HString _ l, HString _ r => mret (String.ltb l r)
  | HBool _ l, HBool _ r => mret (negb l && r)
  | _, _ =>
      match lhs with
      | HInstance p => result ← Call p "__lt__" [rhs]; mret (IsTrue result)
      | _ => throw "Cannot compare objects for less"
      end
  end.

(** [runtime::NotEqual]. *)
Definition NotEqual (lhs rhs : ObjectHolder) : M bool :=
  e ← Equal lhs rhs; mret (negb e).

(** [runtime::Greater]. *)
Definition Greater (lhs rhs : ObjectHolder) : M bool :=
  try_catch
    (l ← Less lhs rhs;
     if negb l then e ← Equal lhs rhs; mret (negb e) else mret false)
    (λ _, throw "Cannot compare objects for greater").

(** [runtime::LessOrEqual]. *)
Definition LessOrEqual (lhs rhs : ObjectHolder) : M bool :=
  Less lhs rhs ≫= λ l : bool,
  if l then mret true else Equal lhs rhs.

(** [runtime::GreaterOrEqual]. *)
Definition GreaterOrEqual (lhs rhs : ObjectHolder) : M bool :=
  l ← Less lhs rhs;
  if negb l then mret true else mret false.

Definition compare (cmp : Comparator) : ObjectHolder → ObjectHolder → M bool :=
  match cmp with
  | cmp_Equal => Equal
  | cmp_Less => Less
  | cmp_NotEqual => NotEqual
  | cmp_Greater => Greater
  | cmp_LessOrEqual => LessOrEqual
  | cmp_GreaterOrEqual => GreaterOrEqual
  end.

End Level.

End runtime.

(** ** The evaluator ([statement.cpp], namespace [ast]) *)

Module ast.
Import runtime.

Definition ADD_METHOD : string := "__add__".
Definition INIT_METHOD : string := "__init__".

(** [INT_MIN]. *)
Definition INT_MIN : Z := (- 2 ^ 31)%Z.

(** [std::string result = ex.what()]: [what()] is a C string, the text
    ends before its first NUL character. *)
Fixpoint c_str (text : string) : string :=
  match text with
  | EmptyString => ""
  | String.String c rest =>
      if bool_decide (c = ascii_of_nat 0) then "" else String.String c (c_str rest)
  end.

(** The order in which the arguments of a function call are evaluated is
    left open by the language; g++ evaluates the last argument first. *)
Definition arguments_right_to_left : bool := true.

(** A literal: [ValueStatement::Execute] shares the value the node holds
    as a member. *)
Definition is_literal (stmt : Statement) : bool :=
  match stmt with
  | NumericConst _ _ | StringConst _ _ | BoolConst _ _ => true
  | _ => false
  end.

(** An object of a class that [ObjectHolder::Own] is called for. *)
Definition made_by_Own (object : ObjectHolder) : bool :=
  match object with
  | HNumber _ _ | HString _ _ | HBool _ _ => true
  | _ => false
  end.

(** A node whose [Execute] hands out a [Number], [String] or [Bool] only
    as [ObjectHolder::Own] made it: a new object that the returned holder
    alone owns.  [Add] is such a node when its left operand cannot be a
    class instance; otherwise its result is what [__add__] returned. *)
Fixpoint owns_new_object (stmt : Statement) : bool :=
  match stmt with
  | Stringify _ | Sub _ _ | Mult _ _ | Div _ _ | Or _ _ | And _ _ | Not _
  | Comparison _ _ _ | MethodBody _ => true
  | Add lhs_ _ => is_literal lhs_ || owns_new_object lhs_
  | _ => false
  end.

(** A loop [for (auto& x : l) f(x);]. *)
Fixpoint for_each {A B} (f : A → M B) (l : list A) : M unit :=
  match l with
  | [] => mret ()
  | a :: l => f a;; for_each f l
  end.

Section Level.

Variable Execute_ : Statement → M ObjectHolder.
Variable Print_ : ObjectHolder → M string.

(** [VariableValue::Execute].  For the empty holder [Share( *obj.Get())]
    forms a reference from the null pointer and takes its address back
    without reading through it; the result is the empty holder again. *)
Definition VariableValue_Execute (var_names_ : list string) : M ObjectHolder :=
  match var_names_ with
  | [] => undefined
  | first :: rest =>
      obj ← try_catch (closure_at first) (λ _, throw "execute error");
      obj ← foldM (λ obj name,
                     match obj with
                     | HInstance p => Fields_at p name
                     | _ => undefined
                     end) obj rest;
      mret obj
  end.

(** [Assignment::Execute]. *)
Definition Assignment_Execute (var_name_ : string) (var_value_ : Statement)
  : M ObjectHolder :=
  value ← Execute_ var_value_;
  closure_set var_name_ value;;
  mret value.

(** [FieldAssignment::Execute]: the right operand of the assignment is
    evaluated before the left one. *)
Definition FieldAssignment_Execute (object_ : list string) (field_name_ : string)
  (field_value_ : Statement) : M ObjectHolder :=
  value ← Execute_ field_value_;
  obj ← VariableValue_Execute object_;
  match obj with
  | HInstance p => Fields_set p field_name_ value;; mret value
  | _ => undefined
  end.

(** The loop of [Print::Execute] over [args_]. *)
Fixpoint Print_args (args_ : list Statement) : M unit :=
  match args_ with
  | [] => mret ()
  | arg :: rest =>
      ptr ← Execute_ arg;
      (if to_bool ptr then text ← Print_ ptr; write text else write "None");;
      write (match rest with [] => endl | _ => " " end);;
      Print_args rest
  end.

(** [Print::Execute]. *)
Definition Print_Execute (args_ : list Statement) (name_ : string) : M ObjectHolder :=
  (if negb (bool_decide (name_ = "")) then
     obj ← closure_at name_;
     match obj with
     | HNone => undefined
     | _ => text ← Print_ obj; write text;; write endl
     end
   else
     match args_ with
     | [] => write endl
     | _ => Print_args args_
     end);;
  mret HNone.

(** [MethodCall::Execute]. *)
Definition MethodCall_Execute (object_ : Statement) (method_ : string)
  (args_ : list Statement) : M ObjectHolder :=
  args ← mapM Execute_ args_;
  obj ← Execute_ object_;
  match obj with
  | HInstance p => Call Execute_ p method_ args
  | _ => undefined
  end.

(** [Stringify::Execute].  [ptr] is the raw pointer of the holder that
    [Execute] returned, and that holder is a temporary, gone at the end of
    the statement that takes the pointer.  Where the holder was the only
    owner of its object ([owns_new_object]), the object is destroyed with
    it and [ptr->Print] reads a destroyed object.  For the other arguments
    the object is read as there (see [ObjectHolder]). *)
Definition Stringify_Execute (argument_ : Statement) : M ObjectHolder :=
  ptr ← Execute_ argument_;
  if owns_new_object argument_ && made_by_Own ptr then undefined
  else
    str ← (if to_bool ptr then Print_ ptr else mret "None");
    if negb (bool_decide (str = "")) then Own_String str
    else
      match Get ptr with
      | Some p => Own_String (str +:+ show_pointer p)
      | None => Own_String (str +:+ "0")
      end.

(** [Add::Execute]. *)
Definition Add_Execute (lhs_ rhs_ : Statement) : M ObjectHolder :=
  lhs ← Execute_ lhs_;
  rhs ← Execute_ rhs_;
  match lhs, rhs with
  | HNumber _ lhs_value, HNumber _ rhs_value =>
      Own_Number (int_wrap (lhs_value + rhs_value))
  | HString _ lhs_value, HString _ rhs_value =>
      Own_String (lhs_value +:+ rhs_value)
  | HInstance p, _ =>
      HasMethod p ADD_METHOD 1 ≫= λ has : bool,
      if has then Call Execute_ p ADD_METHOD [rhs] else throw "Add Error"
  | _, _ => throw "Add Error"
  end.

(** [Sub::Execute]. *)
Definition Sub_Execute (lhs_ rhs_ : Statement) : M ObjectHolder :=
  lhs ← Execute_ lhs_;
  rhs ← Execute_ rhs_;
  match lhs, rhs with
  | HNumber _ lhs_value, HNumber _ rhs_value =>
      Own_Number (int_wrap (lhs_value - rhs_value))
  | _, _ => throw "Sub Error"
  end.

(** [Mult::Execute]. *)
Definition Mult_Execute (lhs_ rhs_ : Statement) : M ObjectHolder :=
  lhs ← Execute_ lhs_;
  rhs ← Execute_ rhs_;
  match lhs, rhs with
  | HNumber _ lhs_value, HNumber _ rhs_value =>
      Own_Number (int_wrap (lhs_value * rhs_value))
  | _, _ => throw "Mult Error"
  end.

(** [Div::Execute].  The quotient of [INT_MIN] by [-1] does not fit an
    [int]; the division is undefined there. *)
Definition Div_Execute (lhs_ rhs_ : Statement) : M ObjectHolder :=
  lhs ← Execute_ lhs_;
  rhs ← Execute_ rhs_;
  match lhs, rhs with
  | HNumber _ lhs_value, HNumber _ rhs_value =>
      if bool_decide (rhs_value = 0%Z) then throw "Div by 0"
      else if bool_decide (lhs_value = INT_MIN ∧ rhs_value = (-1)%Z) then undefined
      else Own_Number (lhs_value ÷ rhs_value)
  | _, _ => throw "Div Error"
  end.

(** [Compound::Execute]. *)
Definition Compound_Execute (instructions_ : list Statement) : M ObjectHolder :=
  for_each Execute_ instructions_;;
  mret HNone.

(** [Return::Execute]. *)
Definition Return_Execute (statement_ : Statement) : M ObjectHolder :=
  result ← Execute_ statement_;
  match result with
  | HNone => undefined
  | _ => ss ← Print_ result; throw ss
  end.

(** [ClassDefinition::Execute]. *)
Definition ClassDefinition_Execute (p : addr) (cls_ : Class) : M ObjectHolder :=
  closure_set (GetName cls_) (HClass p cls_);;
  mret (HClass p cls_).

(** [IfElse::Execute]. *)
Definition IfElse_Execute (condition_ if_body_ : Statement)
  (else_body_ : option Statement) : M ObjectHolder :=
  condition ← Execute_ condition_;
  match condition with
  | HBool _ result =>
      if result then Execute_ if_body_
      else
        match else_body_ with
        | Some else_body => Execute_ else_body
        | None => mret HNone
        end
  | _ => undefined
  end.

(** [Or::Execute]. *)
Definition Or_Execute (lhs_ rhs_ : Statement) : M ObjectHolder :=
  lhs ← Execute_ lhs_;
  rhs ← Execute_ rhs_;
  match lhs, rhs with
  | HBool _ lhs_value, HBool _ rhs_value =>
      if bool_decide (lhs_value = false) then Own_Bool (lhs_value || rhs_value)
      else Own_Bool true
  | _, _ => throw "Or Error"
  end.

(** [And::Execute]. *)
Definition And_Execute (lhs_ rhs_ : Statement) : M ObjectHolder :=
  lhs ← Execute_ lhs_;
  rhs ← Execute_ rhs_;
  match lhs, rhs with
  | HBool _ lhs_value, HBool _ rhs_value =>
      if bool_decide (lhs_value = true) then Own_Bool (lhs_value && rhs_value)
      else Own_Bool false
  | _, _ => throw "And Error"
  end.

(** [Not::Execute]. *)
Definition Not_Execute (argument_ : Statement) : M ObjectHolder :=
  lhs ← Execute_ argument_;
  match lhs with
  | HBool _ value => if bool_decide (value = true) then Own_Bool false else Own_Bool true
  | _ => throw "Not Error"
  end.

(** [Comparison::Execute].  The two operands are arguments of the call
    of [cmp_]: which one is evaluated first is as
    [arguments_right_to_left] says. *)
Definition Comparison_Execute (cmp_ : Comparator) (lhs_ rhs_ : Statement)
  : M ObjectHolder :=
  (if arguments_right_to_left
   then rhs ← Execute_ rhs_; lhs ← Execute_ lhs_; mret (lhs, rhs)
   else lhs ← Execute_ lhs_; rhs ← Execute_ rhs_; mret (lhs, rhs)) ≫= λ args,
  result ← compare Execute_ cmp_ args.1 args.2;
  Own_Bool result.

(** [NewInstance::Execute]. *)
Definition NewInstance_Execute (instance : addr) (args_ : list Statement)
  : M ObjectHolder :=
  args ← mapM Execute_ args_;
  HasMethod instance INIT_METHOD (List.length args) ≫= λ has : bool,
  (if has then Call Execute_ instance INIT_METHOD args;; mret () else mret ());;
  mret (HInstance instance).

(** [MethodBody::Execute]. *)
Definition MethodBody_Execute (body_ : Statement) : M ObjectHolder :=
  try_catch (Execute_ body_;; mret HNone) (λ ex, Own_String (c_str ex)).

(** The virtual call [stmt->Execute(closure, context)]. *)
Definition Statement_Execute (stmt : Statement) : M ObjectHolder :=
  match stmt with
  | NumericConst p value_ => mret (HNumber p value_)
  | StringConst p value_ => mret (HString p value_)
  | BoolConst p value_ => mret (HBool p value_)
  | None_ => mret HNone
  | VariableValue var_names_ => VariableValue_Execute var_names_
  | Assignment var_name_ var_value_ => Assignment_Execute var_name_ var_value_
  | FieldAssignment object_ field_name_ field_value_ =>
      FieldAssignment_Execute object_ field_name_ field_value_
  | Print args_ name_ => Print_Execute args_ name_
  | MethodCall object_ method_ args_ => MethodCall_Execute object_ method_ args_
  | NewInstance instance args_ => NewInstance_Execute instance args_
  | Stringify argument_ => Stringify_Execute argument_
  | Add lhs_ rhs_ => Add_Execute lhs_ rhs_
  | Sub lhs_ rhs_ => Sub_Execute lhs_ rhs_
  | Mult lhs_ rhs_ => Mult_Execute lhs_ rhs_
  | Div lhs_ rhs_ => Div_Execute lhs_ rhs_
  | Or lhs_ rhs_ => Or_Execute lhs_ rhs_
  | And lhs_ rhs_ => And_Execute lhs_ rhs_
  | Not argument_ => Not_Execute argument_
  | Compound instructions_ => Compound_Execute instructions_
  | MethodBody body_ => MethodBody_Execute body_
  | Return statement_ => Return_Execute statement_
  | ClassDefinition p cls_ => ClassDefinition_Execute p cls_
  | IfElse condition_ if_body_ else_body_ =>
      IfElse_Execute condition_ if_body_ else_body_
  | Comparison cmp_ lhs_ rhs_ => Comparison_Execute cmp_ lhs_ rhs_
  end.

End Level.

(** [Statement::Execute] and [Object::Print], closed over the depth of the
    calls still allowed. *)
Fixpoint Execute (fuel : nat) (stmt : Statement) : M ObjectHolder :=
  match fuel with
  | O => timeout
  | S fuel => Statement_Execute (Execute fuel) (Object_Print fuel) stmt
  end
with Object_Print (fuel : nat) (object : ObjectHolder) : M string :=
  match fuel with
  | O => timeout
  | S fuel => Print_object (Execute fuel) (Object_Print fuel) object
  end.

(** The state the driver starts from: its own empty closure, the instances
    of the [NewInstance] nodes of the program, nothing written. *)
Definition initial (instances : gmap addr ClassInstance) (brk : addr) : State :=
  {| closure := Local ∅; heap := instances; output := ""; brk := brk |}.

End ast.

(** ** Notions used to state facts about the evaluator *)

Module props.
Import runtime ast.

(** Every instance has [self] bound to a holder of itself. *)
Definition self_bound (h : gmap addr ClassInstance) : Prop :=
  ∀ p inst, h !! p = Some inst → fields_ inst !! "self" = Some (HInstance p).

(** [stmt] holds no write to the name [self] that can reach a field store:
    no [FieldAssignment] to the field [self] and, when the statement is to
    run against a field store ([on_fields]), no [Assignment] or
    [ClassDefinition] that binds [self]. *)
Fixpoint no_self_write (on_fields : bool) (stmt : Statement) {struct stmt} : bool :=
  match stmt with
  | NumericConst _ _ | StringConst _ _ | BoolConst _ _ | None_
  | VariableValue _ => true
  | Assignment var_name_ var_value_ =>
      negb (on_fields && bool_decide (var_name_ = "self"))
      && no_self_write on_fields var_value_
  | FieldAssignment _ field_name_ field_value_ =>
      negb (bool_decide (field_name_ = "self"))
      && no_self_write on_fields field_value_
  | Print args_ _ => forallb (no_self_write on_fields) args_
  | MethodCall object_ _ args_ =>
      no_self_write on_fields object_ && forallb (no_self_write on_fields) args_
  | NewInstance _ args_ => forallb (no_self_write on_fields) args_
  | Stringify a | Not a | MethodBody a | Return a => no_self_write on_fields a
  | Add l r | Sub l r | Mult l r | Div l r | Or l r | And l r
  | Comparison _ l r => no_self_write on_fields l && no_self_write on_fields r
  | Compound instructions_ => forallb (no_self_write on_fields) instructions_
  | ClassDefinition _ cls_ =>
      negb (on_fields && bool_decide (GetName cls_ = "self"))
  | IfElse c t e =>
      no_self_write on_fields c && no_self_write on_fields t
      && match e with
         | Some e => no_self_write on_fields e
         | None => true
         end
  end.

(** The methods a class answers to hold no such write: a body runs against
    a closure of its own when called, and the body of [__str__] also against
    the field store when the instance is printed. *)
Definition methods_ok (cls : Class) : Prop :=
  ∀ name m, GetMethod cls name = Some m →
    no_self_write false (Method_body m) = true
    ∧ (name = "__str__" → no_self_write true (Method_body m) = true).


(** Whether the closure handed to the statement is a field store. *)
Definition on_fields (c : ClosureRef) : bool :=
  match c with FieldsOf _ => true | Local _ => false end.

(** The invariant of a run whose closure is a field store or not, as [b]
    says: [self] is bound in every instance, the methods of every instance
    are in order. *)
Record Inv (b : bool) (s : State) : Prop := {
  inv_self : self_bound (heap s);
  inv_methods : ∀ p inst, heap s !! p = Some inst → methods_ok (class_ inst);
  inv_closure : on_fields (closure s) = b
}.

(** [m] keeps the invariant, whether it returns or throws. *)
Definition pres {A} (b : bool) (m : M A) : Prop :=
  ∀ s, Inv b s →
    match m s with
    | Returns _ s' | Throws _ s' => Inv b s'
    | Undefined | Timeout => True
    end.

End props.

(** ** Sample programs *)

Module samples.
Import runtime ast.

(** [class Counter] with [def __str__(): return "counter"]. *)
Definition Counter : Class :=
  MkClass "Counter"
    [MkMethod "__str__" [] (MethodBody (Return (StringConst 20 "counter")))] None.

(** The driver's state once [o = Counter()] has run: the instance of the
    [NewInstance] node lives at address 1. *)
Definition one_Counter : State :=
  {| closure := Local {[ "o" := HInstance 1 ]};
     heap := {[ 1%N := ClassInstance_new Counter 1 ]};
     output := "";
     brk := 100 |}.

(** [class Selfish] with [def __str__(): self = 0; return "s"]. *)
Definition Selfish : Class :=
  MkClass "Selfish"
    [MkMethod "__str__" []
       (MethodBody (Compound [Assignment "self" (NumericConst 21 0);
                              Return (StringConst 22 "s")]))] None.

(** [class Box] without methods, and [class Maker] with
    [def make(): self.last = Box()]; the instance of the [Box()] node lives
    at address 2. *)
Definition Box : Class := MkClass "Box" [] None.

(** The driver's state once [b = Box()] has run. *)
Definition one_Box : State :=
  {| closure := Local {[ "b" := HInstance 2 ]};
     heap := {[ 2%N := ClassInstance_new Box 2 ]};
     output := "";
     brk := 100 |}.

Definition Maker : Class :=
  MkClass "Maker"
    [MkMethod "make" []
       (MethodBody (FieldAssignment ["self"] "last" (NewInstance 2 [])))] None.

(** [class K] with [def one(): return 1] and [def bad(): return 1 / 0]. *)
Definition K : Class :=
  MkClass "K"
    [MkMethod "one" [] (MethodBody (Return (NumericConst 30 1)));
     MkMethod "bad" []
       (MethodBody (Return (Div (NumericConst 31 1) (NumericConst 32 0))))] None.

(** [class Never] with [def __eq__(other): return False]. *)
Definition Never : Class :=
  MkClass "Never"
    [MkMethod "__eq__" ["other"] (MethodBody (Return (BoolConst 40 false)))] None.

(** [class Tag] with [def __str__(unused): seen = label; return label]:
    the method has one formal parameter, reads the field [label] as a
    variable and assigns the variable [seen]. *)
Definition Tag : Class :=
  MkClass "Tag"
    [MkMethod "__str__" ["unused"]
       (MethodBody (Compound [Assignment "seen" (VariableValue ["label"]);
                              Return (VariableValue ["label"])]))] None.

(** The driver's state once [t = Tag()] and [t.label = "hello"] have run. *)
Definition one_Tag : State :=
  {| closure := Local {[ "t" := HInstance 1 ]};
     heap := {[ 1%N := {| class_ := Tag;
                          fields_ := <["label" := HString 50 "hello"]>
                                       {[ "self" := HInstance 1 ]} |} ]};
     output := "";
     brk := 100 |}.

(** [class Moody] with [def __lt__(other): self.mood = "1"], which
    returns nothing, and [def __eq__(other): return self.mood]. *)
Definition Moody : Class :=
  MkClass "Moody"
    [MkMethod "__lt__" ["other"]
       (MethodBody (FieldAssignment ["self"] "mood" (StringConst 61 "1")));
     MkMethod "__eq__" ["other"]
       (MethodBody (Return (VariableValue ["self"; "mood"])))] None.

(** The driver's state once [m = Moody()] and [m.mood = ""] have run. *)
Definition one_Moody : State :=
  {| closure := Local {[ "m" := HInstance 1 ]};
     heap := {[ 1%N := {| class_ := Moody;
                          fields_ := <["mood" := HString 60 ""]>
                                       {[ "self" := HInstance 1 ]} |} ]};
     output := "";
     brk := 100 |}.

End samples.

(** ** The token interface ([lexer.h], [lexer.cpp]) *)

Module lexer_api.
Import parse.

(** [Token::index()]: the position of the alternative in [TokenBase]. *)
Definition index (t : Token) : nat :=
  match t with
  | token_type.Number _ => 0
  | token_type.Id _ => 1
  | token_type.Char _ => 2
  | token_type.String _ => 3
  | token_type.Class => 4
  | token_type.Return => 5
  | token_type.If => 6
  | token_type.Else => 7
  | token_type.Def => 8
  | token_type.Newline => 9
  | token_type.Print => 10
  | token_type.Indent => 11
  | token_type.Dedent => 12
  | token_type.And => 13
  | token_type.Or => 14
  | token_type.Not => 15
  | token_type.Eq => 16
  | token_type.NotEq => 17
  | token_type.LessOrEq => 18
  | token_type.GreaterOrEq => 19
  | token_type.None => 20
  | token_type.True => 21
  | token_type.False => 22
  | token_type.Eof => 23
  end.

(** [operator==(const Token&, const Token&)]: once the indices agree,
    [rhs.As<T>()] is the alternative [lhs] holds. *)
Definition Token_eq (lhs rhs : Token) : bool :=
  if negb (Nat.eqb (index lhs) (index rhs)) then false
  else
    match lhs, rhs with
    | token_type.Char l, token_type.Char r => bool_decide (l = r)
    | token_type.Number l, token_type.Number r => bool_decide (l = r)
    | token_type.String l, token_type.String r => bool_decide (l = r)
    | token_type.Id l, token_type.Id r => bool_decide (l = r)
    | _, _ => true
    end.

(** [operator!=(const Token&, const Token&)]. *)
Definition Token_ne (lhs rhs : Token) : bool := negb (Token_eq lhs rhs).

(** The members of a [Lexer] once it is constructed. *)
Record LexerObject : Type := { tokens_ : list Token; current_token_ : Z }.

(** The object the constructor leaves: [current_token_ = 0]. *)
Definition Lexer_new (input : string) : result LexerObject :=
  match Lexer input with
  | Done tokens => Done {| tokens_ := tokens; current_token_ := 0 |}
  | Throw e => Throw e
  | NoFuel => NoFuel
  end.

(** [Lexer::CurrentToken]: [tokens_[current_token_]], which is nothing
    defined outside the vector. *)
Definition CurrentToken (lexer : LexerObject) : option Token :=
  if bool_decide (0 ≤ current_token_ lexer)%Z
  then tokens_ lexer !! Z.to_nat (current_token_ lexer)
  else None.

(** [Lexer::NextToken]: the lexer afterwards and the token returned. *)
Definition NextToken (lexer : LexerObject) : LexerObject * option Token :=
  let lexer :=
    if negb (bool_decide (current_token_ lexer
                          = Z.of_nat (List.length (tokens_ lexer)) - 1)%Z)
    then {| tokens_ := tokens_ lexer; current_token_ := current_token_ lexer + 1 |}
    else lexer in
  (lexer, CurrentToken lexer).

(** [n] calls of [NextToken]. *)
Fixpoint NextToken_times (n : nat) (lexer : LexerObject) : LexerObject :=
  match n with
  | O => lexer
  | S n => NextToken_times n (NextToken lexer).1
  end.

(** The text of a string literal that [ReadString] reads back as [text]:
    a backslash before each backslash and each quote, and the two-character
    forms of tab and newline. *)
Fixpoint escape (quote : ascii) (text : string) : list ascii :=
  match text with
  | EmptyString => []
  | String.String c text =>
      (if bool_decide (c = ascii_of_nat 9) then ["\"%char; "t"%char]
       else if bool_decide (c = ascii_of_nat 10) then ["\"%char; "n"%char]
       else if bool_decide (c = "\"%char) || bool_decide (c = quote)
       then ["\"%char; c]
       else [c]) ++ escape quote text
  end.

(** A character that [ReadId] takes into the identifier. *)
Definition id_char (c : ascii) : bool :=
  negb (bool_decide (c = "#"%char) || bool_decide (c = " "%char)
        || count chars_ c || count operations_char_ c).

(** A token that the readers of one line can push: not [Newline],
    [Indent], [Dedent] or [Eof]. *)
Definition in_line (t : Token) : bool :=
  match t with
  | token_type.Newline | token_type.Indent | token_type.Dedent
  | token_type.Eof => false
  | _ => true
  end.

(** In every prefix of the vector, the [Dedent] tokens are no more than
    the [Indent] tokens. *)
Definition nested (tokens : list Token) : Prop :=
  ∀ n, (tally is_Dedent (take n tokens) ≤ tally is_Indent (take n tokens))%nat.

End lexer_api.

(** ** Notions used to state further facts about the evaluator *)

Module notions.
Import runtime ast.

(** The closure reference after a run against the one before: the same
    field store, or a map of its own that binds at least the same names. *)
Definition closure_grows (c c' : ClosureRef) : Prop :=
  match c, c' with
  | Local m, Local m' => dom m ⊆@{gset string} dom m'
  | FieldsOf p, FieldsOf p' => p = p'
  | _, _ => False
  end.

(** The instance at an address after a run against the one before: none
    before and none after, or the same class and at least the same fields. *)
Definition instance_grows (i i' : option ClassInstance) : Prop :=
  match i, i' with
  | Some inst, Some inst' =>
      class_ inst' = class_ inst
      ∧ dom (fields_ inst) ⊆@{gset string} dom (fields_ inst')
  | None, None => True
  | _, _ => False
  end.

(** What a run leaves of the state it started in. *)
Record extends (s s' : State) : Prop := {
  ext_closure : closure_grows (closure s) (closure s');
  ext_heap : ∀ p, instance_grows (heap s !! p) (heap s' !! p);
  ext_output : ∃ text, output s' = output s +:+ text;
  ext_brk : (brk s ≤ brk s')%N
}.

(** [m] leaves an extension of the state, whether it returns or throws. *)
Definition keeps {A} (m : M A) : Prop :=
  ∀ s,
    match m s with
    | Returns _ s' | Throws _ s' => extends s s'
    | Undefined | Timeout => True
    end.

(** The value of [stmt], where it has one, is there as long as the local
    holder that received it: it is the value of a literal, or a new object
    that this holder owns.  A value read from a variable is not of this
    kind: it is there only as long as its owners elsewhere. *)
Definition lives_while_held (stmt : Statement) : bool :=
  is_literal stmt || owns_new_object stmt.

(** Two holders of numbers, of strings or of Bools. *)
Definition primitive_pair (lhs rhs : ObjectHolder) : bool :=
  match lhs, rhs with
  | HNumber _ _, HNumber _ _ | HString _ _, HString _ _
  | HBool _ _, HBool _ _ => true
  | _, _ => false
  end.

(** The text a literal prints as. *)
Definition literal_text (stmt : Statement) : option string :=
  match stmt with
  | NumericConst _ value_ => Some (Number_Print value_)
  | StringConst _ value_ => Some (String_Print value_)
  | BoolConst _ value_ => Some (if value_ then "True" else "False")
  | None_ => Some "None"
  | _ => None
  end.

(** Texts with one space between two neighbours. *)
Fixpoint spaced (texts : list string) : string :=
  match texts with
  | [] => ""
  | [text] => text
  | text :: rest => text +:+ " " +:+ spaced rest
  end.

(** A value that fits an [int]. *)
Definition fits_int (z : Z) : Prop := (INT_MIN ≤ z < 2 ^ 31)%Z.

End notions.

(** ** Facts about the lexer *)

Module LexerFacts.
Import parse.
Local Open Scope nat_scope.

Lemma tally_app p l1 l2 : tally p (l1 ++ l2) = tally p l1 + tally p l2.
Proof. unfold tally. by rewrite List.filter_app, length_app. Qed.

Lemma tally_replicate_same p n t : p t = true → tally p (replicate n t) = n.
Proof.
  intros Hp. unfold tally. induction n as [|n IH]; simpl; [done|].
  rewrite Hp. simpl. by rewrite IH.
Qed.

Lemma tally_replicate_other p n t : p t = false → tally p (replicate n t) = 0.
Proof.
  intros Hp. unfold tally. induction n as [|n IH]; simpl; [done|].
  by rewrite Hp.
Qed.

Lemma tally_plain l :
  Forall (λ t, plain t = true) l →
  tally is_Indent l = 0 ∧ tally is_Dedent l = 0 ∧ tally is_Eof l = 0.
Proof.
  induction 1 as [|t l Ht _ IH]; [done|].
  unfold tally in *. simpl.
  destruct t; simpl in *; try done.
Qed.

(** A value found in a table is one of the values of the table. *)
Lemma at_Forall {K V} `{EqDecision K} (P : V → Prop) (table : list (K * V)) k v :
  Forall (λ kv, P (snd kv)) table → at_ table k = Some v → P v.
Proof.
  unfold at_. induction 1 as [|kv table Hkv _ IH]; simpl; [done|].
  case_bool_decide; simpl; [by intros [= <-]|done].
Qed.

Lemma keywords_plain id t : at_ keywords_ id = Some t → plain t = true.
Proof. apply (at_Forall (λ t, plain t = true)). by repeat constructor. Qed.

Lemma operations_char_plain c t : at_ operations_char_ c = Some t → plain t = true.
Proof. apply (at_Forall (λ t, plain t = true)). by repeat constructor. Qed.

Lemma operations_plain op t : at_ operations_ op = Some t → plain t = true.
Proof. apply (at_Forall (λ t, plain t = true)). by repeat constructor. Qed.

Lemma chars_plain c t : at_ chars_ c = Some t → plain t = true.
Proof. apply (at_Forall (λ t, plain t = true)). by repeat constructor. Qed.

Lemma appends_plain_refl l : appends_plain l l.
Proof. exists []. by rewrite app_nil_r. Qed.

Lemma appends_plain_one l t : plain t = true → appends_plain l (l ++ [t]).
Proof. intros Ht. exists [t]. split; [done|by constructor]. Qed.

Lemma appends_plain_trans l1 l2 l3 :
  appends_plain l1 l2 → appends_plain l2 l3 → appends_plain l1 l3.
Proof.
  intros (a & -> & Ha) (b & -> & Hb). exists (a ++ b).
  split; [by rewrite app_assoc|by apply Forall_app].
Qed.

Lemma ReadString_plain input tokens_ input' tokens' :
  ReadString input tokens_ = (input', tokens') → appends_plain tokens_ tokens'.
Proof.
  unfold ReadString. destruct (get_char input c_init) as [[ok c] s].
  destruct (ReadString_loop _ _ _) as [r s']. intros [= _ <-].
  by apply appends_plain_one.
Qed.

Lemma ReadNumber_plain input tokens_ input' tokens' :
  ReadNumber input tokens_ = Done (input', tokens') → appends_plain tokens_ tokens'.
Proof.
  unfold ReadNumber. destruct (get_char input c_init) as [[ok c] s].
  destruct (ReadNumber_loop _ _) as [number s'].
  destruct (stoi number) as [v| |]; [|done..]. intros [= _ <-].
  case_bool_decide.
  - eapply appends_plain_trans; by apply appends_plain_one.
  - by apply appends_plain_one.
Qed.

Lemma ReadId_plain input tokens_ input' tokens' :
  ReadId input tokens_ = (input', tokens') → appends_plain tokens_ tokens'.
Proof.
  unfold ReadId. destruct (ReadId_loop _ _) as [[hash id] s].
  destruct hash.
  - intros [= _ <-]. case_bool_decide;
      [apply appends_plain_refl|by apply appends_plain_one].
  - destruct (at_ keywords_ id) as [t|] eqn:Hk; intros [= _ <-].
    + apply appends_plain_one. by eapply keywords_plain.
    + by apply appends_plain_one.
Qed.

Lemma ReadChar_plain input tokens_ input' tokens' :
  ReadChar input tokens_ = Done (input', tokens') → appends_plain tokens_ tokens'.
Proof.
  unfold ReadChar. destruct (get_char input c_init) as [[ok c] s].
  destruct (at_ chars_ c) as [t|] eqn:Hc; [|done]. intros [= _ <-].
  apply appends_plain_one. by eapply chars_plain.
Qed.

Lemma ReadOperation_plain input tokens_ input' tokens' :
  ReadOperation input tokens_ = Done (input', tokens') → appends_plain tokens_ tokens'.
Proof.
  unfold ReadOperation. destruct (get_char input c_init) as [[ok c] s].
  destruct (if _ : bool then _ else _) as [operation s'].
  case_bool_decide.
  - destruct (at_ operations_char_ c) as [t|] eqn:Hc; [|done]. intros [= _ <-].
    apply appends_plain_one. by eapply operations_char_plain.
  - destruct (at_ operations_ operation) as [t|] eqn:Hc; [|done]. intros [= _ <-].
    apply appends_plain_one. by eapply operations_plain.
Qed.

Lemma tokenize_plain fuel : ∀ line tokens_ tokens',
  tokenize fuel line tokens_ = Done tokens' → appends_plain tokens_ tokens'.
Proof.
  induction fuel as [|fuel IH]; intros line tokens_ tokens'; simpl; [done|].
  destruct (get_char line c_init) as [[[] c] s].
  2:{ intros [= <-]. apply appends_plain_refl. }
  case_bool_decide; [by apply IH|].
  destruct (_ || _) eqn:Hq.
  { destruct (ReadString _ _) as [s' t'] eqn:HR. intros Ht.
    eapply appends_plain_trans; [by eapply ReadString_plain|by eapply IH]. }
  destruct (count operations_char_ c).
  { destruct (ReadOperation _ _) as [[s' t']| |] eqn:HR; [|done..]. intros Ht.
    eapply appends_plain_trans; [by eapply ReadOperation_plain|by eapply IH]. }
  destruct (count chars_ c).
  { destruct (ReadChar _ _) as [[s' t']| |] eqn:HR; [|done..]. intros Ht.
    eapply appends_plain_trans; [by eapply ReadChar_plain|by eapply IH]. }
  destruct (is_number c).
  { destruct (ReadNumber _ _) as [[s' t']| |] eqn:HR; [|done..]. intros Ht.
    eapply appends_plain_trans; [by eapply ReadNumber_plain|by eapply IH]. }
  destruct (ReadId _ _) as [s' t'] eqn:HR. intros Ht.
  eapply appends_plain_trans; [by eapply ReadId_plain|by eapply IH].
Qed.

Lemma balanced_appends_plain l l' n :
  appends_plain l l' → balanced l n → balanced l' n.
Proof.
  intros (added & -> & Hadded) [Hb He].
  destruct (tally_plain _ Hadded) as (Hi & Hd & Hf).
  unfold balanced. rewrite !tally_app. lia.
Qed.

Lemma ReadIndents_balanced input old_indent tokens_ input' indent' tokens' :
  ReadIndents input old_indent tokens_ = (input', indent', tokens') →
  balanced tokens_ old_indent → balanced tokens' indent'.
Proof.
  unfold ReadIndents, balanced.
  destruct (ReadIndents_loop _ _ _) as [s|s indent].
  { by intros [= _ <- <-]. }
  repeat case_bool_decide; intros [= _ <- <-] [Hb He]; rewrite ?tally_app;
    rewrite ?(tally_replicate_same is_Indent), ?(tally_replicate_other is_Dedent),
      ?(tally_replicate_other is_Eof), ?(tally_replicate_same is_Dedent),
      ?(tally_replicate_other is_Indent) by done; lia.
Qed.

Lemma Lexer_line_balanced temp_string tokens_ indent_count tokens' indent' :
  Lexer_line temp_string tokens_ indent_count = Done (tokens', indent') →
  balanced tokens_ indent_count → balanced tokens' indent'.
Proof.
  unfold Lexer_line. destruct temp_string as [|c0 rest]; [by intros [= <- <-]|].
  case_bool_decide; [by intros [= <- <-]|].
  destruct (ReadIndents _ _ _) as [[line n] toks] eqn:HR.
  destruct (tokenize _ _ _) as [toks'| |] eqn:HT; [|done..].
  intros [= <- <-] Hb.
  apply ReadIndents_balanced in HR; [|done].
  apply tokenize_plain in HT.
  pose proof (balanced_appends_plain _ _ _ HT HR) as Hb'.
  destruct toks' as [|t toks']; [done|].
  eapply balanced_appends_plain; [|done]. by apply appends_plain_one.
Qed.

Lemma Lexer_lines_balanced lines : ∀ tokens_ indent_count tokens' indent',
  Lexer_lines lines tokens_ indent_count = Done (tokens', indent') →
  balanced tokens_ indent_count → balanced tokens' indent'.
Proof.
  induction lines as [|l lines IH]; intros tokens_ n tokens' n'; simpl.
  { by intros [= <- <-]. }
  destruct (Lexer_line _ _ _) as [[toks m]| |] eqn:HL; [|done..].
  intros HR Hb. eapply IH; [done|]. by eapply Lexer_line_balanced.
Qed.

(** *** The fuel of [tokenize] is never used up *)

Local Arguments good cs /.
Local Arguments set_fail s /.
Local Arguments readable s /.
Local Arguments putback c s /.
Local Arguments peek s /.

Lemma ReadString_loop_length cs : ∀ quote result,
  List.length (readable (ReadString_loop cs quote result).2) ≤ List.length cs.
Proof.
  induction cs as [cs IH] using (induction_ltof1 _ (@List.length ascii)).
  unfold ltof in IH. intros quote result.
  destruct cs as [|c rest]; simpl; [lia|].
  case_bool_decide.
  - destruct rest as [|e rest']; simpl; [lia|].
    repeat case_bool_decide;
      match goal with
      | |- context [ReadString_loop ?l ?q ?r] =>
          pose proof (IH l ltac:(simpl; lia) q r); simpl in *; lia
      end.
  - case_bool_decide; [cbn; lia|].
    match goal with
    | |- context [ReadString_loop ?l ?q ?r] =>
        pose proof (IH l ltac:(simpl; lia) q r); simpl in *; lia
    end.
Qed.

Lemma ReadNumber_loop_length cs : ∀ number,
  List.length (readable (ReadNumber_loop cs number).2) ≤ List.length cs.
Proof.
  induction cs as [|c cs IH]; intros number; simpl; [lia|].
  destruct (is_number c); simpl; [etrans; [apply IH|lia]|lia].
Qed.

Lemma ReadId_loop_length cs : ∀ id,
  List.length (readable (ReadId_loop cs id).2) ≤ List.length cs.
Proof.
  induction cs as [|c cs IH]; intros id; simpl; [lia|].
  case_bool_decide; simpl; [lia|].
  destruct (_ || _); simpl; [lia|etrans; [apply IH|lia]].
Qed.

Lemma is_number_not_minus c : is_number c = true → c ≠ "-"%char.
Proof.
  unfold is_number. intros Hc ->. by vm_compute in Hc.
Qed.

Lemma tokenize_fuel fuel : ∀ line tokens_,
  List.length (readable line) < fuel → tokenize fuel line tokens_ ≠ NoFuel.
Proof.
  induction fuel as [|fuel IH]; intros line tokens_ Hlen; [lia|]. simpl.
  unfold get_char at 1. destruct (readable line) as [|c rest] eqn:Hline; [done|].
  simpl in Hlen.
  case_bool_decide as Hsp; [apply IH; simpl in *; lia|].
  unfold putback. simpl.
  destruct (_ || _) eqn:Hq.
  { unfold ReadString, get_char. simpl.
    pose proof (ReadString_loop_length rest
      (if bool_decide (c = "'"%char) then "'"%char else dquote) "") as Hl.
    destruct (ReadString_loop _ _ _) as [r s']. simpl in Hl. apply IH; simpl in *; lia. }
  destruct (count operations_char_ c) eqn:Hop.
  { unfold ReadOperation, get_char. simpl.
    destruct (if _ : bool then _ else _) as [operation s'] eqn:Hif.
    assert (List.length (readable s') ≤ List.length rest) as Hl.
    { destruct (_ || _) in Hif; [|by injection Hif as <- <-].
      case_bool_decide as Hpk; [|by injection Hif as <- <-].
      unfold peek in Hpk. simpl in Hpk.
      destruct rest as [|c2 rest]; [done|]. simpl in Hif.
      injection Hif as <- <-. simpl. lia. }
    match goal with
    | |- context [match ?o with Some _ => _ | None => Throw _ end] =>
        destruct o as [t|]; [|done]
    end.
    apply IH; simpl in *; lia. }
  destruct (count chars_ c) eqn:Hch.
  { unfold ReadChar, get_char. simpl.
    destruct (at_ chars_ c) as [t|]; [|done]. apply IH. simpl. lia. }
  destruct (is_number c) eqn:Hnum.
  { unfold ReadNumber, get_char. simpl.
    rewrite bool_decide_eq_false_2 by by apply is_number_not_minus.
    unfold putback. simpl. rewrite Hnum.
    pose proof (ReadNumber_loop_length rest (push_back "" c)) as Hl.
    destruct (ReadNumber_loop _ _) as [number s']. simpl in Hl.
    destruct (stoi number) as [v| |] eqn:Hs; [apply IH; simpl in *; lia|done|].
    unfold stoi in Hs. destruct number; [done|]. by destruct (_ <=? _)%Z. }
  unfold ReadId. simpl.
  destruct (bool_decide (c = "#"%char)) eqn:Hhash; simpl.
  { apply IH; simpl in *; lia. }
  rewrite (bool_decide_eq_false_2 _ Hsp), Hch, Hop. simpl.
  pose proof (ReadId_loop_length rest (push_back "" c)) as Hl.
  destruct (ReadId_loop _ _) as [[hash id] s']. simpl in Hl.
  destruct hash; [destruct (bool_decide (_ = "")); apply IH; simpl in *; lia|].
  destruct (at_ keywords_ id); apply IH; simpl in *; lia.
Qed.

Lemma ReadIndents_loop_length cs : ∀ c indent,
  match ReadIndents_loop cs c indent with
  | Returned s | Broke s _ => List.length (readable s) ≤ List.length cs
  end.
Proof.
  induction cs as [cs IH] using (induction_ltof1 _ (@List.length ascii)).
  unfold ltof in IH. intros c indent.
  destruct cs as [|c1 rest]; simpl; [case_bool_decide; simpl; lia|].
  case_bool_decide; [|simpl; lia].
  destruct rest as [|c2 rest']; simpl; [lia|].
  case_bool_decide; [|simpl; lia].
  specialize (IH rest' ltac:(simpl; lia) c1 (S indent)).
  destruct (ReadIndents_loop _ _ _); simpl in *; lia.
Qed.

Lemma Lexer_line_fuel temp_string tokens_ indent_count :
  Lexer_line temp_string tokens_ indent_count ≠ NoFuel.
Proof.
  unfold Lexer_line. destruct temp_string as [|c0 rest] eqn:Hts; [done|].
  case_bool_decide; [done|]. rewrite <- Hts. clear Hts.
  assert (∀ s toks, List.length (readable s) ≤ List.length temp_string →
    tokenize (S (List.length temp_string)) s toks ≠ NoFuel) as Hfuel.
  { intros s toks Hs. apply tokenize_fuel. lia. }
  generalize dependent (S (List.length temp_string)). intros fuel Hfuel.
  unfold ReadIndents.
  pose proof (ReadIndents_loop_length (readable (good temp_string)) c_init 0) as Hl.
  destruct (ReadIndents_loop _ _ _) as [s|s indent].
  - specialize (Hfuel s tokens_ Hl). by destruct (tokenize _ _ _).
  - repeat case_bool_decide;
      match goal with
      | |- context [tokenize fuel ?l ?t] =>
          specialize (Hfuel l t Hl); by destruct (tokenize fuel l t)
      end.
Qed.

Lemma Lexer_lines_fuel lines : ∀ tokens_ indent_count,
  Lexer_lines lines tokens_ indent_count ≠ NoFuel.
Proof.
  induction lines as [|l lines IH]; intros tokens_ n; simpl; [done|].
  pose proof (Lexer_line_fuel l tokens_ n) as Hl.
  destruct (Lexer_line _ _ _) as [[toks m]| |]; [apply IH|done..].
Qed.

Lemma Lexer_fuel input : Lexer input ≠ NoFuel.
Proof.
  unfold Lexer.
  pose proof (Lexer_lines_fuel (getlines (list_ascii_of_string input)) [] 0) as Hf.
  by destruct (Lexer_lines _ _ _) as [[toks n]| |].
Qed.

(** *** The constructor fails on a number above [INT_MAX] only *)

Lemma count_at {K V} `{EqDecision K} (table : list (K * V)) k :
  count table k = true → ∃ v, at_ table k = Some v.
Proof. unfold count. by intros [v Hv]%bool_decide_eq_true_1; eauto. Qed.

Lemma ReadChar_Done c rest tokens_ :
  count chars_ c = true →
  ∃ r, ReadChar (good (c :: rest)) tokens_ = Done r.
Proof.
  intros [t Ht]%count_at. unfold ReadChar, get_char. simpl. rewrite Ht. eauto.
Qed.

Lemma ReadOperation_Done c rest tokens_ :
  count operations_char_ c = true →
  ∃ r, ReadOperation (good (c :: rest)) tokens_ = Done r.
Proof.
  intros [t Ht]%count_at. unfold ReadOperation, get_char. simpl.
  destruct (_ || _) eqn:Hc; [|simpl; rewrite Ht; eauto].
  destruct (bool_decide (head rest = Some "="%char)) eqn:Hpeek;
    [|simpl; rewrite Ht; eauto].
  apply bool_decide_eq_true_1 in Hpeek.
  destruct rest as [|c2 rest]; [done|]. injection Hpeek as ->. simpl.
  repeat (apply orb_prop in Hc as [Hc|Hc]);
    apply bool_decide_eq_true_1 in Hc; subst c; simpl; eauto.
Qed.

Lemma push_back_nonempty number c : push_back number c ≠ "".
Proof. by destruct number. Qed.

Lemma ReadNumber_loop_nonempty cs : ∀ number,
  number ≠ "" → (ReadNumber_loop cs number).1 ≠ "".
Proof.
  induction cs as [|c cs IH]; intros number Hn; simpl; [done|].
  destruct (is_number c); [|done]. apply IH, push_back_nonempty.
Qed.

Lemma ReadNumber_Throw c rest tokens_ e :
  is_number c = true →
  ReadNumber (good (c :: rest)) tokens_ = Throw e → e = out_of_range "stoi".
Proof.
  intros Hc. unfold ReadNumber, get_char. simpl.
  rewrite bool_decide_eq_false_2 by by apply is_number_not_minus.
  simpl. rewrite Hc.
  pose proof (ReadNumber_loop_nonempty rest (push_back "" c)
                (push_back_nonempty _ _)) as Hn.
  destruct (ReadNumber_loop _ _) as [number s']. simpl in Hn.
  unfold stoi. destruct number; [done|].
  destruct (_ <=? _)%Z; [done|]. by intros [= <-].
Qed.

Lemma tokenize_Throw fuel : ∀ line tokens_ e,
  tokenize fuel line tokens_ = Throw e → e = out_of_range "stoi".
Proof.
  induction fuel as [|fuel IH]; intros line tokens_ e; simpl; [done|].
  unfold get_char at 1. destruct (readable line) as [|c rest]; [done|].
  case_bool_decide as Hsp; [apply IH|].
  simpl. change {| chars := c :: rest; failed := false |} with (good (c :: rest)).
  destruct (_ || _).
  { destruct (ReadString _ _). apply IH. }
  destruct (count operations_char_ c) eqn:Hop.
  { destruct (ReadOperation_Done c rest tokens_ Hop) as [[l t] ->]. apply IH. }
  destruct (count chars_ c) eqn:Hch.
  { destruct (ReadChar_Done c rest tokens_ Hch) as [[l t] ->]. apply IH. }
  destruct (is_number c) eqn:Hnum.
  { destruct (ReadNumber _ _) as [[l t]|e'|] eqn:HR; [apply IH| |done].
    intros [= <-]. by eapply ReadNumber_Throw. }
  destruct (ReadId _ _). apply IH.
Qed.

Lemma Lexer_lines_Throw lines : ∀ tokens_ indent_count e,
  Lexer_lines lines tokens_ indent_count = Throw e → e = out_of_range "stoi".
Proof.
  induction lines as [|l lines IH]; intros tokens_ n e; simpl; [done|].
  destruct (Lexer_line _ _ _) as [[toks m]|e'|] eqn:HL; [apply IH| |done].
  intros [= <-]. unfold Lexer_line in HL.
  destruct l as [|c0 rest]; [done|]. case_bool_decide; [done|].
  destruct (ReadIndents _ _ _) as [[line k] toks].
  destruct (tokenize _ _ _) as [toks'|e''|] eqn:HT; [done| |done].
  injection HL as <-. by eapply tokenize_Throw.
Qed.

(** The constructor returns for every input, except that a number above
    [INT_MAX] makes [std::stoi] throw. *)
Lemma Lexer_Done_or_overflow input :
  (∃ tokens_, Lexer input = Done tokens_)
  ∨ Lexer input = Throw (out_of_range "stoi").
Proof.
  pose proof (Lexer_fuel input) as Hf. unfold Lexer in *.
  destruct (Lexer_lines _ _ _) as [[toks n]|e|] eqn:HL; [eauto| |done].
  right. f_equal. by eapply Lexer_lines_Throw.
Qed.

(** *** The token vector of [Lexer] *)

(** C8: the token vector the constructor builds ends with [Eof], holds no
    other [Eof], and holds as many [Dedent] as [Indent] tokens. *)
Theorem Lexer_Eof_and_balance (input : string) (tokens_ : list Token) :
  Lexer input = Done tokens_ →
  (∃ body, tokens_ = body ++ [token_type.Eof] ∧ tally is_Eof body = 0)
  ∧ tally is_Dedent tokens_ = tally is_Indent tokens_.
Proof.
  unfold Lexer.
  destruct (Lexer_lines _ _ _) as [[toks n]| |] eqn:HL; [|done..].
  intros [= <-].
  apply Lexer_lines_balanced in HL as [Hb He]; [|done].
  split.
  - exists (toks ++ replicate n token_type.Dedent). split; [by rewrite app_assoc|].
    rewrite tally_app, tally_replicate_other by done. lia.
  - rewrite !tally_app.
    rewrite tally_replicate_same, tally_replicate_other by done.
    change (tally is_Dedent [token_type.Eof]) with 0.
    change (tally is_Indent [token_type.Eof]) with 0. lia.
Qed.

Lemma Lexer_Eof_and_balance_witness :
  Lexer "if x:
  y = 1" =
  Done [token_type.If; token_type.Id "x"; token_type.Char ":"; token_type.Newline;
        token_type.Indent; token_type.Id "y"; token_type.Char "=";
        token_type.Number 1; token_type.Newline; token_type.Dedent;
        token_type.Eof]
  ∧ (∃ body,
       [token_type.If; token_type.Id "x"; token_type.Char ":"; token_type.Newline;
        token_type.Indent; token_type.Id "y"; token_type.Char "=";
        token_type.Number 1; token_type.Newline; token_type.Dedent;
        token_type.Eof] = body ++ [token_type.Eof] ∧ tally is_Eof body = 0)
  ∧ tally is_Dedent
      [token_type.If; token_type.Id "x"; token_type.Char ":"; token_type.Newline;
       token_type.Indent; token_type.Id "y"; token_type.Char "=";
       token_type.Number 1; token_type.Newline; token_type.Dedent;
       token_type.Eof]
    = tally is_Indent
      [token_type.If; token_type.Id "x"; token_type.Char ":"; token_type.Newline;
       token_type.Indent; token_type.Id "y"; token_type.Char "=";
       token_type.Number 1; token_type.Newline; token_type.Dedent;
       token_type.Eof].
Proof.
  split; [vm_compute; reflexivity|].
  apply (Lexer_Eof_and_balance "if x:
  y = 1"). vm_compute. reflexivity.
Defined.

(** *** Lines that start with an odd number of spaces *)

Lemma ReadIndents_loop_odd k : ∀ c rest c0 indent,
  c ≠ " "%char →
  ReadIndents_loop (replicate (2 * k + 1) " "%char ++ c :: rest) c0 indent
  = Returned (good (c :: rest)).
Proof.
  induction k as [|k IH]; intros c rest c0 indent Hc; simpl.
  - by rewrite bool_decide_eq_false_2.
  - replace (k + S (k + 0) + 1) with (S (2 * k + 1)) by lia. simpl.
    by apply IH.
Qed.

(** C6 (the code departs from the claim): on a line that starts with an odd
    number of spaces followed by another character, [ReadIndents] consumes
    the spaces and returns at once: it pushes no [Indent] or [Dedent] token
    and leaves the indentation counter as it was. *)
Theorem ReadIndents_odd_spaces (k : nat) (c : ascii) (rest : list ascii)
  (old_indent : nat) (tokens_ : list Token) :
  c ≠ " "%char →
  ReadIndents (good (replicate (2 * k + 1) " "%char ++ c :: rest)) old_indent tokens_
  = (good (c :: rest), old_indent, tokens_).
Proof.
  intros Hc. unfold ReadIndents.
  change (readable (good ?cs)) with cs. by rewrite ReadIndents_loop_odd.
Qed.

Lemma ReadIndents_odd_spaces_witness :
  "x"%char ≠ " "%char
  ∧ ReadIndents (good (replicate (2 * 1 + 1) " "%char ++ ["x"%char])) 0 []
    = (good ["x"%char], 0, []).
Proof.
  split; [done|]. by apply (ReadIndents_odd_spaces 1 "x" [] 0 []).
Defined.

(** The same through the whole lexer: the body of the [if], indented by
    three spaces, gets no [Indent]. *)
Example Lexer_three_spaces :
  Lexer "if a:
   b" =
  Done [token_type.If; token_type.Id "a"; token_type.Char ":"; token_type.Newline;
        token_type.Id "b"; token_type.Newline; token_type.Eof].
Proof. vm_compute. reflexivity. Qed.

(** *** Lines of spaces *)

Lemma ReadIndents_loop_spaces k : ∀ c0 indent,
  (k = 0 → c0 = " "%char) →
  ∃ s, ReadIndents_loop (replicate k " "%char) c0 indent = Returned s
       ∧ readable s = [].
Proof.
  induction k as [k IH] using lt_wf_ind. intros c0 indent Hc0.
  destruct k as [|[|k]]; simpl.
  - rewrite bool_decide_eq_true_2 by auto. eauto.
  - eauto.
  - apply IH; [lia|done].
Qed.

(** C7 (the code departs from the claim): a line of spaces only pushes a
    [Newline] as soon as the token vector holds a token of an earlier
    line. *)
Theorem spaces_line_pushes_Newline (k : nat) (tokens_ : list Token)
  (indent_count : nat) :
  0 < k → tokens_ ≠ [] →
  Lexer_line (replicate k " "%char) tokens_ indent_count
  = Done (tokens_ ++ [token_type.Newline], indent_count).
Proof.
  intros Hk Htokens. unfold Lexer_line.
  destruct k as [|k]; [lia|]. cbn [replicate].
  rewrite bool_decide_eq_false_2 by done.
  change (" "%char :: replicate k " "%char) with (replicate (S k) " "%char).
  unfold ReadIndents. cbn [readable good failed chars].
  destruct (ReadIndents_loop_spaces (S k) c_init 0 ltac:(done)) as (s & -> & Hs).
  cbn [tokenize]. unfold get_char. rewrite Hs.
  by destruct tokens_.
Qed.

Lemma spaces_line_pushes_Newline_witness :
  0 < 2 ∧ [token_type.Id "x"; token_type.Newline] ≠ []
  ∧ Lexer_line (replicate 2 " "%char) [token_type.Id "x"; token_type.Newline] 0
    = Done ([token_type.Id "x"; token_type.Newline] ++ [token_type.Newline], 0).
Proof.
  split; [lia|]. split; [done|].
  apply (spaces_line_pushes_Newline 2 [token_type.Id "x"; token_type.Newline] 0);
    [lia|done].
Defined.

(** The same through the whole lexer: two [Newline] tokens in a row. *)
Example Lexer_spaces_line :
  Lexer (String.String "x"%char (String.String (ascii_of_nat 10) "  ")) =
  Done [token_type.Id "x"; token_type.Newline; token_type.Newline; token_type.Eof].
Proof. vm_compute. reflexivity. Qed.

End LexerFacts.

(** ** Facts about the evaluator *)

Module EvalFacts.
Import runtime ast props samples.

(** Unfolding one bind. *)
Lemma bind_Returns {A B} (m : M A) (f : A → M B) s a s' :
  m s = Returns a s' → (m ≫= f) s = f a s'.
Proof. unfold mbind, M_bind. by intros ->. Qed.

Lemma bind_Throws {A B} (m : M A) (f : A → M B) s what s' :
  m s = Throws what s' → (m ≫= f) s = Throws what s'.
Proof. unfold mbind, M_bind. by intros ->. Qed.

(** *** Return and MethodBody *)

(** No exception leaves a [MethodBody]: whatever its body throws comes
    back as a [String] holding the message. *)
Lemma MethodBody_catches fuel body s what s' :
  Execute fuel body s = Throws what s' →
  Execute (S fuel) (MethodBody body) s
  = Returns (HString (brk s') (c_str what)) (set_brk (brk s' + 1) s').
Proof.
  intros H. simpl. unfold MethodBody_Execute, try_catch.
  by rewrite (bind_Throws _ _ _ _ _ H).
Qed.

(** A [MethodBody] returns the empty holder or a [String], whatever the
    body returns. *)
Lemma MethodBody_result fuel body s v s' :
  Execute fuel (MethodBody body) s = Returns v s' →
  v = HNone ∨ ∃ p text, v = HString p text.
Proof.
  destruct fuel as [|fuel]; [done|]. simpl.
  unfold MethodBody_Execute, try_catch, mbind, M_bind.
  destruct (Execute fuel body s) as [a s1|what s1| |]; try done.
  - intros [= <- _]. by left.
  - intros [= <- _]. right. eauto.
Qed.

(** What a method returns through [Return]: the printed form of the value,
    in a new [String]. *)
Lemma MethodBody_Return_prints fuel statement_ s v s1 text s2 :
  Execute fuel statement_ s = Returns v s1 →
  to_bool v = true →
  Object_Print fuel v s1 = Returns text s2 →
  Execute (S (S fuel)) (MethodBody (Return statement_)) s
  = Returns (HString (brk s2) (c_str text)) (set_brk (brk s2 + 1) s2).
Proof.
  intros He Hv Hp. apply MethodBody_catches.
  cbn [Execute Statement_Execute]. unfold Return_Execute.
  rewrite (bind_Returns _ _ _ _ _ He).
  destruct v; try done; by rewrite (bind_Returns _ _ _ _ _ Hp).
Qed.

(** [Return] never returns: it throws the printed form of its value, or
    runs into the null pointer when the value is the empty holder. *)
Lemma Return_never_returns fuel statement_ s v s' :
  Execute fuel (Return statement_) s ≠ Returns v s'.
Proof.
  destruct fuel as [|fuel]; [done|]. simpl.
  unfold Return_Execute, mbind, M_bind.
  destruct (Execute fuel statement_ s) as [[] s1|what s1| |]; try done;
    by destruct (Object_Print fuel _ s1).
Qed.

(** C1 (the code departs from the claim): a method whose body is
    [return b] for a [Bool] [b], directly or inside an [IfElse] of a
    [Compound], does not yield the [Bool]; [Return] throws the printed form
    of [b] and [MethodBody] hands back a [String] holding that text. *)
Theorem Return_Bool_yields_String (p q : addr) (b : bool) (s : State) :
  Execute 3 (MethodBody (Return (BoolConst p b))) s
  = Returns (HString (brk s) (if b then "True" else "False"))
      (set_brk (brk s + 1) s)
  ∧ Execute 5
      (MethodBody
         (Compound [IfElse (BoolConst q true) (Return (BoolConst p b)) None]))
      s
    = Returns (HString (brk s) (if b then "True" else "False"))
        (set_brk (brk s + 1) s).
Proof. split; by destruct b. Qed.

(** The same for a number, with [Number::Print] as the specification has
    it. *)
Example Return_number_yields_String (p : addr) (n : Z) (s : State) :
  Execute 3 (MethodBody (Return (NumericConst p n))) s
  = Returns (HString (brk s) (c_str (Number_Print n))) (set_brk (brk s + 1) s).
Proof. reflexivity. Qed.

(** C2 (the code departs from the claim): a [MethodBody] whose body divides
    by zero does not raise the error; it returns the [String]
    ["Div by 0"]. *)
Theorem MethodBody_Div_by_zero_returns (p q : addr) (n : Z) (s : State) :
  Execute 3 (MethodBody (Div (NumericConst p n) (NumericConst q 0))) s
  = Returns (HString (brk s) "Div by 0") (set_brk (brk s + 1) s).
Proof. reflexivity. Qed.

(** *** NewInstance *)

(** C3 (the code departs from the claim): every execution of a
    [NewInstance] node that returns hands back a holder of the one instance
    stored in the node, so two executions of the node return the same
    instance. *)
Theorem NewInstance_returns_its_member (fuel : nat) (instance : addr)
  (args_ : list Statement) (s : State) (v : ObjectHolder) (s' : State) :
  Execute fuel (NewInstance instance args_) s = Returns v s' →
  v = HInstance instance.
Proof.
  destruct fuel as [|fuel]; [done|]. simpl.
  unfold NewInstance_Execute, mbind, M_bind.
  destruct (mapM (Execute fuel) args_ s) as [args s1| | |]; try done.
  destruct (HasMethod _ _ _ s1) as [[] s2| | |]; try done.
  - destruct (Call _ _ _ _ s2) as [r s3| | |]; try done.
    by intros [= <- _].
  - by intros [= <- _].
Qed.

(** *** Stringify *)



(** [Stringify] of a node that returns a new object in the one holder
    that owns it reads the object after the holder is gone: [str(1 + 2)]
    and the like dereference a dangling pointer. *)
Lemma Stringify_of_new_object fuel argument_ s v s1 :
  Execute fuel argument_ s = Returns v s1 →
  owns_new_object argument_ = true →
  made_by_Own v = true →
  Execute (S fuel) (Stringify argument_) s = Undefined.
Proof.
  intros Harg Hown Hv. simpl. unfold Stringify_Execute.
  rewrite (bind_Returns _ _ _ _ _ Harg). by rewrite Hown, Hv.
Qed.

Example Stringify_of_a_sum (p q : addr) (s : State) :
  Execute 3 (Stringify (Add (NumericConst p 1) (NumericConst q 2))) s = Undefined.
Proof. reflexivity. Qed.

(** *** The comparators *)

(** A comparison whose left operand is not a class instance calls no
    method and leaves the state as it is. *)
Lemma Less_pure Execute_ lhs rhs s l s1 :
  (∀ p, lhs ≠ HInstance p) →
  Less Execute_ lhs rhs s = Returns l s1 → s1 = s.
Proof.
  intros Hlhs. destruct lhs, rhs; simpl; try done;
    try (by intros [= _ <-]); by destruct (Hlhs p).
Qed.

Lemma Equal_pure Execute_ lhs rhs s e s1 :
  (∀ p, lhs ≠ HInstance p) →
  Equal Execute_ lhs rhs s = Returns e s1 → s1 = s.
Proof.
  intros Hlhs. destruct lhs, rhs; simpl; try done;
    try (by intros [= _ <-]); try (by destruct (Hlhs p));
    case_bool_decide; try done; by intros [= _ <-].
Qed.

(** C9, as amended: where [Less] returns, and [Equal] returns in the
    starting state and in the state [Less] left, the derived comparators
    return [NotEqual = ¬Equal] and [GreaterOrEqual = ¬Less], and
    [Greater = ¬Less ∧ ¬Equal'] and [LessOrEqual = Less ∨ Equal'], where
    [Equal'] is what [Equal] returns in the state [Less] left: [Greater]
    and [LessOrEqual] call [Equal] after [Less], and only when [Less] was
    false; when the left operand is not a class instance no state changes
    and [Equal'] is [Equal]. *)
Theorem derived_comparators (fuel : nat) (lhs rhs : ObjectHolder)
  (s s1 s2 s3 : State) (l e e1 : bool) :
  Less (Execute fuel) lhs rhs s = Returns l s1 →
  Equal (Execute fuel) lhs rhs s = Returns e s2 →
  Equal (Execute fuel) lhs rhs s1 = Returns e1 s3 →
  NotEqual (Execute fuel) lhs rhs s = Returns (negb e) s2
  ∧ Greater (Execute fuel) lhs rhs s
    = Returns (negb l && negb e1) (if l then s1 else s3)
  ∧ LessOrEqual (Execute fuel) lhs rhs s
    = Returns (l || e1) (if l then s1 else s3)
  ∧ GreaterOrEqual (Execute fuel) lhs rhs s = Returns (negb l) s1
  ∧ ((∀ p, lhs ≠ HInstance p) → s1 = s ∧ s2 = s ∧ s3 = s ∧ e1 = e).
Proof.
  intros HL HE HE1. repeat split.
  - unfold NotEqual. by rewrite (bind_Returns _ _ _ _ _ HE).
  - unfold Greater, try_catch. rewrite (bind_Returns _ _ _ _ _ HL).
    destruct l; simpl; [done|]. by rewrite (bind_Returns _ _ _ _ _ HE1).
  - unfold LessOrEqual. rewrite (bind_Returns _ _ _ _ _ HL).
    destruct l; simpl; [done|]. rewrite HE1. by destruct e1.
  - unfold GreaterOrEqual. rewrite (bind_Returns _ _ _ _ _ HL). by destruct l.
  - by eapply Less_pure.
  - by eapply Equal_pure.
  - eapply Less_pure in HL; [|done]. subst s1. by eapply Equal_pure.
  - eapply Less_pure in HL; [|done]. subst s1. congruence.
Qed.

(** *** Printing a class instance *)

(** C10: printing the instance at [this], whose class (or an ancestor) has
    a method [__str__], runs the body of that method against the field
    store of the instance itself, whatever the number of its formal
    parameters (while [Call] refuses a wrong number of arguments); a name
    read in that closure is a field of the instance, and an assignment in
    it is a write to the fields of the instance. *)
Theorem Print_runs_str_on_fields (fuel : nat) (this : addr) (inst : ClassInstance)
  (ptr : Method) (s : State) :
  heap s !! this = Some inst →
  GetMethod (class_ inst) "__str__" = Some ptr →
  Object_Print (S fuel) (HInstance this) s
  = match Execute fuel (Method_body ptr) (set_closure (FieldsOf this) s) with
    | Returns HNone _ => Undefined
    | Returns result s' => Object_Print fuel result (set_closure (closure s) s')
    | Throws what s' => Throws what (set_closure (closure s) s')
    | Undefined => Undefined
    | Timeout => Timeout
    end
  ∧ (Method_formal_params ptr ≠ [] →
     Call (Execute fuel) this "__str__" [] s = Throws "Not implemented" s)
  ∧ (∀ name v, fields_ inst !! name = Some v →
     Execute (S fuel) (VariableValue [name]) (set_closure (FieldsOf this) s)
     = Returns v (set_closure (FieldsOf this) s))
  ∧ (∀ name rv v s' inst',
     Execute fuel rv (set_closure (FieldsOf this) s) = Returns v s' →
     closure s' = FieldsOf this →
     heap s' !! this = Some inst' →
     Execute (S fuel) (Assignment name rv) (set_closure (FieldsOf this) s)
     = Returns v
         (set_heap (<[this := {| class_ := class_ inst';
                                 fields_ := <[name := v]> (fields_ inst') |}]>
                      (heap s')) s')).
Proof.
  intros Hthis Hstr. repeat split.
  - simpl. unfold ClassInstance_Print, instance_at, mbind, M_bind, with_closure.
    rewrite Hthis, Hstr.
    destruct (Execute fuel (Method_body ptr) (set_closure (FieldsOf this) s))
      as [[] s'|what s'| |]; done.
  - intros Hparams. unfold Call, instance_at, mbind, M_bind.
    rewrite Hthis, Hstr. case_bool_decide as Hlen; [|done].
    destruct (Method_formal_params ptr); done.
  - intros name v Hname. simpl.
    unfold VariableValue_Execute, try_catch, closure_at, closure_map, mbind, M_bind.
    simpl. by rewrite Hthis, Hname.
  - intros name rv v s' inst' Hrv Hcl Hinst. simpl.
    unfold Assignment_Execute. rewrite (bind_Returns _ _ _ _ _ Hrv).
    unfold closure_set, Fields_set, mbind, M_bind. by rewrite Hcl, Hinst.
Qed.

(** *** The binding of [self] *)

Lemma pres_ret {A} b (a : A) : pres b (mret a).
Proof. by intros s Hs. Qed.

Lemma pres_throw {A} b what : pres b (throw what : M A).
Proof. by intros s Hs. Qed.

Lemma pres_undefined {A} b : pres b (undefined : M A).
Proof. by intros s Hs. Qed.

Lemma pres_timeout {A} b : pres b (timeout : M A).
Proof. by intros s Hs. Qed.

Lemma pres_bind {A B} b (m : M A) (f : A → M B) :
  pres b m → (∀ a, pres b (f a)) → pres b (m ≫= f).
Proof.
  intros Hm Hf s Hs. specialize (Hm s Hs). unfold mbind, M_bind.
  destruct (m s) as [a s'|what s'| |]; try done. by apply Hf.
Qed.

Lemma pres_try_catch {A} b (m : M A) handler :
  pres b m → (∀ what, pres b (handler what)) → pres b (try_catch m handler).
Proof.
  intros Hm Hh s Hs. specialize (Hm s Hs). unfold try_catch.
  destruct (m s) as [a s'|what s'| |]; try done. by apply Hh.
Qed.

Lemma pres_with_closure {A} b c (m : M A) :
  pres (on_fields c) m → pres b (with_closure c m).
Proof.
  intros Hm s [Hself Hmeth Hcl]. unfold with_closure.
  specialize (Hm (set_closure c s) ltac:(by split)).
  destruct (m (set_closure c s)) as [a s'|what s'| |]; try done;
    destruct Hm as [Hself' Hmeth' _]; by split.
Qed.

(** An instance read from the heap has methods that are in order. *)
Lemma pres_instance_at {B} b p (f : ClassInstance → M B) :
  (∀ inst, methods_ok (class_ inst) → pres b (f inst)) →
  pres b (instance_at p ≫= f).
Proof.
  intros Hf s Hs. unfold mbind, M_bind, instance_at.
  destruct (heap s !! p) as [inst|] eqn:Hp; [|done].
  apply Hf; [|done]. by eapply inv_methods.
Qed.

Lemma pres_closure_map b : pres b closure_map.
Proof.
  intros s Hs. unfold closure_map.
  destruct (closure s); [done|]. by destruct (heap s !! p).
Qed.

Lemma pres_Fields_set b p name value :
  name ≠ "self" → pres b (Fields_set p name value).
Proof.
  intros Hname s [Hself Hmeth Hcl]. unfold Fields_set.
  destruct (heap s !! p) as [inst|] eqn:Hp; [|done].
  split; simpl; [| |done].
  - intros q inst' Hq. destruct (decide (p = q)) as [<-|Hne].
    + rewrite lookup_insert_eq in Hq. injection Hq as <-. simpl.
      rewrite lookup_insert_ne by done. by apply Hself.
    + rewrite lookup_insert_ne in Hq by done. by apply Hself.
  - intros q inst' Hq. destruct (decide (p = q)) as [<-|Hne].
    + rewrite lookup_insert_eq in Hq. injection Hq as <-. simpl.
      by eapply Hmeth.
    + rewrite lookup_insert_ne in Hq by done. by eapply Hmeth.
Qed.

Lemma pres_closure_set b name value :
  (b = true → name ≠ "self") → pres b (closure_set name value).
Proof.
  intros Hname s Hs. unfold closure_set.
  destruct (closure s) as [c|p] eqn:Hc.
  - destruct Hs as [Hself Hmeth Hcl]. rewrite Hc in Hcl. by split.
  - apply pres_Fields_set; [|done]. apply Hname.
    destruct Hs as [_ _ Hcl]. by rewrite Hc in Hcl.
Qed.

Lemma pres_write b text : pres b (write text).
Proof. intros s [Hself Hmeth Hcl]. by split. Qed.

Lemma pres_Own_Number b value : pres b (Own_Number value).
Proof. intros s [Hself Hmeth Hcl]. by split. Qed.

Lemma pres_Own_String b value : pres b (Own_String value).
Proof. intros s [Hself Hmeth Hcl]. by split. Qed.

Lemma pres_Own_Bool b value : pres b (Own_Bool value).
Proof. intros s [Hself Hmeth Hcl]. by split. Qed.

Lemma pres_mapM {A B} b (f : A → M B) l :
  (∀ a, In a l → pres b (f a)) → pres b (mapM f l).
Proof.
  induction l as [|a l IH]; intros Hf; simpl; [apply pres_ret|].
  apply pres_bind; [apply Hf; by left|]. intros y.
  apply pres_bind; [apply IH; intros; apply Hf; by right|]. intros k.
  apply pres_ret.
Qed.

Lemma pres_foldM {A B} b (f : B → A → M B) l : ∀ x,
  (∀ x a, pres b (f x a)) → pres b (foldM f x l).
Proof.
  induction l as [|a l IH]; intros x Hf; simpl; [apply pres_ret|].
  apply pres_bind; [apply Hf|]. intros y. by apply IH.
Qed.

Lemma pres_for_each {A B} b (f : A → M B) l :
  (∀ a, In a l → pres b (f a)) → pres b (for_each f l).
Proof.
  induction l as [|a l IH]; intros Hf; simpl; [apply pres_ret|].
  apply pres_bind; [apply Hf; by left|]. intros _.
  apply IH. intros; apply Hf; by right.
Qed.

Create HintDb pres.
#[local] Hint Resolve pres_ret pres_throw pres_undefined pres_timeout
  pres_closure_map pres_write pres_Own_Number pres_Own_String pres_Own_Bool
  : pres.

(** One step through a computation built from the pieces above. *)
Ltac pres_step :=
  match goal with
  | |- pres _ (instance_at _ ≫= _) => apply pres_instance_at; intros ? ?
  | |- pres _ (_ ≫= _) => apply pres_bind; [|intros ?]
  | |- pres _ (try_catch _ _) => apply pres_try_catch; [|intros ?]
  | |- pres _ (if ?c then _ else _) => destruct c
  | |- pres _ (match ?x with _ => _ end) => destruct x
  | |- pres _ _ => solve [auto with pres]
  end.

Section Level.

Variable Execute_ : Statement → M ObjectHolder.
Variable Print_ : ObjectHolder → M string.

Hypothesis Execute_pres : ∀ b stmt,
  no_self_write b stmt = true → pres b (Execute_ stmt).
Hypothesis Print_pres : ∀ b object, pres b (Print_ object).

Lemma pres_Call b this method actual_args :
  pres b (Call Execute_ this method actual_args).
Proof.
  unfold Call. pres_step.
  destruct (GetMethod (class_ inst) method) as [m|] eqn:Hm; [|pres_step].
  pres_step; [|pres_step].
  apply pres_with_closure. simpl. apply Execute_pres. by apply (H _ _ Hm).
Qed.

Lemma pres_HasMethod b p method n : pres b (HasMethod p method n).
Proof. unfold HasMethod. repeat pres_step. Qed.

Lemma pres_Fields_at b p name : pres b (Fields_at p name).
Proof. unfold Fields_at. repeat pres_step. Qed.

Lemma pres_closure_at b name : pres b (closure_at name).
Proof. unfold closure_at. repeat pres_step. Qed.

Lemma pres_ClassInstance_Print b this :
  pres b (ClassInstance_Print Execute_ Print_ this).
Proof.
  unfold ClassInstance_Print. pres_step.
  destruct (GetMethod (class_ inst) "__str__") as [m|] eqn:Hm; [|pres_step].
  pres_step.
  - apply pres_with_closure. simpl. apply Execute_pres. by apply (H _ _ Hm).
  - destruct a; try apply Print_pres. pres_step.
Qed.

Lemma pres_Print_object b object : pres b (Print_object Execute_ Print_ object).
Proof.
  destruct object; simpl; try solve [pres_step]. apply pres_ClassInstance_Print.
Qed.

Lemma pres_Equal b lhs rhs : pres b (Equal Execute_ lhs rhs).
Proof.
  unfold Equal.
  destruct lhs, rhs; simpl; repeat first [apply pres_Call | pres_step].
Qed.

Lemma pres_Less b lhs rhs : pres b (Less Execute_ lhs rhs).
Proof.
  unfold Less.
  destruct lhs, rhs; simpl; repeat first [apply pres_Call | pres_step].
Qed.

Lemma pres_compare b cmp lhs rhs : pres b (compare Execute_ cmp lhs rhs).
Proof.
  destruct cmp; simpl;
    unfold NotEqual, Greater, LessOrEqual, GreaterOrEqual;
    repeat first [apply pres_Equal | apply pres_Less | pres_step].
Qed.

Lemma pres_VariableValue b var_names_ :
  pres b (VariableValue_Execute var_names_).
Proof.
  unfold VariableValue_Execute. destruct var_names_ as [|first rest]; [pres_step|].
  pres_step.
  { pres_step; [apply pres_closure_at|pres_step]. }
  pres_step.
  { apply pres_foldM. intros [] name; try solve [pres_step]. apply pres_Fields_at. }
  pres_step.
Qed.

Lemma no_self_write_In b l a :
  forallb (no_self_write b) l = true → In a l → no_self_write b a = true.
Proof. intros Hl Ha. by apply (proj1 (forallb_forall _ _) Hl). Qed.

Lemma pres_Print_args b args_ :
  forallb (no_self_write b) args_ = true → pres b (Print_args Execute_ Print_ args_).
Proof.
  induction args_ as [|arg rest IH]; simpl; [intros; pres_step|].
  intros [Harg Hrest]%andb_prop.
  pres_step; [by apply Execute_pres|].
  pres_step.
  { destruct (to_bool a); [|pres_step].
    pres_step; [apply Print_pres|pres_step]. }
  pres_step; [pres_step|]. by apply IH.
Qed.

Lemma pres_Statement_Execute b stmt :
  no_self_write b stmt = true → pres b (Statement_Execute Execute_ Print_ stmt).
Proof.
  destruct stmt; simpl; intros Hno;
    repeat match goal with
           | H : _ && _ = true |- _ => apply andb_prop in H as [? ?]
           end.
  - pres_step.
  - pres_step.
  - pres_step.
  - pres_step.
  - apply pres_VariableValue.
  - unfold Assignment_Execute. pres_step; [by apply Execute_pres|].
    pres_step; [|pres_step]. apply pres_closure_set. intros ->.
    simpl in H. by case_bool_decide.
  - unfold FieldAssignment_Execute. pres_step; [by apply Execute_pres|].
    pres_step; [apply pres_VariableValue|].
    destruct a0; try solve [pres_step].
    pres_step; [|pres_step]. apply pres_Fields_set. by case_bool_decide.
  - unfold Print_Execute. pres_step; [|pres_step].
    destruct (negb _).
    + pres_step; [apply pres_closure_at|].
      destruct a; try solve [pres_step];
        (pres_step; [apply Print_pres|]); repeat pres_step.
    + destruct args_ as [|arg rest]; [pres_step|]. by apply pres_Print_args.
  - unfold MethodCall_Execute.
    pres_step.
    { apply pres_mapM. intros a Ha. apply Execute_pres.
      by eapply no_self_write_In. }
    pres_step; [by apply Execute_pres|].
    destruct a0; try solve [pres_step]. apply pres_Call.
  - unfold NewInstance_Execute.
    pres_step.
    { apply pres_mapM. intros a Ha. apply Execute_pres.
      by eapply no_self_write_In. }
    pres_step; [apply pres_HasMethod|].
    pres_step; [|pres_step].
    destruct a0; [|pres_step]. pres_step; [apply pres_Call|pres_step].
  - unfold Stringify_Execute. pres_step; [by apply Execute_pres|].
    pres_step; [pres_step|]. pres_step.
    { destruct (to_bool a); [apply Print_pres|pres_step]. }
    repeat pres_step.
  - unfold Add_Execute.
    pres_step; [by apply Execute_pres|]. pres_step; [by apply Execute_pres|].
    destruct a, a0; try solve [pres_step];
      (pres_step; [apply pres_HasMethod|]);
      (destruct a; [apply pres_Call|pres_step]).
  - unfold Sub_Execute.
    pres_step; [by apply Execute_pres|]. pres_step; [by apply Execute_pres|].
    destruct a, a0; pres_step.
  - unfold Mult_Execute.
    pres_step; [by apply Execute_pres|]. pres_step; [by apply Execute_pres|].
    destruct a, a0; pres_step.
  - unfold Div_Execute.
    pres_step; [by apply Execute_pres|]. pres_step; [by apply Execute_pres|].
    destruct a, a0; repeat pres_step.
  - unfold Or_Execute.
    pres_step; [by apply Execute_pres|]. pres_step; [by apply Execute_pres|].
    destruct a, a0; repeat pres_step.
  - unfold And_Execute.
    pres_step; [by apply Execute_pres|]. pres_step; [by apply Execute_pres|].
    destruct a, a0; repeat pres_step.
  - unfold Not_Execute. pres_step; [by apply Execute_pres|].
    destruct a; repeat pres_step.
  - unfold Compound_Execute. pres_step; [|pres_step].
    apply pres_for_each. intros a Ha. apply Execute_pres.
    by eapply no_self_write_In.
  - unfold MethodBody_Execute. pres_step; [|pres_step].
    pres_step; [by apply Execute_pres|pres_step].
  - unfold Return_Execute. pres_step; [by apply Execute_pres|].
    destruct a; try solve [pres_step]; (pres_step; [apply Print_pres|pres_step]).
  - unfold ClassDefinition_Execute. pres_step; [|pres_step].
    apply pres_closure_set. intros ->. simpl in Hno.
    case_bool_decide; [done|]. by intros ?.
  - unfold IfElse_Execute. pres_step; [by apply Execute_pres|].
    destruct a; try solve [pres_step]. destruct value; [by apply Execute_pres|].
    destruct else_body_; [by apply Execute_pres|pres_step].
  - unfold Comparison_Execute. pres_step.
    { pres_step; (pres_step; [by apply Execute_pres|]);
        (pres_step; [by apply Execute_pres|pres_step]). }
    pres_step; [apply pres_compare|pres_step].
Qed.

End Level.

Lemma pres_Execute fuel :
  (∀ b stmt, no_self_write b stmt = true → pres b (Execute fuel stmt))
  ∧ (∀ b object, pres b (Object_Print fuel object)).
Proof.
  induction fuel as [|fuel [IHE IHP]]; [split; intros; apply pres_timeout|].
  split.
  - intros b stmt Hno. simpl. by apply pres_Statement_Execute.
  - intros b object. simpl. by apply pres_Print_object.
Qed.

(** The binding is there once the instance is constructed. *)
Lemma ClassInstance_new_self cls this :
  fields_ (ClassInstance_new cls this) !! "self" = Some (HInstance this).
Proof. apply lookup_singleton_eq. Qed.

Lemma self_bound_empty : self_bound ∅.
Proof. intros p inst H. by rewrite lookup_empty in H. Qed.

Lemma self_bound_insert_new h cls p :
  self_bound h → self_bound (<[p := ClassInstance_new cls p]> h).
Proof.
  intros Hh q inst. destruct (decide (p = q)) as [<-|Hne].
  - rewrite lookup_insert_eq. intros [= <-]. apply ClassInstance_new_self.
  - rewrite lookup_insert_ne by done. apply Hh.
Qed.

(** C4, as amended: the constructor binds [self] to the instance, and every
    statement keeps every instance's [self] bound to the instance, whether
    it returns or throws, provided no write to the name [self] can reach a
    field store: no [FieldAssignment] to the field [self] and, in what runs
    against a field store, no [Assignment] or [ClassDefinition] of the name
    [self], in the statement and in the methods of the instances. *)
Theorem self_bound_kept (fuel : nat) (stmt : Statement) (s : State) :
  self_bound (heap s) →
  (∀ p inst, heap s !! p = Some inst → methods_ok (class_ inst)) →
  no_self_write (on_fields (closure s)) stmt = true →
  (∀ cls this,
     fields_ (ClassInstance_new cls this) !! "self" = Some (HInstance this))
  ∧ match Execute fuel stmt s with
    | Returns _ s' | Throws _ s' => self_bound (heap s')
    | Undefined | Timeout => True
    end.
Proof.
  intros Hself Hmeth Hno. split; [apply ClassInstance_new_self|].
  destruct (pres_Execute fuel) as [HE _].
  specialize (HE _ stmt Hno s ltac:(by split)).
  destruct (Execute fuel stmt s) as [v s'|what s'| |]; try done;
    by destruct HE.
Qed.

Lemma one_Counter_self_bound : self_bound (heap one_Counter).
Proof. apply (self_bound_insert_new ∅ Counter 1 self_bound_empty). Qed.

Lemma Counter_methods_ok : methods_ok Counter.
Proof.
  intros name m. simpl. case_bool_decide; [|done]. by intros [= <-].
Qed.

Lemma one_Counter_methods_ok p inst :
  heap one_Counter !! p = Some inst → methods_ok (class_ inst).
Proof.
  unfold one_Counter. simpl.
  intros [<- <-]%lookup_singleton_Some. apply Counter_methods_ok.
Qed.

Lemma self_bound_kept_witness :
  self_bound (heap one_Counter)
  ∧ (∀ p inst, heap one_Counter !! p = Some inst → methods_ok (class_ inst))
  ∧ no_self_write (on_fields (closure one_Counter))
      (Compound [FieldAssignment ["o"] "value" (NumericConst 5 42);
                 Print [] "o"]) = true
  ∧ (∀ cls this,
       fields_ (ClassInstance_new cls this) !! "self" = Some (HInstance this))
  ∧ match Execute 6 (Compound [FieldAssignment ["o"] "value" (NumericConst 5 42);
                               Print [] "o"]) one_Counter with
    | Returns _ s' | Throws _ s' => self_bound (heap s')
    | Undefined | Timeout => True
    end.
Proof.
  split; [apply one_Counter_self_bound|].
  split; [apply one_Counter_methods_ok|].
  split; [reflexivity|].
  apply (self_bound_kept 6
           (Compound [FieldAssignment ["o"] "value" (NumericConst 5 42);
                      Print [] "o"]) one_Counter).
  - apply one_Counter_self_bound.
  - apply one_Counter_methods_ok.
  - reflexivity.
Defined.

(** [o.self = 42] rebinds [self]. *)
Example FieldAssignment_to_self :
  Execute 3 (FieldAssignment ["o"] "self" (NumericConst 5 42)) one_Counter
  = Returns (HNumber 5 42)
      (set_heap (<[1%N := {| class_ := Counter;
                             fields_ := <["self" := HNumber 5 42]>
                                          {[ "self" := HInstance 1 ]} |}]>
                   (heap one_Counter)) one_Counter).
Proof. vm_compute. reflexivity. Qed.

(** C4 as stated fails: a [FieldAssignment] to the field [self] leaves the
    instance with [self] bound to something else. *)
Lemma self_not_kept_by_FieldAssignment :
  ¬ (∀ fuel stmt s v s',
       self_bound (heap s) → Execute fuel stmt s = Returns v s' →
       self_bound (heap s')).
Proof.
  intros H.
  specialize (H _ _ _ _ _ one_Counter_self_bound FieldAssignment_to_self 1%N).
  simpl in H. specialize (H _ (lookup_insert_eq _ _ _)). simpl in H.
  by rewrite lookup_insert_eq in H.
Qed.

(** So does an assignment to [self] in the body of [__str__], which runs
    against the field store when the instance is printed. *)
Example Assignment_to_self_in_str :
  match Execute 8 (Print [] "o")
          {| closure := Local {[ "o" := HInstance 1 ]};
             heap := {[ 1%N := ClassInstance_new Selfish 1 ]};
             output := ""; brk := 100 |} with
  | Returns _ s' =>
      (fields_ <$> heap s' !! 1%N) ≫= (λ f : Closure, f !! "self")
  | _ => None
  end = Some (HNumber 21 0).
Proof. vm_compute. reflexivity. Qed.

(** *** Witnesses and samples for the other facts *)

Lemma NewInstance_returns_its_member_witness :
  Execute 2 (NewInstance 1 []) one_Counter = Returns (HInstance 1) one_Counter
  ∧ HInstance 1 = HInstance 1.
Proof.
  split; [vm_compute; reflexivity|].
  apply (NewInstance_returns_its_member 2 1 [] one_Counter (HInstance 1) one_Counter).
  vm_compute. reflexivity.
Defined.

(** The [Box()] node of [Maker.make] executed twice: after
    [m = Maker(); m.make(); a = m.last; a.v = 1; m.make(); b = m.last;
    b.v = 2], [print a.v] writes 2. *)
Example same_NewInstance_twice :
  match Execute 8
          (Compound
             [Assignment "m" (NewInstance 1 []);
              MethodCall (VariableValue ["m"]) "make" [];
              Assignment "a" (VariableValue ["m"; "last"]);
              FieldAssignment ["a"] "v" (NumericConst 10 1);
              MethodCall (VariableValue ["m"]) "make" [];
              Assignment "b" (VariableValue ["m"; "last"]);
              FieldAssignment ["b"] "v" (NumericConst 11 2);
              Print [VariableValue ["a"; "v"]] ""])
          (initial (<[1%N := ClassInstance_new Maker 1]>
                      {[ 2%N := ClassInstance_new Box 2 ]}) 100) with
  | Returns _ s' => Some (output s')
  | _ => None
  end = Some ("2" +:+ endl).
Proof. vm_compute. reflexivity. Qed.

(** [K().one()] is the [String] ["1"]. *)
Example call_one :
  match Execute 6 (MethodCall (NewInstance 1 []) "one" [])
          (initial {[ 1%N := ClassInstance_new K 1 ]} 100) with
  | Returns v _ => Some v
  | _ => None
  end = Some (HString 100 "1").
Proof. vm_compute. reflexivity. Qed.

(** [K().bad()] returns the [String] ["Div by 0"]. *)
Example call_bad :
  match Execute 6 (MethodCall (NewInstance 1 []) "bad" [])
          (initial {[ 1%N := ClassInstance_new K 1 ]} 100) with
  | Returns v _ => Some v
  | _ => None
  end = Some (HString 100 "Div by 0").
Proof. vm_compute. reflexivity. Qed.

(** An [__eq__] that returns [False] makes [Equal] true: what comes back
    from the call is the [String] ["False"], which is not empty. *)
Example Equal_of_False :
  match Equal (Execute 6) (HInstance 1) (HNumber 41 0)
          (initial {[ 1%N := ClassInstance_new Never 1 ]} 100) with
  | Returns e _ => Some e
  | _ => None
  end = Some true.
Proof. vm_compute. reflexivity. Qed.


(** [str(b)] for an instance [b] of a class without [__str__] is the text
    of the address of [b]. *)
Example Stringify_of_Box :
  Execute 3 (Stringify (VariableValue ["b"])) one_Box
  = Returns (HString 100 "0x2") (set_brk 101 one_Box).
Proof. vm_compute. reflexivity. Qed.


(** The empty string literal goes the same way, with [String::Print] as
    the specification has it. *)
Example Stringify_of_empty_literal (s : State) :
  Execute 2 (Stringify (StringConst 7 "")) s
  = Returns (HString (brk s) "0x7") (set_brk (brk s + 1) s).
Proof. reflexivity. Qed.

Lemma derived_comparators_witness :
  Less (Execute 0) (HNumber 1 3) (HNumber 2 5) one_Counter = Returns true one_Counter
  ∧ Equal (Execute 0) (HNumber 1 3) (HNumber 2 5) one_Counter
    = Returns false one_Counter
  ∧ NotEqual (Execute 0) (HNumber 1 3) (HNumber 2 5) one_Counter
    = Returns (negb false) one_Counter
  ∧ Greater (Execute 0) (HNumber 1 3) (HNumber 2 5) one_Counter
    = Returns (negb true && negb false) one_Counter
  ∧ LessOrEqual (Execute 0) (HNumber 1 3) (HNumber 2 5) one_Counter
    = Returns (true || false) one_Counter
  ∧ GreaterOrEqual (Execute 0) (HNumber 1 3) (HNumber 2 5) one_Counter
    = Returns (negb true) one_Counter.
Proof.
  split; [reflexivity|]. split; [reflexivity|].
  destruct (derived_comparators 0 (HNumber 1 3) (HNumber 2 5)
              one_Counter one_Counter one_Counter one_Counter true false false
              eq_refl eq_refl eq_refl) as (H1 & H2 & H3 & H4 & _).
  auto.
Defined.

(** What [m < 0], [m == 0] and [m > 0] give for the instance [m] of
    [Moody], each in the state [one_Moody]. *)
Example Moody_comparisons :
  match Less (Execute 6) (HInstance 1) (HNumber 62 0) one_Moody,
        Equal (Execute 6) (HInstance 1) (HNumber 62 0) one_Moody,
        Greater (Execute 6) (HInstance 1) (HNumber 62 0) one_Moody with
  | Returns l _, Returns e _, Returns g _ => Some (l, e, g)
  | _, _, _ => None
  end = Some (false, false, false).
Proof. vm_compute. reflexivity. Qed.

(** C9 as stated fails: [Greater] is not [¬Less ∧ ¬Equal] of the results
    that [Less] and [Equal] give on the same operands in the same state.
    For an instance whose [__lt__] changes what its [__eq__] reads, [Less]
    and [Equal] are both false and [Greater] is false too: [Greater] calls
    [Equal] in the state that [Less] left. *)
Lemma Greater_not_from_one_state :
  ¬ (∀ fuel lhs rhs s l s1 e s2 g s3,
       Less (Execute fuel) lhs rhs s = Returns l s1 →
       Equal (Execute fuel) lhs rhs s = Returns e s2 →
       Greater (Execute fuel) lhs rhs s = Returns g s3 →
       g = negb l && negb e).
Proof.
  intros H.
  destruct (Less (Execute 6) (HInstance 1) (HNumber 62 0) one_Moody)
    as [l s1| | |] eqn:HL; try (by vm_compute in HL).
  destruct (Equal (Execute 6) (HInstance 1) (HNumber 62 0) one_Moody)
    as [e s2| | |] eqn:HE; try (by vm_compute in HE).
  destruct (Greater (Execute 6) (HInstance 1) (HNumber 62 0) one_Moody)
    as [g s3| | |] eqn:HG; try (by vm_compute in HG).
  specialize (H 6 _ _ _ _ _ _ _ _ _ HL HE HG).
  vm_compute in HL, HE, HG.
  injection HL as <- _. injection HE as <- _. injection HG as <- _.
  discriminate H.
Qed.

(** [print t] writes [hello] and leaves the field [seen] in the instance. *)
Example print_Tag :
  match Execute 8 (Print [] "t") one_Tag with
  | Returns _ s' =>
      Some (output s',
            (fields_ <$> heap s' !! 1%N) ≫= (λ f : Closure, f !! "seen"))
  | _ => None
  end = Some ("hello" +:+ endl, Some (HString 50 "hello")).
Proof. vm_compute. reflexivity. Qed.

Lemma Print_runs_str_on_fields_witness :
  heap one_Tag !! 1%N
  = Some {| class_ := Tag;
            fields_ := <["label" := HString 50 "hello"]>
                         {[ "self" := HInstance 1 ]} |}
  ∧ GetMethod Tag "__str__"
    = Some (MkMethod "__str__" ["unused"]
              (MethodBody (Compound [Assignment "seen" (VariableValue ["label"]);
                                     Return (VariableValue ["label"])])))
  ∧ Call (Execute 5) 1 "__str__" [] one_Tag = Throws "Not implemented" one_Tag
  ∧ Execute 6 (VariableValue ["label"]) (set_closure (FieldsOf 1) one_Tag)
    = Returns (HString 50 "hello") (set_closure (FieldsOf 1) one_Tag).
Proof.
  split; [reflexivity|]. split; [reflexivity|].
  destruct (Print_runs_str_on_fields 5 1
              {| class_ := Tag;
                 fields_ := <["label" := HString 50 "hello"]>
                              {[ "self" := HInstance 1 ]} |}
              (MkMethod "__str__" ["unused"]
                 (MethodBody
                    (Compound [Assignment "seen" (VariableValue ["label"]);
                               Return (VariableValue ["label"])])))
              one_Tag eq_refl eq_refl) as (_ & HCall & HVar & _).
  split; [by apply HCall|].
  apply (HVar "label" (HString 50 "hello")). reflexivity.
Defined.

End EvalFacts.

(** ** Facts about the concatenation of strings *)

Module StringFacts.

Lemma append_cons a (s t : string) :
  String.String a s +:+ t = String.String a (s +:+ t).
Proof. reflexivity. Qed.

Lemma append_empty_r (s : string) : s +:+ "" = s.
Proof. induction s as [|a s IH]; [done|]. rewrite append_cons. by f_equal. Qed.

Lemma append_assoc (a b c : string) : (a +:+ b) +:+ c = a +:+ (b +:+ c).
Proof. induction a as [|x a IH]; [done|]. rewrite !append_cons. by f_equal. Qed.

Lemma string_of_list_ascii_app (l1 l2 : list ascii) (t : string) :
  string_of_list_ascii (l1 ++ l2) +:+ t
  = string_of_list_ascii l1 +:+ (string_of_list_ascii l2 +:+ t).
Proof.
  induction l1 as [|d l1 IH]; [done|]. simpl. rewrite !append_cons. by f_equal.
Qed.

End StringFacts.

(** ** More facts about the lexer *)

Module LexerMore.
Import parse lexer_api LexerFacts StringFacts.
Local Open Scope nat_scope.

Local Arguments good cs /.
Local Arguments set_fail s /.
Local Arguments readable s /.
Local Arguments putback c s /.
Local Arguments peek s /.

(** *** Equality of tokens *)

(** X1: [operator==] on tokens holds exactly when the two tokens are the
    same alternative with the same value, and [operator!=] exactly when
    they are not. *)
Theorem Token_eq_spec (lhs rhs : Token) :
  (Token_eq lhs rhs = true ↔ lhs = rhs)
  ∧ (Token_ne lhs rhs = true ↔ lhs ≠ rhs).
Proof.
  assert (Token_eq lhs rhs = true ↔ lhs = rhs) as H.
  { split.
    - destruct lhs, rhs; simpl; try done;
        unfold Token_eq; simpl; intros ?%bool_decide_eq_true_1; by subst.
    - intros <-. destruct lhs; unfold Token_eq; simpl; try done;
        by apply bool_decide_eq_true_2. }
  split; [done|]. unfold Token_ne. rewrite negb_true_iff.
  destruct (Token_eq lhs rhs); split; try done.
  - intros Hne. destruct Hne. by apply H.
  - intros _ Heq. by apply H in Heq.
Qed.

(** *** The cursor *)

Lemma NextToken_times_tokens n : ∀ lexer,
  tokens_ (NextToken_times n lexer) = tokens_ lexer.
Proof.
  induction n as [|n IH]; intros lexer; simpl; [done|].
  rewrite IH. unfold NextToken. simpl. by destruct (negb _).
Qed.

Lemma NextToken_times_cursor n : ∀ lexer,
  (0 ≤ current_token_ lexer < Z.of_nat (List.length (tokens_ lexer)))%Z →
  current_token_ (NextToken_times n lexer)
  = Z.min (current_token_ lexer + Z.of_nat n)
          (Z.of_nat (List.length (tokens_ lexer)) - 1).
Proof.
  induction n as [|n IH]; intros lexer Hc.
  - simpl. lia.
  - cbn [NextToken_times]. unfold NextToken. cbn [fst].
    case_bool_decide as Hlast; cbn [negb].
    + rewrite IH by done. lia.
    + rewrite IH; simpl; lia.
Qed.

Lemma Lexer_last_is_Eof input tokens :
  Lexer input = Done tokens → ∃ body, tokens = body ++ [token_type.Eof].
Proof.
  unfold Lexer.
  destruct (Lexer_lines _ _ _) as [[tokens_ indent_count]| |]; [|done..].
  intros [= <-]. exists (tokens_ ++ replicate indent_count token_type.Dedent).
  by rewrite <- app_assoc.
Qed.

(** X2: on the lexer the constructor leaves, [n] calls of [NextToken]
    put the cursor on the token number [n], and on the last token, which
    is [Eof], once [n] reaches the end: the cursor never leaves the
    vector. *)
Theorem NextToken_walks_to_Eof (input : string) (lexer : LexerObject) (n : nat) :
  Lexer_new input = Done lexer →
  CurrentToken (NextToken_times n lexer)
  = tokens_ lexer !! Nat.min n (List.length (tokens_ lexer) - 1)
  ∧ (List.length (tokens_ lexer) - 1 ≤ n →
     CurrentToken (NextToken_times n lexer) = Some token_type.Eof).
Proof.
  unfold Lexer_new. destruct (Lexer input) as [tokens| |] eqn:HL; [|done..].
  intros [= <-]. simpl.
  destruct (Lexer_last_is_Eof _ _ HL) as [body ->].
  assert (CurrentToken
            (NextToken_times n {| tokens_ := body ++ [token_type.Eof];
                                  current_token_ := 0 |})
          = (body ++ [token_type.Eof])
              !! Nat.min n (List.length (body ++ [token_type.Eof]) - 1)) as H.
  { unfold CurrentToken.
    rewrite NextToken_times_tokens, NextToken_times_cursor;
      simpl; rewrite ?length_app; simpl; [|lia].
    rewrite bool_decide_eq_true_2 by lia. f_equal. lia. }
  split; [done|]. intros Hn. rewrite H.
  rewrite Nat.min_r by done. rewrite length_app. simpl.
  replace (List.length body + 1 - 1) with (List.length body) by lia.
  by rewrite list_lookup_middle.
Qed.

Lemma NextToken_walks_to_Eof_witness :
  Lexer_new "x" =
  Done {| tokens_ := [token_type.Id "x"; token_type.Newline; token_type.Eof];
          current_token_ := 0 |}
  ∧ CurrentToken
      (NextToken_times 5
         {| tokens_ := [token_type.Id "x"; token_type.Newline; token_type.Eof];
            current_token_ := 0 |})
    = Some token_type.Eof.
Proof.
  split; [vm_compute; reflexivity|].
  apply (NextToken_walks_to_Eof "x" _ 5); [vm_compute; reflexivity|].
  simpl. lia.
Defined.

(** *** String literals *)

Lemma push_back_append acc c text :
  push_back acc c +:+ text = acc +:+ String.String c text.
Proof.
  unfold push_back. induction acc as [|a acc IH]; [done|].
  rewrite !append_cons. by f_equal.
Qed.

Lemma ReadString_loop_escape quote text : ∀ rest acc,
  quote = "'"%char ∨ quote = dquote →
  ReadString_loop (escape quote text ++ quote :: rest) quote acc
  = (acc +:+ text, good rest).
Proof.
  induction text as [|c text IH]; intros rest acc Hq.
  - simpl. rewrite append_empty_r.
    rewrite bool_decide_eq_false_2 by (destruct Hq; by subst).
    by rewrite bool_decide_eq_true_2.
  - cbn [escape]. rewrite <- push_back_append.
    case_bool_decide as Htab; [subst c; simpl; by rewrite IH|].
    case_bool_decide as Hnl; [subst c; simpl; by rewrite IH|].
    destruct (_ || _) eqn:Hesc.
    + simpl. rewrite bool_decide_eq_false_2, bool_decide_eq_false_2.
      * by rewrite IH.
      * apply orb_prop in Hesc as [H|H]; apply bool_decide_eq_true_1 in H;
          subst c; [done|destruct Hq; by subst].
      * apply orb_prop in Hesc as [H|H]; apply bool_decide_eq_true_1 in H;
          subst c; [done|destruct Hq; by subst].
    + apply orb_false_elim in Hesc as [H1%bool_decide_eq_false_1 H2%bool_decide_eq_false_1].
      simpl. rewrite bool_decide_eq_false_2 by done.
      rewrite bool_decide_eq_false_2 by done. by rewrite IH.
Qed.

(** X3: [ReadString] reads back every text: from the opening quote, the
    text with its backslashes and quotes escaped and tab and newline
    written as [\t] and [\n], and the closing quote, it pushes one [String]
    token that holds the text and leaves the stream after the closing
    quote. *)
Theorem ReadString_reads_back (quote : ascii) (text : string)
  (rest : list ascii) (tokens : list Token) :
  quote = "'"%char ∨ quote = dquote →
  ReadString (good (quote :: escape quote text ++ quote :: rest)) tokens
  = (good rest, tokens ++ [token_type.String text]).
Proof.
  intros Hq. unfold ReadString, get_char. simpl.
  replace (if bool_decide (quote = "'"%char) then "'"%char else dquote)
    with quote by (destruct Hq; by subst).
  by rewrite ReadString_loop_escape.
Qed.

Lemma ReadString_reads_back_witness :
  ("'"%char = "'"%char ∨ "'"%char = dquote)
  ∧ ReadString (good ("'"%char :: escape "'" "it's #1" ++ "'"%char :: [")"%char])) []
    = (good [")"%char], [token_type.String "it's #1"]).
Proof.
  split; [by left|].
  apply (ReadString_reads_back "'" "it's #1" [")"%char] []). by left.
Defined.

(** *** Numbers *)

Lemma ReadNumber_loop_digits ds : ∀ rest number,
  Forall (λ c, is_number c = true) ds →
  (∀ c, head rest = Some c → is_number c = false) →
  ∃ s, ReadNumber_loop (ds ++ rest) number
       = (number +:+ string_of_list_ascii ds, s)
       ∧ readable s = rest.
Proof.
  induction ds as [|d ds IH]; intros rest number Hds Hrest.
  - simpl. rewrite append_empty_r. destruct rest as [|c rest]; simpl; [eauto|].
    rewrite (Hrest c) by done. eauto.
  - apply Forall_cons in Hds as [Hd Hds]. simpl. rewrite Hd.
    destruct (IH rest (push_back number d) Hds Hrest) as (s & -> & Hs).
    rewrite push_back_append. eauto.
Qed.

(** X4: [ReadNumber] takes the longest run of digits: from a run of
    digits that is not followed by a digit it pushes the [Number] of their
    decimal value when that value is at most [INT_MAX], throws the
    [out_of_range] of [std::stoi] when it is above, and leaves what follows
    the run in the stream. *)
Theorem ReadNumber_takes_the_digits (d : ascii) (ds rest : list ascii)
  (tokens : list Token) :
  Forall (λ c, is_number c = true) (d :: ds) →
  (∀ c, head rest = Some c → is_number c = false) →
  let value := decimal 0 (string_of_list_ascii (d :: ds)) in
  if bool_decide (value ≤ 2147483647)%Z then
    ∃ s, ReadNumber (good (d :: ds ++ rest)) tokens
         = Done (s, tokens ++ [token_type.Number value])
         ∧ readable s = rest
  else ReadNumber (good (d :: ds ++ rest)) tokens = Throw (out_of_range "stoi").
Proof.
  intros Hds Hrest value. unfold ReadNumber, get_char. simpl.
  pose proof Hds as [Hd _]%Forall_cons.
  rewrite (bool_decide_eq_false_2 (d = "-"%char))
    by by apply is_number_not_minus.
  simpl. rewrite Hd.
  apply Forall_cons in Hds as [_ Hds].
  destruct (ReadNumber_loop_digits ds rest (push_back "" d) Hds Hrest)
    as (s & -> & Hs).
  change (push_back "" d +:+ string_of_list_ascii ds)
    with (string_of_list_ascii (d :: ds)).
  unfold stoi. fold value.
  change (string_of_list_ascii (d :: ds))
    with (String.String d (string_of_list_ascii ds)).
  case_bool_decide as Hv.
  - assert ((value <=? 2147483647)%Z = true) as -> by (apply Z.leb_le; lia).
    eauto.
  - assert ((value <=? 2147483647)%Z = false) as -> by (apply Z.leb_gt; lia).
    done.
Qed.

Lemma ReadNumber_takes_the_digits_witness :
  Forall (λ c, is_number c = true) ["4"%char; "2"%char]
  ∧ (∀ c, head ["+"%char] = Some c → is_number c = false)
  ∧ ∃ s, ReadNumber (good ("4"%char :: ["2"%char] ++ ["+"%char])) []
         = Done (s, [] ++ [token_type.Number 42])
         ∧ readable s = ["+"%char].
Proof.
  assert (Forall (λ c, is_number c = true) ["4"%char; "2"%char]) as H1
    by (by repeat constructor).
  assert (∀ c, head ["+"%char] = Some c → is_number c = false) as H2
    by (by intros c [= <-]).
  split; [done|]. split; [done|].
  apply (ReadNumber_takes_the_digits "4" ["2"%char] ["+"%char] [] H1 H2).
Defined.

(** The decimal form of a natural number is read back by [decimal]. *)
Lemma digit_value_pretty_N_char x :
  (x < 10)%N → digit_value (pretty_N_char x) = Z.of_N x
               ∧ is_number (pretty_N_char x) = true.
Proof.
  intros Hx.
  destruct x as [|p]; [done|].
  do 4 (destruct p as [p|p|]; try (by vm_compute); try lia).
Qed.

Lemma pretty_N_go_digits x : ∀ s,
  ∃ ds, pretty_N_go x s = string_of_list_ascii ds +:+ s
        ∧ Forall (λ c, is_number c = true) ds
        ∧ (∃ k : nat, ∀ a t, decimal a (string_of_list_ascii ds +:+ t)
                             = decimal (a * 10 ^ Z.of_nat k + Z.of_N x) t)
        ∧ ((0 < x)%N → ds ≠ []).
Proof.
  induction (N.lt_wf_0 x) as [x _ IH]. intros s.
  destruct (decide (0 < x)%N) as [Hx|Hx].
  - rewrite pretty_N_go_step by done.
    destruct (IH (x `div` 10)%N ltac:(apply N.div_lt; lia)
                (String.String (pretty_N_char (x `mod` 10)) s))
      as (ds & -> & Hds & (k & Hk) & _).
    destruct (digit_value_pretty_N_char (x `mod` 10)
                ltac:(apply N.mod_lt; lia)) as [Hv Hn].
    exists (ds ++ [pretty_N_char (x `mod` 10)]). repeat split.
    + by rewrite string_of_list_ascii_app.
    + apply Forall_app. split; [done|]. by constructor.
    + exists (S k). intros a t.
      rewrite string_of_list_ascii_app.
      change (string_of_list_ascii [pretty_N_char (x `mod` 10)] +:+ t)
        with (String.String (pretty_N_char (x `mod` 10)) t).
      rewrite Hk. cbn [decimal]. rewrite Hv. f_equal.
      rewrite Nat2Z.inj_succ, Z.pow_succ_r by lia.
      pose proof (N.div_mod x 10 ltac:(lia)) as Hdm.
      apply (f_equal Z.of_N) in Hdm.
      rewrite N2Z.inj_add, N2Z.inj_mul in Hdm. simpl in Hdm. lia.
    + intros _. by destruct ds.
  - assert (x = 0)%N as -> by lia. rewrite pretty_N_go_0.
    exists []. repeat split; [by constructor| |lia].
    exists 0%nat. intros a t. simpl. f_equal. lia.
Qed.

Lemma pretty_N_digits (n : N) :
  ∃ d ds, pretty n = string_of_list_ascii (d :: ds)
          ∧ Forall (λ c, is_number c = true) (d :: ds)
          ∧ decimal 0 (string_of_list_ascii (d :: ds)) = Z.of_N n.
Proof.
  unfold pretty, pretty_N. case_decide as Hn.
  - subst n. exists "0"%char, []. repeat split. by repeat constructor.
  - destruct (pretty_N_go_digits n "") as (ds & -> & Hds & (k & Hk) & Hne).
    destruct ds as [|d ds]; [destruct Hne; [lia|done]|].
    exists d, ds. rewrite append_empty_r. repeat split; [done|].
    specialize (Hk 0%Z ""). rewrite append_empty_r in Hk. rewrite Hk.
    simpl. lia.
Qed.

(** X5: [ReadNumber] reads back the decimal form of every number from 0
    to [INT_MAX]: from that text, not followed by a digit, it pushes the
    [Number] token of the number and leaves what follows in the stream. *)
Theorem ReadNumber_reads_back (n : N) (rest : list ascii) (tokens : list Token) :
  (n ≤ 2147483647)%N →
  (∀ c, head rest = Some c → is_number c = false) →
  ∃ s, ReadNumber (good (list_ascii_of_string (pretty n) ++ rest)) tokens
       = Done (s, tokens ++ [token_type.Number (Z.of_N n)])
       ∧ readable s = rest.
Proof.
  intros Hn Hrest.
  destruct (pretty_N_digits n) as (d & ds & -> & Hds & Hv).
  rewrite list_ascii_of_string_of_list_ascii.
  pose proof (ReadNumber_takes_the_digits d ds rest tokens Hds Hrest) as H.
  simpl in H. simpl in Hv. rewrite Hv in H.
  rewrite bool_decide_eq_true_2 in H by lia. done.
Qed.

Lemma ReadNumber_reads_back_witness :
  (2024 ≤ 2147483647)%N
  ∧ (∀ c, head [")"%char] = Some c → is_number c = false)
  ∧ ∃ s, ReadNumber (good (list_ascii_of_string (pretty 2024%N) ++ [")"%char])) []
         = Done (s, [] ++ [token_type.Number (Z.of_N 2024)])
         ∧ readable s = [")"%char].
Proof.
  assert (∀ c, head [")"%char] = Some c → is_number c = false) as H2
    by (by intros c [= <-]).
  split; [lia|]. split; [done|].
  apply (ReadNumber_reads_back 2024 [")"%char] []); [lia|done].
Defined.

(** *** Identifiers and keywords *)

Lemma ReadId_loop_word w : ∀ rest id,
  Forall (λ c, id_char c = true) w →
  ReadId_loop (w ++ rest) id
  = ReadId_loop rest (id +:+ string_of_list_ascii w).
Proof.
  induction w as [|c w IH]; intros rest id Hw.
  - simpl. by rewrite append_empty_r.
  - apply Forall_cons in Hw as [Hc Hw]. simpl.
    unfold id_char in Hc. apply negb_true_iff in Hc.
    apply orb_false_elim in Hc as [Hc Hops].
    apply orb_false_elim in Hc as [Hc Hchars].
    apply orb_false_elim in Hc as [Hhash Hsp].
    rewrite Hhash, Hsp, Hchars, Hops. simpl.
    rewrite IH by done. by rewrite push_back_append.
Qed.

(** X6: [ReadId] takes the longest run of characters that are not a
    space, [#], a bracket, colon, comma, dot or operator character; where
    the run ends at one of these other than [#], or at the end of the line,
    it pushes the keyword token when the run is one of the twelve keywords
    and the [Id] of the run otherwise, and leaves the rest in the stream. *)
Theorem ReadId_takes_the_word (w rest : list ascii) (tokens : list Token) :
  Forall (λ c, id_char c = true) w →
  (∀ c, head rest = Some c → id_char c = false ∧ c ≠ "#"%char) →
  ∃ s, ReadId (good (w ++ rest)) tokens
       = (s, tokens ++ [match at_ keywords_ (string_of_list_ascii w) with
                        | Some t => t
                        | None => token_type.Id (string_of_list_ascii w)
                        end])
       ∧ readable s = rest.
Proof.
  intros Hw Hrest. unfold ReadId. simpl. rewrite ReadId_loop_word by done.
  change ("" +:+ string_of_list_ascii w) with (string_of_list_ascii w).
  destruct rest as [|c rest]; simpl.
  - destruct (at_ keywords_ _); eauto.
  - destruct (Hrest c eq_refl) as [Hc Hhash].
    rewrite bool_decide_eq_false_2 by done.
    unfold id_char in Hc. apply negb_false_iff in Hc.
    rewrite (bool_decide_eq_false_2 (c = "#"%char)) in Hc by done.
    simpl in Hc. rewrite Hc. simpl.
    destruct (at_ keywords_ _); eauto.
Qed.

Lemma ReadId_takes_the_word_witness :
  Forall (λ c, id_char c = true) (list_ascii_of_string "print")
  ∧ (∀ c, head (list_ascii_of_string " x") = Some c
          → id_char c = false ∧ c ≠ "#"%char)
  ∧ ∃ s, ReadId (good (list_ascii_of_string "print" ++ list_ascii_of_string " x")) []
         = (s, [] ++ [token_type.Print])
         ∧ readable s = list_ascii_of_string " x".
Proof.
  assert (Forall (λ c, id_char c = true) (list_ascii_of_string "print")) as H1
    by (by repeat constructor).
  assert (∀ c, head (list_ascii_of_string " x") = Some c
               → id_char c = false ∧ c ≠ "#"%char) as H2
    by (by intros c [= <-]).
  split; [done|]. split; [done|].
  apply (ReadId_takes_the_word (list_ascii_of_string "print")
           (list_ascii_of_string " x") [] H1 H2).
Defined.

(** X7: a [#] right after a word ends the line: [ReadId] pushes the [Id]
    of the word, also when the word is a keyword, pushes nothing when the
    word is empty, and nothing can be read from the stream afterwards. *)
Theorem ReadId_cut_by_hash (w rest : list ascii) (tokens : list Token) :
  Forall (λ c, id_char c = true) w →
  ∃ s, ReadId (good (w ++ "#"%char :: rest)) tokens
       = (s, match w with
             | [] => tokens
             | _ => tokens ++ [token_type.Id (string_of_list_ascii w)]
             end)
       ∧ readable s = []
       ∧ ∀ fuel tokens', tokenize fuel s tokens' = Done tokens' ∨ fuel = 0.
Proof.
  intros Hw. unfold ReadId. simpl. rewrite ReadId_loop_word by done.
  change ("" +:+ string_of_list_ascii w) with (string_of_list_ascii w).
  simpl. eexists. split; [f_equal; by destruct w|].
  split; [done|]. intros [|fuel] tokens'; [by right|by left].
Qed.

Lemma ReadId_cut_by_hash_witness :
  Forall (λ c, id_char c = true) (list_ascii_of_string "print")
  ∧ ∃ s, ReadId (good (list_ascii_of_string "print"
                       ++ "#"%char :: list_ascii_of_string " x")) []
         = (s, [] ++ [token_type.Id "print"])
         ∧ readable s = []
         ∧ ∀ fuel tokens', tokenize fuel s tokens' = Done tokens' ∨ fuel = 0.
Proof.
  assert (Forall (λ c, id_char c = true) (list_ascii_of_string "print")) as H1
    by (by repeat constructor).
  split; [done|].
  apply (ReadId_cut_by_hash (list_ascii_of_string "print")
           (list_ascii_of_string " x") [] H1).
Defined.

(** *** Indentation by pairs of spaces *)

Lemma ReadIndents_loop_even k : ∀ c rest c0 indent,
  c ≠ " "%char →
  ReadIndents_loop (replicate (2 * k) " "%char ++ c :: rest) c0 indent
  = Broke (good (c :: rest)) (indent + k).
Proof.
  induction k as [|k IH]; intros c rest c0 indent Hc.
  - simpl. rewrite bool_decide_eq_false_2 by done. f_equal. lia.
  - replace (2 * S k) with (S (S (2 * k))) by lia. simpl.
    rewrite IH by done. f_equal. lia.
Qed.

(** X8: a line that starts with [2 k] spaces followed by another
    character puts the indentation counter at [k]: [ReadIndents] pushes
    [k - old_indent] [Indent] tokens when the counter was lower,
    [old_indent - k] [Dedent] tokens when it was higher, nothing when it
    was [k], and leaves the stream at that character. *)
Theorem ReadIndents_even_spaces (k : nat) (c : ascii) (rest : list ascii)
  (old_indent : nat) (tokens : list Token) :
  c ≠ " "%char →
  ReadIndents (good (replicate (2 * k) " "%char ++ c :: rest)) old_indent tokens
  = (good (c :: rest), k,
     tokens ++ replicate (k - old_indent) token_type.Indent
            ++ replicate (old_indent - k) token_type.Dedent).
Proof.
  intros Hc. unfold ReadIndents.
  change (readable (good ?cs)) with cs. rewrite ReadIndents_loop_even by done.
  simpl. repeat case_bool_decide.
  - replace (old_indent - k) with 0 by lia. simpl. by rewrite app_nil_r.
  - replace (k - old_indent) with 0 by lia. done.
  - replace (old_indent - k) with 0 by lia.
    replace (k - old_indent) with 0 by lia.
    replace old_indent with k by lia. simpl. by rewrite app_nil_r.
Qed.

Lemma ReadIndents_even_spaces_witness :
  "x"%char ≠ " "%char
  ∧ ReadIndents (good (replicate (2 * 1) " "%char ++ "x"%char :: [])) 3 []
    = (good ["x"%char], 1,
       [] ++ replicate (1 - 3) token_type.Indent
          ++ replicate (3 - 1) token_type.Dedent).
Proof.
  split; [done|]. by apply (ReadIndents_even_spaces 1 "x" [] 3 []).
Defined.

(** *** Operators *)

(** X9: on an operation character [c], [ReadOperation] takes [c] and a
    directly following [=] as one token when [c] is one of [= < > !]
    ([Eq], [LessOrEq], [GreaterOrEq], [NotEq]); otherwise it takes [c]
    alone and pushes [Char c], except for a lone [!], for which it pushes
    the token [None] of the keyword. *)
Theorem ReadOperation_token (c : ascii) (rest : list ascii) (tokens : list Token) :
  count operations_char_ c = true →
  ReadOperation (good (c :: rest)) tokens
  = Done (if bool_decide (c ∈ ["="; "<"; ">"; "!"]%char)
             && bool_decide (head rest = Some "="%char)
          then (good (tail rest),
                tokens ++ [if bool_decide (c = "="%char) then token_type.Eq
                           else if bool_decide (c = "<"%char) then token_type.LessOrEq
                           else if bool_decide (c = ">"%char) then token_type.GreaterOrEq
                           else token_type.NotEq])
          else (good rest,
                tokens ++ [if bool_decide (c = "!"%char) then token_type.None
                           else token_type.Char c])).
Proof.
  intros Hc. unfold count in Hc. apply bool_decide_eq_true in Hc as [t Ht].
  assert (c ∈ ["+"; "-"; "*"; "/"; "="; ">"; "<"; "!"]%char) as Hin.
  { unfold at_, operations_char_ in Ht. simpl in Ht.
    repeat (case_bool_decide; [subst c; set_solver|]). done. }
  clear Ht.
  repeat (apply elem_of_cons in Hin as [->|Hin]);
    try (by apply elem_of_nil in Hin); try reflexivity;
    (destruct rest as [|c' rest]; [reflexivity|];
     destruct (decide (c' = "="%char)) as [->|Hne]; [reflexivity|];
     unfold ReadOperation; simpl;
     rewrite !(bool_decide_eq_false_2 (_ = Some "="%char)) by congruence;
     reflexivity).
Qed.

Lemma ReadOperation_token_witness :
  count operations_char_ "<"%char = true
  ∧ ReadOperation (good ("<"%char :: list_ascii_of_string "= 2")) []
    = Done (good (list_ascii_of_string " 2"), [token_type.LessOrEq]).
Proof.
  split; [done|].
  exact (ReadOperation_token "<"%char (list_ascii_of_string "= 2") [] eq_refl).
Defined.

(** *** Lines the constructor skips *)

Lemma getlines_nonempty input : getlines input ≠ [].
Proof.
  destruct input as [|c rest]; simpl; [done|].
  case_bool_decide; [done|]. by destruct (getlines rest).
Qed.

Lemma getlines_app a : ∀ b,
  getlines (a ++ ascii_of_nat 10 :: b) = getlines a ++ getlines b.
Proof.
  induction a as [|c a IH]; intros b; [done|].
  cbn [app getlines]. case_bool_decide; rewrite IH; [done|].
  pose proof (getlines_nonempty a). by destruct (getlines a).
Qed.

Lemma getlines_one_line c : ascii_of_nat 10 ∉ c → getlines c = [c].
Proof.
  induction c as [|x c IH]; intros Hc; [done|]. cbn [getlines].
  apply not_elem_of_cons in Hc as [Hx Hc].
  rewrite bool_decide_eq_false_2 by done. by rewrite IH.
Qed.

Lemma Lexer_lines_app l1 : ∀ l2 tokens indent_count,
  Lexer_lines (l1 ++ l2) tokens indent_count
  = match Lexer_lines l1 tokens indent_count with
    | Done (tokens, indent_count) => Lexer_lines l2 tokens indent_count
    | Throw e => Throw e
    | NoFuel => NoFuel
    end.
Proof.
  induction l1 as [|l l1 IH]; intros l2 tokens n; [done|]. simpl.
  destruct (Lexer_line l tokens n) as [[tokens' n']| |]; [|done..]. apply IH.
Qed.

(** X10: an empty line and a line whose first character is [#] are
    skipped whole: the constructor builds the same token vector (or
    throws the same exception) whether the line is in the input or not. *)
Theorem skipped_line_is_invisible (a c b : list ascii) :
  ascii_of_nat 10 ∉ c →
  c = [] ∨ head c = Some "#"%char →
  Lexer (string_of_list_ascii (a ++ ascii_of_nat 10 :: c ++ ascii_of_nat 10 :: b))
  = Lexer (string_of_list_ascii (a ++ ascii_of_nat 10 :: b)).
Proof.
  intros Hnl Hc. unfold Lexer. rewrite !list_ascii_of_string_of_list_ascii.
  rewrite !getlines_app, (getlines_one_line c) by done.
  rewrite !Lexer_lines_app.
  destruct (Lexer_lines (getlines a) [] 0) as [[tokens n]| |]; [|done..].
  assert (Lexer_line c tokens n = Done (tokens, n)) as Hline.
  { destruct Hc as [->|Hc]; [done|]. destruct c as [|c0 c]; [done|].
    injection Hc as ->. done. }
  simpl. by rewrite Hline.
Qed.

Lemma skipped_line_is_invisible_witness :
  (ascii_of_nat 10 ∉ list_ascii_of_string "# x = 2")
  ∧ (list_ascii_of_string "# x = 2" = []
     ∨ head (list_ascii_of_string "# x = 2") = Some "#"%char)
  ∧ Lexer (string_of_list_ascii
             (list_ascii_of_string "x = 1" ++ ascii_of_nat 10
              :: list_ascii_of_string "# x = 2" ++ ascii_of_nat 10
              :: list_ascii_of_string "print x"))
    = Lexer (string_of_list_ascii
               (list_ascii_of_string "x = 1" ++ ascii_of_nat 10
                :: list_ascii_of_string "print x")).
Proof.
  assert (ascii_of_nat 10 ∉ list_ascii_of_string "# x = 2") as H1
    by (apply (bool_decide_unpack _); vm_compute; exact I).
  split; [done|]. split; [by right|].
  apply (skipped_line_is_invisible (list_ascii_of_string "x = 1")
           (list_ascii_of_string "# x = 2") (list_ascii_of_string "print x") H1).
  by right.
Defined.

(** *** Blocks are closed after they are opened *)

Lemma nested_app l added i :
  nested l →
  tally is_Indent l = tally is_Dedent l + i →
  (∀ n, tally is_Dedent (take n added) ≤ i + tally is_Indent (take n added)) →
  nested (l ++ added).
Proof.
  intros Hl Hb Hadded n. rewrite take_app, !tally_app.
  destruct (decide (n ≤ List.length l)) as [Hn|Hn].
  - replace (n - List.length l) with 0 by lia. rewrite take_0.
    unfold tally at 2 4. simpl. specialize (Hl n). lia.
  - rewrite take_ge by lia. specialize (Hadded (n - List.length l)). lia.
Qed.

Lemma nested_appends_plain l l' i :
  appends_plain l l' → nested l → balanced l i → nested l'.
Proof.
  intros (added & -> & Hadded) Hl [Hb _]. apply (nested_app _ _ i); [done..|].
  intros n. destruct (tally_plain (take n added)) as (_ & -> & _); [|lia].
  by apply Forall_take.
Qed.

Lemma ReadIndents_nested input old_indent tokens_ input' indent' tokens' :
  ReadIndents input old_indent tokens_ = (input', indent', tokens') →
  nested tokens_ → balanced tokens_ old_indent → nested tokens'.
Proof.
  unfold ReadIndents.
  destruct (ReadIndents_loop _ _ _) as [s|s indent].
  { by intros [= _ _ <-]. }
  repeat case_bool_decide; intros [= _ _ <-] Hl [Hb _]; [| |done].
  - apply (nested_app _ _ old_indent); [done..|]. intros n.
    rewrite take_replicate, (tally_replicate_other is_Dedent) by done. lia.
  - apply (nested_app _ _ old_indent); [done..|]. intros n.
    rewrite take_replicate, (tally_replicate_same is_Dedent) by done. lia.
Qed.

Lemma Lexer_line_nested temp_string tokens_ indent_count tokens' indent' :
  Lexer_line temp_string tokens_ indent_count = Done (tokens', indent') →
  nested tokens_ → balanced tokens_ indent_count → nested tokens'.
Proof.
  unfold Lexer_line. destruct temp_string as [|c0 rest]; [by intros [= <- <-]|].
  case_bool_decide; [by intros [= <- <-]|].
  destruct (ReadIndents _ _ _) as [[line n] toks] eqn:HR.
  destruct (tokenize _ _ _) as [toks'| |] eqn:HT; [|done..].
  intros [= <- <-] Hl Hb.
  pose proof (ReadIndents_nested _ _ _ _ _ _ HR Hl Hb) as Hl1.
  pose proof (ReadIndents_balanced _ _ _ _ _ _ HR Hb) as Hb1.
  apply tokenize_plain in HT.
  pose proof (nested_appends_plain _ _ _ HT Hl1 Hb1) as Hl2.
  pose proof (balanced_appends_plain _ _ _ HT Hb1) as Hb2.
  destruct toks' as [|t toks']; [done|].
  eapply nested_appends_plain; [|done..]. by apply appends_plain_one.
Qed.

Lemma Lexer_lines_nested lines : ∀ tokens_ indent_count tokens' indent',
  Lexer_lines lines tokens_ indent_count = Done (tokens', indent') →
  nested tokens_ → balanced tokens_ indent_count → nested tokens'.
Proof.
  induction lines as [|l lines IH]; intros tokens_ n tokens' n'; simpl.
  { by intros [= <- <-]. }
  destruct (Lexer_line _ _ _) as [[toks m]| |] eqn:HL; [|done..].
  intros HR Hl Hb. eapply IH; [done|..].
  - by eapply Lexer_line_nested.
  - by eapply Lexer_line_balanced.
Qed.

(** X11: in the token vector the constructor builds, no [Dedent] comes
    before the [Indent] it closes: every prefix of the vector holds at
    most as many [Dedent] as [Indent] tokens. *)
Theorem Lexer_nested (input : string) (tokens : list Token) :
  Lexer input = Done tokens → nested tokens.
Proof.
  unfold Lexer.
  destruct (Lexer_lines _ _ _) as [[tokens_ n]| |] eqn:HL; [|done..].
  intros [= <-].
  assert (nested []) as H0 by (intros k; by rewrite take_nil).
  assert (balanced [] 0) as B0 by done.
  pose proof (Lexer_lines_nested _ _ _ _ _ HL H0 B0) as Hl.
  pose proof (Lexer_lines_balanced _ _ _ _ _ HL B0) as [Hb He].
  apply (nested_app _ _ n); [done..|]. intros k.
  rewrite take_app, !tally_app, take_replicate.
  rewrite (tally_replicate_same is_Dedent), (tally_replicate_other is_Indent) by done.
  assert (tally is_Dedent (take (k - List.length (replicate n token_type.Dedent))
                             [token_type.Eof]) = 0) as ->; [|lia].
  by destruct (k - _) as [|[|?]].
Qed.

Lemma Lexer_nested_witness :
  Lexer "if a:
  b
c"
  = Done [token_type.If; token_type.Id "a"; token_type.Char ":"; token_type.Newline;
          token_type.Indent; token_type.Id "b"; token_type.Newline;
          token_type.Dedent; token_type.Id "c"; token_type.Newline; token_type.Eof]
  ∧ nested [token_type.If; token_type.Id "a"; token_type.Char ":"; token_type.Newline;
            token_type.Indent; token_type.Id "b"; token_type.Newline;
            token_type.Dedent; token_type.Id "c"; token_type.Newline; token_type.Eof].
Proof.
  split; [reflexivity|]. by apply (Lexer_nested "if a:
  b
c").
Defined.

(** *** The constructor as a whole *)

(** X12: the constructor finishes on every input, except that a number
    above [INT_MAX] makes [std::stoi] throw [out_of_range]; the lexer it
    leaves stands on its first token, and there is one. *)
Theorem Lexer_new_has_a_current_token (input : string) :
  match Lexer_new input with
  | Done lexer => current_token_ lexer = 0%Z ∧ is_Some (CurrentToken lexer)
  | Throw e => e = out_of_range "stoi"
  | NoFuel => False
  end.
Proof.
  unfold Lexer_new.
  destruct (Lexer_Done_or_overflow input) as [[tokens HL]| ->]; [|done].
  rewrite HL. split; [done|].
  destruct (Lexer_last_is_Eof _ _ HL) as [body ->].
  unfold CurrentToken. simpl. by destruct body; eexists.
Qed.

(** X13: a line that is one word, made of characters [ReadId] takes and
    starting with neither a digit nor a quote, gives three tokens: the
    keyword or the [Id] of the word, [Newline] and [Eof]. *)
Theorem Lexer_of_one_word (c : ascii) (w : list ascii) :
  Forall (λ c, id_char c = true) (c :: w) →
  ascii_of_nat 10 ∉ c :: w →
  is_number c = false → c ≠ "'"%char → c ≠ dquote →
  Lexer (string_of_list_ascii (c :: w))
  = Done [match at_ keywords_ (string_of_list_ascii (c :: w)) with
          | Some t => t
          | None => token_type.Id (string_of_list_ascii (c :: w))
          end; token_type.Newline; token_type.Eof].
Proof.
  intros Hw Hnl Hnum Hq Hdq. unfold Lexer.
  rewrite list_ascii_of_string_of_list_ascii, getlines_one_line by done.
  pose proof Hw as Hw'. apply Forall_cons in Hw' as [Hc _].
  unfold id_char in Hc. apply negb_true_iff in Hc.
  apply orb_false_elim in Hc as [Hc Hops].
  apply orb_false_elim in Hc as [Hc Hchars].
  apply orb_false_elim in Hc as [Hhash Hsp].
  cbn [Lexer_lines Lexer_line]. rewrite Hhash.
  unfold ReadIndents. cbn [readable good failed chars ReadIndents_loop].
  rewrite Hsp. cbn [putback good failed chars].
  rewrite !bool_decide_eq_false_2 by lia.
  cbn [tokenize get_char readable good failed chars].
  rewrite Hsp, (bool_decide_eq_false_2 (c = "'"%char)),
    (bool_decide_eq_false_2 (c = dquote)) by done.
  cbn [orb]. rewrite Hops, Hchars, Hnum. cbn [putback good failed chars].
  assert (∃ s, ReadId (good (c :: w)) []
               = (s, [] ++ [match at_ keywords_ (string_of_list_ascii (c :: w)) with
                            | Some t => t
                            | None => token_type.Id (string_of_list_ascii (c :: w))
                            end])
               ∧ readable s = []) as (s & HR & Hs).
  { unfold ReadId. cbn [readable good failed chars].
    replace (ReadId_loop (c :: w) "") with (ReadId_loop ((c :: w) ++ []) "")
      by (by rewrite app_nil_r).
    rewrite ReadId_loop_word by done.
    change ("" +:+ string_of_list_ascii (c :: w))
      with (string_of_list_ascii (c :: w)).
    cbn [ReadId_loop]. destruct (at_ keywords_ _); eauto. }
  change (good (c :: w)) with {| chars := c :: w; failed := false |} in HR.
  unfold good. rewrite HR.
  assert (tokenize (List.length (c :: w)) s
            ([] ++ [match at_ keywords_ (string_of_list_ascii (c :: w)) with
                    | Some t => t
                    | None => token_type.Id (string_of_list_ascii (c :: w))
                    end])
          = Done ([] ++ [match at_ keywords_ (string_of_list_ascii (c :: w)) with
                         | Some t => t
                         | None => token_type.Id (string_of_list_ascii (c :: w))
                         end])) as ->.
  { cbn [List.length tokenize]. unfold get_char. by rewrite Hs. }
  done.
Qed.

Lemma Lexer_of_one_word_witness :
  Forall (λ c, id_char c = true) ("r"%char :: list_ascii_of_string "eturn")
  ∧ (ascii_of_nat 10 ∉ "r"%char :: list_ascii_of_string "eturn")
  ∧ is_number "r"%char = false ∧ "r"%char ≠ "'"%char ∧ "r"%char ≠ dquote
  ∧ Lexer (string_of_list_ascii ("r"%char :: list_ascii_of_string "eturn"))
    = Done [token_type.Return; token_type.Newline; token_type.Eof].
Proof.
  assert (Forall (λ c, id_char c = true) ("r"%char :: list_ascii_of_string "eturn"))
    as H1 by (by repeat constructor).
  assert (ascii_of_nat 10 ∉ "r"%char :: list_ascii_of_string "eturn") as H2
    by (apply (bool_decide_unpack _); vm_compute; exact I).
  assert ("r"%char ≠ "'"%char) as H3 by done.
  assert ("r"%char ≠ dquote) as H4 by done.
  split; [done|]. split; [done|]. split; [done|]. split; [done|]. split; [done|].
  exact (Lexer_of_one_word "r"%char (list_ascii_of_string "eturn") H1 H2 eq_refl
           H3 H4).
Defined.

End LexerMore.

(** ** Further facts about the evaluator *)

Module EvalMore.
Import runtime ast props samples notions EvalFacts StringFacts.

(** *** What a run leaves of the state *)

Lemma closure_grows_refl c : closure_grows c c.
Proof. destruct c; simpl; [set_solver|done]. Qed.

Lemma closure_grows_trans c1 c2 c3 :
  closure_grows c1 c2 → closure_grows c2 c3 → closure_grows c1 c3.
Proof.
  destruct c1, c2, c3; simpl; try done; [set_solver|congruence].
Qed.

Lemma instance_grows_refl i : instance_grows i i.
Proof. destruct i; simpl; [|done]. split; [done|set_solver]. Qed.

Lemma instance_grows_trans i1 i2 i3 :
  instance_grows i1 i2 → instance_grows i2 i3 → instance_grows i1 i3.
Proof.
  destruct i1, i2, i3; simpl; try done.
  intros [? ?] [? ?]. split; [congruence|set_solver].
Qed.

Lemma extends_refl s : extends s s.
Proof.
  split; [apply closure_grows_refl|intros; apply instance_grows_refl| |lia].
  exists "". by rewrite append_empty_r.
Qed.

Lemma extends_trans s1 s2 s3 : extends s1 s2 → extends s2 s3 → extends s1 s3.
Proof.
  intros [Hc1 Hh1 [t1 Ho1] Hb1] [Hc2 Hh2 [t2 Ho2] Hb2]. split.
  - by eapply closure_grows_trans.
  - intros p. by eapply instance_grows_trans.
  - exists (t1 +:+ t2). by rewrite Ho2, Ho1, append_assoc.
  - lia.
Qed.

Lemma keeps_ret {A} (a : A) : keeps (mret a).
Proof. intros s. apply extends_refl. Qed.

Lemma keeps_throw {A} what : keeps (throw what : M A).
Proof. intros s. apply extends_refl. Qed.

Lemma keeps_undefined {A} : keeps (undefined : M A).
Proof. by intros s. Qed.

Lemma keeps_timeout {A} : keeps (timeout : M A).
Proof. by intros s. Qed.

Lemma keeps_bind {A B} (m : M A) (f : A → M B) :
  keeps m → (∀ a, keeps (f a)) → keeps (m ≫= f).
Proof.
  intros Hm Hf s. specialize (Hm s). unfold mbind, M_bind.
  destruct (m s) as [a s'|what s'| |]; try done.
  specialize (Hf a s'). destruct (f a s'); try done; by eapply extends_trans.
Qed.

Lemma keeps_try_catch {A} (m : M A) handler :
  keeps m → (∀ what, keeps (handler what)) → keeps (try_catch m handler).
Proof.
  intros Hm Hh s. specialize (Hm s). unfold try_catch.
  destruct (m s) as [a s'|what s'| |]; try done.
  specialize (Hh what s'). destruct (handler what s'); try done;
    by eapply extends_trans.
Qed.

Lemma keeps_with_closure {A} c (m : M A) : keeps m → keeps (with_closure c m).
Proof.
  intros Hm s. unfold with_closure. specialize (Hm (set_closure c s)).
  destruct (m (set_closure c s)) as [a s'|what s'| |]; try done;
    destruct Hm as [_ Hh Ho Hb]; (split; [apply closure_grows_refl|done..]).
Qed.

Lemma keeps_instance_at p : keeps (instance_at p).
Proof.
  intros s. unfold instance_at. destruct (heap s !! p); [|done].
  apply extends_refl.
Qed.

Lemma keeps_closure_map : keeps closure_map.
Proof.
  intros s. unfold closure_map.
  destruct (closure s); [apply extends_refl|].
  destruct (heap s !! p); [|done]. apply extends_refl.
Qed.

Lemma keeps_Fields_set p name value : keeps (Fields_set p name value).
Proof.
  intros s. unfold Fields_set.
  destruct (heap s !! p) as [inst|] eqn:Hp; [|done].
  split; simpl; [apply closure_grows_refl| | |lia].
  - intros q. destruct (decide (p = q)) as [<-|Hne].
    + rewrite lookup_insert_eq, Hp. simpl. split; [done|]. set_solver.
    + rewrite lookup_insert_ne by done. apply instance_grows_refl.
  - exists "". by rewrite append_empty_r.
Qed.

Lemma keeps_closure_set name value : keeps (closure_set name value).
Proof.
  intros s. unfold closure_set. destruct (closure s) as [c|p] eqn:Hc.
  - split; simpl; [|intros; apply instance_grows_refl| |lia].
    + rewrite Hc. simpl. set_solver.
    + exists "". by rewrite append_empty_r.
  - apply keeps_Fields_set.
Qed.

Lemma keeps_write text : keeps (write text).
Proof.
  intros s. split; simpl;
    [apply closure_grows_refl|intros; apply instance_grows_refl| |lia].
  by exists text.
Qed.

Lemma keeps_Own_Number value : keeps (Own_Number value).
Proof.
  intros s. split; simpl;
    [apply closure_grows_refl|intros; apply instance_grows_refl| |lia].
  exists "". by rewrite append_empty_r.
Qed.

Lemma keeps_Own_String value : keeps (Own_String value).
Proof.
  intros s. split; simpl;
    [apply closure_grows_refl|intros; apply instance_grows_refl| |lia].
  exists "". by rewrite append_empty_r.
Qed.

Lemma keeps_Own_Bool value : keeps (Own_Bool value).
Proof.
  intros s. split; simpl;
    [apply closure_grows_refl|intros; apply instance_grows_refl| |lia].
  exists "". by rewrite append_empty_r.
Qed.

Lemma keeps_mapM {A B} (f : A → M B) l : (∀ a, keeps (f a)) → keeps (mapM f l).
Proof.
  intros Hf. induction l as [|a l IH]; simpl; [apply keeps_ret|].
  apply keeps_bind; [apply Hf|]. intros y.
  apply keeps_bind; [apply IH|]. intros k. apply keeps_ret.
Qed.

Lemma keeps_foldM {A B} (f : B → A → M B) l : ∀ x,
  (∀ x a, keeps (f x a)) → keeps (foldM f x l).
Proof.
  induction l as [|a l IH]; intros x Hf; simpl; [apply keeps_ret|].
  apply keeps_bind; [apply Hf|]. intros y. by apply IH.
Qed.

Lemma keeps_for_each {A B} (f : A → M B) l :
  (∀ a, keeps (f a)) → keeps (for_each f l).
Proof.
  intros Hf. induction l as [|a l IH]; simpl; [apply keeps_ret|].
  apply keeps_bind; [apply Hf|]. intros _. apply IH.
Qed.

Create HintDb keeps.
#[local] Hint Resolve keeps_ret keeps_throw keeps_undefined keeps_timeout
  keeps_instance_at keeps_closure_map keeps_Fields_set keeps_closure_set
  keeps_write keeps_Own_Number keeps_Own_String keeps_Own_Bool : keeps.

(** One step through a computation built from the pieces above. *)
Ltac keeps_step :=
  match goal with
  | |- keeps (_ ≫= _) => apply keeps_bind; [|intros ?]
  | |- keeps (try_catch _ _) => apply keeps_try_catch; [|intros ?]
  | |- keeps (with_closure _ _) => apply keeps_with_closure
  | |- keeps (mapM _ _) => apply keeps_mapM; intros ?
  | |- keeps (foldM _ _ _) => apply keeps_foldM; intros ? ?
  | |- keeps (for_each _ _) => apply keeps_for_each; intros ?
  | |- keeps (if ?c then _ else _) => destruct c
  | |- keeps (match ?x with _ => _ end) => destruct x
  | |- keeps _ => solve [auto with keeps]
  end.

Section Level.

Variable Execute_ : Statement → M ObjectHolder.
Variable Print_ : ObjectHolder → M string.

Hypothesis Execute_keeps : ∀ stmt, keeps (Execute_ stmt).
Hypothesis Print_keeps : ∀ object, keeps (Print_ object).

#[local] Hint Resolve Execute_keeps Print_keeps : keeps.

Lemma keeps_Call this method actual_args :
  keeps (Call Execute_ this method actual_args).
Proof. unfold Call. repeat keeps_step. Qed.

Lemma keeps_HasMethod p method n : keeps (HasMethod p method n).
Proof. unfold HasMethod. repeat keeps_step. Qed.

Lemma keeps_Fields_at p name : keeps (Fields_at p name).
Proof. unfold Fields_at. repeat keeps_step. Qed.

Lemma keeps_closure_at name : keeps (closure_at name).
Proof. unfold closure_at. repeat keeps_step. Qed.

#[local] Hint Resolve keeps_Call keeps_HasMethod keeps_Fields_at
  keeps_closure_at : keeps.

Lemma keeps_Print_object object : keeps (Print_object Execute_ Print_ object).
Proof.
  destruct object; simpl; unfold ClassInstance_Print; repeat keeps_step.
Qed.

Lemma keeps_Equal lhs rhs : keeps (Equal Execute_ lhs rhs).
Proof. unfold Equal. destruct lhs, rhs; simpl; repeat keeps_step. Qed.

Lemma keeps_Less lhs rhs : keeps (Less Execute_ lhs rhs).
Proof. unfold Less. destruct lhs, rhs; simpl; repeat keeps_step. Qed.

#[local] Hint Resolve keeps_Equal keeps_Less : keeps.

Lemma keeps_compare cmp lhs rhs : keeps (compare Execute_ cmp lhs rhs).
Proof.
  destruct cmp; simpl;
    unfold NotEqual, Greater, LessOrEqual, GreaterOrEqual; repeat keeps_step.
Qed.

Lemma keeps_VariableValue var_names_ : keeps (VariableValue_Execute var_names_).
Proof. unfold VariableValue_Execute. repeat keeps_step. Qed.

Lemma keeps_Print_args args_ : keeps (Print_args Execute_ Print_ args_).
Proof.
  induction args_ as [|arg rest IH]; simpl; [keeps_step|].
  keeps_step; [keeps_step|]. keeps_step; [repeat keeps_step|].
  keeps_step; [keeps_step|]. apply IH.
Qed.

#[local] Hint Resolve keeps_compare keeps_VariableValue keeps_Print_args : keeps.

Lemma keeps_Statement_Execute stmt :
  keeps (Statement_Execute Execute_ Print_ stmt).
Proof.
  destruct stmt; simpl;
    unfold Assignment_Execute, FieldAssignment_Execute, Print_Execute,
      MethodCall_Execute, NewInstance_Execute, Stringify_Execute, Add_Execute,
      Sub_Execute, Mult_Execute, Div_Execute, Or_Execute, And_Execute,
      Not_Execute, Compound_Execute, MethodBody_Execute, Return_Execute,
      ClassDefinition_Execute, IfElse_Execute, Comparison_Execute;
    repeat keeps_step.
Qed.

End Level.

Lemma keeps_Execute fuel :
  (∀ stmt, keeps (Execute fuel stmt)) ∧ (∀ object, keeps (Object_Print fuel object)).
Proof.
  induction fuel as [|fuel [IHE IHP]]; [split; intros; apply keeps_timeout|].
  split.
  - intros stmt. simpl. by apply keeps_Statement_Execute.
  - intros object. simpl. by apply keeps_Print_object.
Qed.

(** X14: whatever a statement does, whether it returns or throws, every
    instance is still there with its class and at least the fields it had,
    no instance has appeared, the closure is the same field store or a map
    with at least the names it had, the output has only been appended to,
    and the next free address of [Own] has not gone back. *)
Theorem Execute_extends (fuel : nat) (stmt : Statement) (s : State) :
  match Execute fuel stmt s with
  | Returns _ s' | Throws _ s' => extends s s'
  | Undefined | Timeout => True
  end.
Proof. apply keeps_Execute. Qed.

(** *** Methods and calls *)

Lemma find_name_Some (methods_ : list Method) name m :
  find (λ m, bool_decide (Method_name m = name)) methods_ = Some m →
  Method_name m = name ∧ m ∈ methods_.
Proof.
  induction methods_ as [|m0 ms IH]; simpl; [done|].
  case_bool_decide as Hm0.
  - intros [= <-]. split; [done|]. by left.
  - intros H. destruct (IH H) as [? ?]. split; [done|]. by right.
Qed.

Lemma find_name_None (methods_ : list Method) name :
  find (λ m, bool_decide (Method_name m = name)) methods_ = None →
  Forall (λ m, Method_name m ≠ name) methods_.
Proof.
  induction methods_ as [|m0 ms IH]; simpl; [by constructor|].
  case_bool_decide as Hm0; [done|]. intros H. constructor; [done|by apply IH].
Qed.

Lemma GetMethod_name : ∀ (c : Class) (name : string) (m : Method),
  GetMethod c name = Some m → Method_name m = name.
Proof.
  fix IH 1. intros [name_ methods_ parent_] name m. simpl.
  destruct (find _ methods_) as [m'|] eqn:Hfind.
  - intros [= <-]. by apply find_name_Some in Hfind as [? _].
  - destruct parent_ as [parent|]; [|done]. apply IH.
Qed.

(** X15: the method [GetMethod] finds has the name asked for; a class
    with a parent finds a method for every name its parent finds one for;
    and what it finds is its own first method of that name, or, when it
    has none of that name, what the parent finds. *)
Theorem GetMethod_inherits (name_ : string) (methods_ : list Method)
  (parent : Class) (name : string) :
  (∀ m, GetMethod (MkClass name_ methods_ (Some parent)) name = Some m →
        Method_name m = name)
  ∧ (is_Some (GetMethod parent name) →
     is_Some (GetMethod (MkClass name_ methods_ (Some parent)) name))
  ∧ (∀ m, GetMethod (MkClass name_ methods_ (Some parent)) name = Some m →
        m ∈ methods_
        ∨ (Forall (λ m', Method_name m' ≠ name) methods_
           ∧ GetMethod parent name = Some m)).
Proof.
  split; [|split].
  - intros m. apply GetMethod_name.
  - intros [m Hm]. simpl. destruct (find _ methods_); [done|]. by rewrite Hm.
  - intros m. simpl. destruct (find _ methods_) as [m'|] eqn:Hfind.
    + intros [= <-]. left. by apply find_name_Some in Hfind as [_ ?].
    + intros Hm. right. split; [|done]. by apply find_name_None.
Qed.

Lemma bind_params_other formal_params : ∀ actual_args (closure : Closure) x,
  x ∉ formal_params →
  bind_params closure formal_params actual_args !! x = closure !! x.
Proof.
  induction formal_params as [|name params IH]; intros args closure x Hx; [done|].
  destruct args as [|value args]; [done|]. simpl.
  apply not_elem_of_cons in Hx as [Hne Hx].
  rewrite IH by done. by rewrite lookup_insert_ne.
Qed.

(** X16: the closure [Call] builds for a method whose formal parameters
    are pairwise different binds the [i]-th formal parameter to the [i]-th
    actual argument and leaves every other name, [self] among them, as it
    was. *)
Theorem Call_binds_parameters (closure : Closure) (formal_params : list string)
  (actual_args : list ObjectHolder) :
  NoDup formal_params →
  List.length actual_args = List.length formal_params →
  (∀ i name, formal_params !! i = Some name →
             bind_params closure formal_params actual_args !! name
             = actual_args !! i
             ∧ is_Some (actual_args !! i))
  ∧ (∀ x, x ∉ formal_params →
          bind_params closure formal_params actual_args !! x = closure !! x).
Proof.
  intros Hnd Hlen. split; [|intros; by apply bind_params_other].
  revert closure actual_args Hnd Hlen.
  induction formal_params as [|p params IH]; intros closure args Hnd Hlen i name Hi.
  { by rewrite lookup_nil in Hi. }
  destruct args as [|a args]; [done|]. simpl in Hlen.
  apply NoDup_cons in Hnd as [Hp Hnd]. destruct i as [|i]; simpl in *.
  - injection Hi as <-. rewrite bind_params_other by done.
    rewrite lookup_insert_eq. eauto.
  - apply IH; [done|lia|done].
Qed.

Lemma Call_binds_parameters_witness :
  NoDup ["a"; "b"]
  ∧ List.length [HNumber 1 10; HNumber 2 20] = List.length ["a"; "b"]
  ∧ bind_params {[ "self" := HInstance 7 ]} ["a"; "b"] [HNumber 1 10; HNumber 2 20]
      !! "b" = Some (HNumber 2 20)
  ∧ bind_params {[ "self" := HInstance 7 ]} ["a"; "b"] [HNumber 1 10; HNumber 2 20]
      !! "self" = Some (HInstance 7).
Proof.
  assert (NoDup ["a"; "b"]) as H1 by (apply (bool_decide_unpack _); exact I).
  assert (List.length [HNumber 1 10; HNumber 2 20] = List.length ["a"; "b"])
    as H2 by reflexivity.
  destruct (Call_binds_parameters {[ "self" := HInstance 7 ]} ["a"; "b"]
              [HNumber 1 10; HNumber 2 20] H1 H2) as [Hparams Hother].
  split; [done|]. split; [done|]. split.
  - exact (proj1 (Hparams 1%nat "b" eq_refl)).
  - rewrite Hother; [reflexivity|].
    apply (bool_decide_unpack _). exact I.
Defined.

(** X17: [Call] throws [Not implemented], with nothing run and nothing
    changed, exactly where [HasMethod] answers no for the number of
    arguments given; where [HasMethod] answers yes, [Call] runs the body
    of the method [GetMethod] finds, in a closure of its own that holds
    [self] and the parameters. *)
Theorem Call_agrees_with_HasMethod (Execute_ : Statement → M ObjectHolder)
  (this : addr) (method : string) (actual_args : list ObjectHolder) (s : State) :
  match HasMethod this method (List.length actual_args) s with
  | Returns false s' =>
      s' = s ∧ Call Execute_ this method actual_args s = Throws "Not implemented" s
  | Returns true s' =>
      s' = s
      ∧ ∃ inst m,
          heap s !! this = Some inst
          ∧ GetMethod (class_ inst) method = Some m
          ∧ Call Execute_ this method actual_args s
            = with_closure
                (Local (bind_params {[ "self" := HInstance this ]}
                          (Method_formal_params m) actual_args))
                (Execute_ (Method_body m)) s
  | Throws _ _ | Timeout => False
  | Undefined =>
      heap s !! this = None ∧ Call Execute_ this method actual_args s = Undefined
  end.
Proof.
  unfold HasMethod, Call, mbind, M_bind, instance_at.
  destruct (heap s !! this) as [inst|] eqn:Hthis; [|done].
  destruct (GetMethod (class_ inst) method) as [m|] eqn:Hm; simpl; [|done].
  destruct (decide (List.length (Method_formal_params m) = List.length actual_args))
    as [Heq|Hne].
  - rewrite bool_decide_eq_true_2 by done. split; [done|].
    exists inst, m. by rewrite bool_decide_eq_true_2.
  - rewrite bool_decide_eq_false_2 by done. split; [done|].
    by rewrite bool_decide_eq_false_2.
Qed.

(** *** Writing a name and reading it back *)

Lemma closure_set_then_at name value s s' :
  closure_set name value s = Returns () s' →
  closure_at name s' = Returns value s'.
Proof.
  unfold closure_set, closure_at, closure_map, Fields_set, mbind, M_bind.
  destruct (closure s) as [c|p] eqn:Hc.
  - intros [= <-]. simpl. by rewrite lookup_insert_eq.
  - destruct (heap s !! p) as [inst|] eqn:Hp; [|done].
    intros [= <-]. simpl. rewrite Hc, lookup_insert_eq. simpl.
    by rewrite lookup_insert_eq.
Qed.

Lemma VariableValue_one name value s :
  closure_at name s = Returns value s →
  VariableValue_Execute [name] s = Returns value s.
Proof.
  intros H. unfold VariableValue_Execute, mbind, M_bind, try_catch.
  by rewrite H.
Qed.

(** X19: after an [Assignment] that returns, reading the variable gives
    the value the assignment returned, in a closure of its own as well as
    in a field store, and reads nothing else. *)
Theorem Assignment_then_read (fuel fuel' : nat) (var_name_ : string)
  (var_value_ : Statement) (s s' : State) (value : ObjectHolder) :
  Execute fuel (Assignment var_name_ var_value_) s = Returns value s' →
  Execute (S fuel') (VariableValue [var_name_]) s' = Returns value s'.
Proof.
  destruct fuel as [|fuel]; [done|]. simpl.
  unfold Assignment_Execute, mbind, M_bind.
  destruct (Execute fuel var_value_ s) as [v s1| | |]; [|done..].
  destruct (closure_set var_name_ v s1) as [[] s2| | |] eqn:Hset; [|done..].
  intros [= <- <-]. apply VariableValue_one. by eapply closure_set_then_at.
Qed.

Lemma Assignment_then_read_witness :
  Execute 2 (Assignment "x" (NumericConst 5 42)) one_Counter
  = Returns (HNumber 5 42)
      (set_closure (Local (<["x" := HNumber 5 42]> {[ "o" := HInstance 1 ]}))
         one_Counter)
  ∧ Execute 1 (VariableValue ["x"])
      (set_closure (Local (<["x" := HNumber 5 42]> {[ "o" := HInstance 1 ]}))
         one_Counter)
    = Returns (HNumber 5 42)
        (set_closure (Local (<["x" := HNumber 5 42]> {[ "o" := HInstance 1 ]}))
           one_Counter).
Proof.
  split; [reflexivity|].
  by apply (Assignment_then_read 2 0 "x" (NumericConst 5 42) one_Counter).
Defined.

(** X20: after a [ClassDefinition] that returns, the name of the class
    reads as the class. *)
Theorem ClassDefinition_then_read (fuel fuel' : nat) (p : addr) (cls_ : Class)
  (s s' : State) (value : ObjectHolder) :
  Execute fuel (ClassDefinition p cls_) s = Returns value s' →
  value = HClass p cls_
  ∧ Execute (S fuel') (VariableValue [GetName cls_]) s' = Returns (HClass p cls_) s'.
Proof.
  destruct fuel as [|fuel]; [done|]. simpl.
  unfold ClassDefinition_Execute, mbind, M_bind.
  destruct (closure_set (GetName cls_) (HClass p cls_) s) as [[] s2| | |] eqn:Hset;
    [|done..].
  intros [= <- <-]. split; [done|].
  apply VariableValue_one. by eapply closure_set_then_at.
Qed.

Lemma ClassDefinition_then_read_witness :
  Execute 1 (ClassDefinition 9 Box) one_Counter
  = Returns (HClass 9 Box)
      (set_closure (Local (<["Box" := HClass 9 Box]> {[ "o" := HInstance 1 ]}))
         one_Counter)
  ∧ HClass 9 Box = HClass 9 Box
  ∧ Execute 1 (VariableValue [GetName Box])
      (set_closure (Local (<["Box" := HClass 9 Box]> {[ "o" := HInstance 1 ]}))
         one_Counter)
    = Returns (HClass 9 Box)
        (set_closure (Local (<["Box" := HClass 9 Box]> {[ "o" := HInstance 1 ]}))
           one_Counter).
Proof.
  split; [reflexivity|].
  by apply (ClassDefinition_then_read 1 0 9 Box one_Counter).
Defined.

(** X21: after [o.field = value] has returned, [o.field] reads as the
    value assigned, provided the field is not called like the variable
    (in a field store [o.o = value] rebinds [o] itself). *)
Theorem FieldAssignment_then_read (fuel fuel' : nat) (o field_name_ : string)
  (field_value_ : Statement) (s s' : State) (value : ObjectHolder) :
  o ≠ field_name_ →
  Execute fuel (FieldAssignment [o] field_name_ field_value_) s = Returns value s' →
  Execute (S fuel') (VariableValue [o; field_name_]) s' = Returns value s'.
Proof.
  intros Hne. destruct fuel as [|fuel]; [done|]. simpl.
  unfold FieldAssignment_Execute, VariableValue_Execute, mbind, M_bind, try_catch.
  destruct (Execute fuel field_value_ s) as [v s1| | |]; [|done..].
  destruct (closure_at o s1) as [obj s2|what s2| |] eqn:Hat; [|done..].
  simpl. unfold mbind, M_bind. simpl. destruct obj as [| | | | |p]; try done.
  unfold Fields_set, mret, M_ret.
  assert (s2 = s1) as ->.
  { revert Hat. unfold closure_at, closure_map, mbind, M_bind.
    destruct (closure s1) as [c|q].
    - destruct (c !! o); by intros [= _ <-].
    - destruct (heap s1 !! q) as [inst|]; [|done].
      destruct (fields_ inst !! o); by intros [= _ <-]. }
  destruct (heap s1 !! p) as [inst|] eqn:Hp; [|done].
  intros [= <- <-].
  set (s' := set_heap _ s1).
  assert (closure_at o s' = Returns (HInstance p) s') as ->.
  { revert Hat. unfold closure_at, closure_map, mbind, M_bind. subst s'. simpl.
    destruct (closure s1) as [c|q].
    - destruct (c !! o); [|done]. by intros [= ->].
    - destruct (decide (q = p)) as [->|Hq].
      + rewrite Hp, lookup_insert_eq. simpl. rewrite lookup_insert_ne by done.
        destruct (fields_ inst !! o); [|done]. by intros [= ->].
      + rewrite lookup_insert_ne by done.
        destruct (heap s1 !! q) as [inst'|]; [|done].
        destruct (fields_ inst' !! o); [|done]. by intros [= ->]. }
  simpl. unfold mbind, M_bind, Fields_at, instance_at, mbind, M_bind.
  subst s'. simpl. rewrite lookup_insert_eq. simpl. by rewrite lookup_insert_eq.
Qed.

Lemma FieldAssignment_then_read_witness :
  "o" ≠ "v"
  ∧ (∃ s', Execute 2 (FieldAssignment ["o"] "v" (NumericConst 5 42)) one_Counter
           = Returns (HNumber 5 42) s'
           ∧ Execute 1 (VariableValue ["o"; "v"]) s' = Returns (HNumber 5 42) s').
Proof.
  split; [done|]. eexists. split; [reflexivity|].
  by apply (FieldAssignment_then_read 2 0 "o" "v" (NumericConst 5 42) one_Counter).
Defined.

(** *** Logic, order and arithmetic *)

(** X22: on operands that are literals or operator expressions, whose
    values live as long as the local holders of them, [Or] and [And]
    evaluate both operands, the left one first, whatever the left one
    gives: what the right operand throws is thrown also after a left
    [True] of [Or] and a left [False] of [And]; on two Bools they return a
    new Bool, the disjunction and the conjunction. *)
Theorem Or_And_evaluate_both (fuel : nat) (lhs_ rhs_ : Statement) (s s1 : State)
  (p : addr) (lhs_value : bool) :
  lives_while_held lhs_ = true →
  lives_while_held rhs_ = true →
  Execute fuel lhs_ s = Returns (HBool p lhs_value) s1 →
  match Execute fuel rhs_ s1 with
  | Returns (HBool _ rhs_value) s2 =>
      Execute (S fuel) (Or lhs_ rhs_) s
      = Returns (HBool (brk s2) (lhs_value || rhs_value)) (set_brk (brk s2 + 1) s2)
      ∧ Execute (S fuel) (And lhs_ rhs_) s
        = Returns (HBool (brk s2) (lhs_value && rhs_value)) (set_brk (brk s2 + 1) s2)
  | Returns _ s2 =>
      Execute (S fuel) (Or lhs_ rhs_) s = Throws "Or Error" s2
      ∧ Execute (S fuel) (And lhs_ rhs_) s = Throws "And Error" s2
  | Throws what s2 =>
      Execute (S fuel) (Or lhs_ rhs_) s = Throws what s2
      ∧ Execute (S fuel) (And lhs_ rhs_) s = Throws what s2
  | Undefined =>
      Execute (S fuel) (Or lhs_ rhs_) s = Undefined
      ∧ Execute (S fuel) (And lhs_ rhs_) s = Undefined
  | Timeout =>
      Execute (S fuel) (Or lhs_ rhs_) s = Timeout
      ∧ Execute (S fuel) (And lhs_ rhs_) s = Timeout
  end.
Proof.
  intros _ _ Hl. simpl. unfold Or_Execute, And_Execute, mbind, M_bind. rewrite Hl.
  destruct (Execute fuel rhs_ s1) as [[| | |q rhs_value| |] s2|what s2| |]; try done.
  by destruct lhs_value, rhs_value.
Qed.

Lemma Or_And_evaluate_both_witness :
  lives_while_held (BoolConst 1 true) = true
  ∧ lives_while_held (Div (NumericConst 2 1) (NumericConst 3 0)) = true
  ∧ Execute 2 (BoolConst 1 true) one_Counter = Returns (HBool 1 true) one_Counter
  ∧ Execute 3 (Or (BoolConst 1 true) (Div (NumericConst 2 1) (NumericConst 3 0)))
      one_Counter = Throws "Div by 0" one_Counter
  ∧ Execute 3 (And (BoolConst 1 true) (Div (NumericConst 2 1) (NumericConst 3 0)))
      one_Counter = Throws "Div by 0" one_Counter.
Proof.
  split; [reflexivity|]. split; [reflexivity|]. split; [reflexivity|].
  exact (Or_And_evaluate_both 2 (BoolConst 1 true)
           (Div (NumericConst 2 1) (NumericConst 3 0)) one_Counter one_Counter
           1 true eq_refl eq_refl eq_refl).
Defined.

Lemma compare_refl (l : string) : String.compare l l = Eq.
Proof.
  pose proof (String.compare_antisym l l) as H.
  by destruct (String.compare l l).
Qed.

Lemma ltb_flip (l r : string) :
  negb (String.ltb l r) && negb (bool_decide (l = r)) = String.ltb r l.
Proof.
  unfold String.ltb. rewrite (String.compare_antisym l r).
  destruct (String.compare r l) eqn:Hc; simpl.
  - apply String.compare_eq_iff in Hc as ->. by rewrite bool_decide_eq_true_2.
  - rewrite bool_decide_eq_false_2; [done|]. intros ->.
    rewrite compare_refl in Hc. done.
  - done.
Qed.

Lemma ltb_irrefl (l : string) : String.ltb l l = false.
Proof. unfold String.ltb. by rewrite compare_refl. Qed.

(** X23: on two numbers, two strings or two Bools the six comparators
    form one order: [Greater(lhs, rhs)] is [Less(rhs, lhs)],
    [LessOrEqual(lhs, rhs)] is [GreaterOrEqual(rhs, lhs)], [Less] and
    [Equal] never hold together, and nothing is run or changed. *)
Theorem primitive_order (Execute_ : Statement → M ObjectHolder)
  (lhs rhs : ObjectHolder) (s : State) :
  primitive_pair lhs rhs = true →
  Greater Execute_ lhs rhs s = Less Execute_ rhs lhs s
  ∧ LessOrEqual Execute_ lhs rhs s = GreaterOrEqual Execute_ rhs lhs s
  ∧ ∃ less equal,
      Less Execute_ lhs rhs s = Returns less s
      ∧ Equal Execute_ lhs rhs s = Returns equal s
      ∧ less && equal = false.
Proof.
  destruct lhs as [|p l|p l|p l|p l|p], rhs as [|q r|q r|q r|q r|q]; try done;
    intros _; unfold Greater, LessOrEqual, GreaterOrEqual, try_catch, mbind, M_bind;
    simpl; unfold mret, M_ret.
  - split; [|split].
    + destruct (bool_decide (l < r)%Z) eqn:Hlt; simpl; f_equal.
      * apply bool_decide_eq_true in Hlt. symmetry. apply bool_decide_eq_false. lia.
      * apply bool_decide_eq_false in Hlt.
        destruct (decide (l = r)) as [->|Hne].
        -- rewrite bool_decide_eq_true_2 by done. simpl. symmetry.
           apply bool_decide_eq_false. lia.
        -- rewrite bool_decide_eq_false_2 by done. simpl. symmetry.
           apply bool_decide_eq_true. lia.
    + destruct (bool_decide (l < r)%Z) eqn:Hlt; simpl.
      * apply bool_decide_eq_true in Hlt.
        rewrite (bool_decide_eq_false_2 (r < l)%Z) by lia. done.
      * apply bool_decide_eq_false in Hlt.
        destruct (decide (l = r)) as [->|Hne].
        -- rewrite bool_decide_eq_true_2 by done.
           rewrite (bool_decide_eq_false_2 (r < r)%Z) by lia. done.
        -- rewrite bool_decide_eq_false_2 by done.
           rewrite (bool_decide_eq_true_2 (r < l)%Z) by lia. done.
    + eexists _, _. split; [done|]. split; [done|].
      destruct (decide (l = r)) as [->|Hne].
      * rewrite (bool_decide_eq_false_2 (r < r)%Z) by lia. done.
      * rewrite (bool_decide_eq_false_2 (l = r)) by done. apply andb_false_r.
  - pose proof (ltb_flip l r) as H1. pose proof (ltb_flip r l) as H2.
    assert (bool_decide (r = l) = bool_decide (l = r)) as He
      by (apply bool_decide_ext; split; congruence).
    rewrite He in H2.
    destruct (String.ltb l r), (String.ltb r l), (bool_decide (l = r));
      simpl in *; try done; (split; [done|]; split; [done|]; by eexists _, _).
  - split; [|split].
    + by destruct l, r.
    + by destruct l, r.
    + eexists _, _. split; [done|]. split; [done|]. by destruct l, r.
Qed.

Lemma primitive_order_witness :
  primitive_pair (HString 1 "abc") (HString 2 "abd") = true
  ∧ Greater (Execute 0) (HString 1 "abc") (HString 2 "abd") one_Counter
    = Less (Execute 0) (HString 2 "abd") (HString 1 "abc") one_Counter
  ∧ LessOrEqual (Execute 0) (HString 1 "abc") (HString 2 "abd") one_Counter
    = GreaterOrEqual (Execute 0) (HString 2 "abd") (HString 1 "abc") one_Counter
  ∧ ∃ less equal,
      Less (Execute 0) (HString 1 "abc") (HString 2 "abd") one_Counter
      = Returns less one_Counter
      ∧ Equal (Execute 0) (HString 1 "abc") (HString 2 "abd") one_Counter
        = Returns equal one_Counter
      ∧ less && equal = false.
Proof.
  split; [reflexivity|].
  exact (primitive_order (Execute 0) (HString 1 "abc") (HString 2 "abd")
           one_Counter eq_refl).
Defined.

Lemma int_wrap_fits z : fits_int z → int_wrap z = z.
Proof.
  unfold fits_int, INT_MIN, int_wrap. intros Hz.
  rewrite Z.mod_small; lia.
Qed.

(** X24: on operands that are literals or operator expressions, whose
    values live as long as the local holders of them, and that give two
    numbers, [Add], [Sub] and [Mult] return a new Number with the sum, the
    difference and the product whenever that fits an [int], and [Div] the
    quotient rounded towards zero whenever the divisor is not zero and the
    quotient fits; both operands are evaluated, the left one first. *)
Theorem arithmetic_on_numbers (fuel : nat) (lhs_ rhs_ : Statement)
  (s s1 s2 : State) (p q : addr) (lhs_value rhs_value : Z) :
  lives_while_held lhs_ = true →
  lives_while_held rhs_ = true →
  Execute fuel lhs_ s = Returns (HNumber p lhs_value) s1 →
  Execute fuel rhs_ s1 = Returns (HNumber q rhs_value) s2 →
  (fits_int (lhs_value + rhs_value) →
   Execute (S fuel) (Add lhs_ rhs_) s
   = Returns (HNumber (brk s2) (lhs_value + rhs_value)) (set_brk (brk s2 + 1) s2))
  ∧ (fits_int (lhs_value - rhs_value) →
     Execute (S fuel) (Sub lhs_ rhs_) s
     = Returns (HNumber (brk s2) (lhs_value - rhs_value)) (set_brk (brk s2 + 1) s2))
  ∧ (fits_int (lhs_value * rhs_value) →
     Execute (S fuel) (Mult lhs_ rhs_) s
     = Returns (HNumber (brk s2) (lhs_value * rhs_value)) (set_brk (brk s2 + 1) s2))
  ∧ (rhs_value ≠ 0%Z → fits_int (lhs_value ÷ rhs_value) →
     Execute (S fuel) (Div lhs_ rhs_) s
     = Returns (HNumber (brk s2) (lhs_value ÷ rhs_value)) (set_brk (brk s2 + 1) s2)).
Proof.
  intros _ _ Hl Hr. simpl.
  unfold Add_Execute, Sub_Execute, Mult_Execute, Div_Execute, mbind, M_bind.
  rewrite Hl, Hr. unfold Own_Number.
  split; [|split; [|split]]; try (intros Hfit; by rewrite int_wrap_fits).
  intros Hne Hfit. rewrite bool_decide_eq_false_2 by done.
  rewrite bool_decide_eq_false_2; [done|]. intros [-> ->].
  unfold fits_int, INT_MIN in Hfit. vm_compute in Hfit. by destruct Hfit as [_ ?].
Qed.

Lemma arithmetic_on_numbers_witness :
  lives_while_held (Mult (NumericConst 1 (-7)) (NumericConst 2 3)) = true
  ∧ lives_while_held (NumericConst 3 2) = true
  ∧ Execute 2 (Mult (NumericConst 1 (-7)) (NumericConst 2 3)) one_Counter
    = Returns (HNumber 100 (-21)) (set_brk 101 one_Counter)
  ∧ Execute 2 (NumericConst 3 2) (set_brk 101 one_Counter)
    = Returns (HNumber 3 2) (set_brk 101 one_Counter)
  ∧ (fits_int (-21 + 2) →
     Execute 3 (Add (Mult (NumericConst 1 (-7)) (NumericConst 2 3))
                  (NumericConst 3 2)) one_Counter
     = Returns (HNumber 101 (-21 + 2)) (set_brk 102 one_Counter))
  ∧ (2%Z ≠ 0%Z → fits_int (-21 ÷ 2) →
     Execute 3 (Div (Mult (NumericConst 1 (-7)) (NumericConst 2 3))
                  (NumericConst 3 2)) one_Counter
     = Returns (HNumber 101 (-21 ÷ 2)) (set_brk 102 one_Counter)).
Proof.
  split; [reflexivity|]. split; [reflexivity|].
  split; [reflexivity|]. split; [reflexivity|].
  destruct (arithmetic_on_numbers 2
              (Mult (NumericConst 1 (-7)) (NumericConst 2 3)) (NumericConst 3 2)
              one_Counter (set_brk 101 one_Counter) (set_brk 101 one_Counter)
              100 3 (-21) 2 eq_refl eq_refl eq_refl eq_refl)
    as (Hadd & _ & _ & Hdiv).
  split; [exact Hadd|exact Hdiv].
Defined.

(** *** Printing and sequencing *)

Lemma set_output_twice o o' s : set_output o (set_output o' s) = set_output o s.
Proof. done. Qed.

Lemma literal_value fuel arg text s :
  literal_text arg = Some text →
  ∃ ptr, Execute (S fuel) arg s = Returns ptr s
         ∧ ((to_bool ptr = true ∧ Object_Print (S fuel) ptr s = Returns text s)
            ∨ (to_bool ptr = false ∧ text = "None")).
Proof.
  destruct arg; try done; simpl; intros [= <-]; eexists; (split; [done|]);
    first [by left | by right].
Qed.

Lemma Print_args_literals fuel args_ : ∀ texts s,
  Forall2 (λ arg text, literal_text arg = Some text) args_ texts →
  args_ ≠ [] →
  Print_args (Execute (S fuel)) (Object_Print (S fuel)) args_ s
  = Returns () (set_output (output s +:+ spaced texts +:+ endl) s).
Proof.
  induction args_ as [|arg rest IH]; intros texts s Hall Hne; [done|].
  apply Forall2_cons_inv_l in Hall as (text & texts' & Harg & Hrest & ->).
  destruct (literal_value fuel arg text s Harg) as (ptr & Hexec & Hcase).
  assert ((if to_bool ptr
           then Object_Print (S fuel) ptr ≫= λ text : string, write text
           else write "None") s
          = Returns () (set_output (output s +:+ text) s)) as Hwrite.
  { destruct Hcase as [[-> Hprint]|[-> ->]]; [|done].
    unfold mbind, M_bind. by rewrite Hprint. }
  cbn [Print_args]. unfold mbind at 1, M_bind at 1. rewrite Hexec.
  unfold mbind at 1, M_bind at 1. rewrite Hwrite.
  destruct rest as [|arg' rest].
  - apply Forall2_nil_inv_l in Hrest as ->.
    unfold mbind, M_bind, write, set_output. simpl. by rewrite append_assoc.
  - destruct texts' as [|text' texts'']; [by apply Forall2_nil_inv_r in Hrest|].
    unfold mbind at 1, M_bind at 1. unfold write at 1.
    rewrite (IH (text' :: texts'')) by done.
    unfold set_output. simpl. f_equal. f_equal.
    by rewrite !append_assoc.
Qed.

(** X25: [print] with literal arguments writes the texts of the
    arguments with one space between two neighbours, then a newline, and
    returns nothing; [None] is written as [None], and [print] without
    arguments writes the newline alone. *)
Theorem Print_of_literals (fuel : nat) (args_ : list Statement)
  (texts : list string) (s : State) :
  Forall2 (λ arg text, literal_text arg = Some text) args_ texts →
  Execute (S (S fuel)) (Print args_ "") s
  = Returns HNone (set_output (output s +:+ spaced texts +:+ endl) s).
Proof.
  intros Hall. cbn [Execute Statement_Execute]. unfold Print_Execute.
  rewrite bool_decide_eq_true_2 by done. cbn [negb].
  destruct args_ as [|arg rest].
  - apply Forall2_nil_inv_l in Hall as ->. done.
  - unfold mbind, M_bind. by rewrite (Print_args_literals fuel _ texts).
Qed.

Lemma Print_of_literals_witness :
  Forall2 (λ arg text, literal_text arg = Some text)
    [NumericConst 1 57; None_; BoolConst 2 true; StringConst 3 "hi"]
    ["57"; "None"; "True"; "hi"]
  ∧ Execute 2 (Print [NumericConst 1 57; None_; BoolConst 2 true;
                      StringConst 3 "hi"] "") one_Counter
    = Returns HNone
        (set_output (output one_Counter +:+ "57 None True hi" +:+ endl) one_Counter).
Proof.
  assert (Forall2 (λ arg text, literal_text arg = Some text)
            [NumericConst 1 57; None_; BoolConst 2 true; StringConst 3 "hi"]
            ["57"; "None"; "True"; "hi"]) as H
    by (repeat constructor).
  split; [exact H|]. exact (Print_of_literals 0 _ _ one_Counter H).
Defined.

Lemma for_each_app {A B} (f : A → M B) l1 l2 s :
  for_each f (l1 ++ l2) s
  = match for_each f l1 s with
    | Returns _ s1 => for_each f l2 s1
    | Throws what s1 => Throws what s1
    | Undefined => Undefined
    | Timeout => Timeout
    end.
Proof.
  revert s. induction l1 as [|a l1 IH]; intros s; [done|].
  simpl. unfold mbind, M_bind. by destruct (f a s).
Qed.

(** X26: a [Compound] runs its statements in order against the state
    the one before left: running [l1 ++ l2] is running [l1] and then, where
    that returns, [l2]; what the statements return is dropped, the
    [Compound] returns nothing. *)
Theorem Compound_in_sequence (fuel : nat) (l1 l2 : list Statement) (s : State) :
  Execute (S fuel) (Compound (l1 ++ l2)) s
  = match Execute (S fuel) (Compound l1) s with
    | Returns value s1 => Execute (S fuel) (Compound l2) s1
    | Throws what s1 => Throws what s1
    | Undefined => Undefined
    | Timeout => Timeout
    end
  ∧ match Execute (S fuel) (Compound l1) s with
    | Returns value _ => value = HNone
    | _ => True
    end.
Proof.
  cbn [Execute Statement_Execute]. unfold Compound_Execute, mbind, M_bind.
  rewrite for_each_app.
  by destruct (for_each (Execute fuel) l1 s).
Qed.

(** X27: nothing runs after a [Return]: a [Compound] with statements
    behind a [Return] does what it does without them. *)
Theorem nothing_runs_after_Return (fuel : nat) (l1 l2 : list Statement)
  (statement_ : Statement) (s : State) :
  Execute fuel (Compound (l1 ++ Return statement_ :: l2)) s
  = Execute fuel (Compound (l1 ++ [Return statement_])) s.
Proof.
  destruct fuel as [|fuel]; [done|].
  cbn [Execute Statement_Execute]. unfold Compound_Execute, mbind, M_bind.
  rewrite !for_each_app.
  destruct (for_each (Execute fuel) l1 s) as [[] s1| | |]; try done.
  simpl. unfold mbind, M_bind.
  pose proof (Return_never_returns fuel statement_ s1) as Hret.
  destruct (Execute fuel (Return statement_) s1) as [v s2| | |]; try done.
  by destruct (Hret v s2).
Qed.

(** *** Names that are not there *)

(** X28: in [VariableValue] only the read of the first name is guarded:
    an unbound first name throws [execute error]; a field that an instance
    does not have throws what [at] throws; and a further name after a value
    that is not an instance goes through a null pointer.  [Print] of an
    unbound name throws what [at] throws.  Nothing is changed. *)
Theorem reads_of_missing_names (fuel : nat) (name : string) (c : Closure)
  (s : State) :
  closure_map s = Returns c s →
  (c !! name = None →
   (∀ rest, Execute (S fuel) (VariableValue (name :: rest)) s
            = Throws "execute error" s)
   ∧ (name ≠ "" → Execute (S fuel) (Print [] name) s = Throws out_of_range_what s))
  ∧ (∀ p inst field rest,
       c !! name = Some (HInstance p) → heap s !! p = Some inst →
       fields_ inst !! field = None →
       Execute (S fuel) (VariableValue (name :: field :: rest)) s
       = Throws out_of_range_what s)
  ∧ (∀ value field rest,
       c !! name = Some value → (∀ p, value ≠ HInstance p) →
       Execute (S fuel) (VariableValue (name :: field :: rest)) s = Undefined).
Proof.
  intros Hc. split; [|split].
  - intros Hname. split.
    + intros rest. cbn [Execute Statement_Execute].
      unfold VariableValue_Execute, try_catch, closure_at, mbind, M_bind.
      by rewrite Hc, Hname.
    + intros Hne. cbn [Execute Statement_Execute].
      unfold Print_Execute, closure_at, mbind, M_bind.
      rewrite bool_decide_eq_false_2 by done. cbn [negb].
      by rewrite Hc, Hname.
  - intros p inst field rest Hname Hp Hfield. cbn [Execute Statement_Execute].
    unfold VariableValue_Execute, try_catch, closure_at, mbind, M_bind.
    rewrite Hc, Hname. simpl.
    unfold mbind, M_bind, Fields_at, instance_at, mbind, M_bind.
    by rewrite Hp, Hfield.
  - intros value field rest Hname Hvalue. cbn [Execute Statement_Execute].
    unfold VariableValue_Execute, try_catch, closure_at, mbind, M_bind.
    rewrite Hc, Hname. simpl. unfold mbind, M_bind.
    destruct value; try done. by destruct (Hvalue p).
Qed.

Lemma reads_of_missing_names_witness :
  closure_map one_Counter = Returns {[ "o" := HInstance 1 ]} one_Counter
  ∧ Execute 1 (VariableValue ["x"; "y"]) one_Counter
    = Throws "execute error" one_Counter
  ∧ Execute 1 (Print [] "x") one_Counter = Throws out_of_range_what one_Counter
  ∧ Execute 1 (VariableValue ["o"; "v"]) one_Counter
    = Throws out_of_range_what one_Counter.
Proof.
  split; [reflexivity|].
  destruct (reads_of_missing_names 0 "x" {[ "o" := HInstance 1 ]} one_Counter
              eq_refl) as [Hx _].
  destruct (reads_of_missing_names 0 "o" {[ "o" := HInstance 1 ]} one_Counter
              eq_refl) as (_ & Ho & _).
  destruct (Hx eq_refl) as [Hread Hprint].
  split; [apply Hread|]. split; [by apply Hprint|].
  by apply (Ho 1%N (ClassInstance_new Counter 1)).
Defined.

(** *** Comparing with [None] *)

(** X29: two empty holders are equal; where just one of the two
    operands is empty and the left one is not an instance, [Equal] and
    [NotEqual] throw; and where an operand is empty and the left one is not
    an instance, [Less] throws, and [Greater] throws under its own message.
    Nothing is run or changed. *)
Theorem comparisons_with_None (Execute_ : Statement → M ObjectHolder)
  (lhs rhs : ObjectHolder) (s : State) :
  (∀ p, lhs ≠ HInstance p) →
  to_bool lhs && to_bool rhs = false →
  (if to_bool lhs || to_bool rhs
   then Equal Execute_ lhs rhs s = Throws "Cannot compare objects for equality" s
        ∧ NotEqual Execute_ lhs rhs s
          = Throws "Cannot compare objects for equality" s
   else Equal Execute_ lhs rhs s = Returns true s
        ∧ NotEqual Execute_ lhs rhs s = Returns false s)
  ∧ Less Execute_ lhs rhs s = Throws "Cannot compare objects for less" s
  ∧ Greater Execute_ lhs rhs s = Throws "Cannot compare objects for greater" s.
Proof.
  intros Hlhs Hboth.
  destruct lhs as [|p l|p l|p l|p l|p]; try (by destruct (Hlhs p));
    destruct rhs as [|q r|q r|q r|q r|q]; try done.
Qed.

Lemma comparisons_with_None_witness :
  (∀ p, HNumber 1 0 ≠ HInstance p)
  ∧ to_bool (HNumber 1 0) && to_bool HNone = false
  ∧ Equal (Execute 0) (HNumber 1 0) HNone one_Counter
    = Throws "Cannot compare objects for equality" one_Counter
  ∧ Less (Execute 0) (HNumber 1 0) HNone one_Counter
    = Throws "Cannot compare objects for less" one_Counter.
Proof.
  assert (∀ p, HNumber 1 0 ≠ HInstance p) as H1 by done.
  destruct (comparisons_with_None (Execute 0) (HNumber 1 0) HNone one_Counter
              H1 eq_refl) as ([Heq _] & Hless & _).
  split; [done|]. split; [done|]. split; [exact Heq|exact Hless].
Defined.

End EvalMore.
